(** * A shallow embedding of the gorm condition compiler and schema reflector

    The development follows [scope_private.go] and [model_struct.go]:
    Go strings are [string]s (byte sequences), [interface{}] values are a
    tagged union, [map[string]interface{}] clauses are finite maps, and the
    mutable scope (its bound-value list) is threaded through a small
    state-and-failure monad in which a run-time panic is [None]. *)

From Stdlib Require Import ZArith Ascii String Lia.
From stdpp Require Import base option list fin_sets gmap strings pretty.

Set Warnings "-clear-no-such-hyp".

Local Open Scope Z_scope.
Local Open Scope nat_scope.

(** ** Go strings *)

(** The double-quote character, and [strings.Join]. *)
Definition dquote : string := String "034"%char EmptyString.

Definition Join (elems : list string) (sep : string) : string :=
  String.concat sep elems.

(** [strings.Replace(s, old, new, 1)] for a one-byte [old]: the first
    occurrence of [old] is replaced, the rest of [s] is kept. *)
Fixpoint ReplaceFirst (s : string) (old : ascii) (new : string) : string :=
  match s with
  | EmptyString => EmptyString
  | String c rest =>
      if Ascii.eqb c old then new +:+ rest
      else String c (ReplaceFirst rest old new)
  end.

(** Number of occurrences of a byte. *)
Fixpoint countByte (old : ascii) (s : string) : nat :=
  match s with
  | EmptyString => 0
  | String c rest => (if Ascii.eqb c old then 1 else 0) + countByte old rest
  end.

Definition qmark : ascii := "?"%char.

(** RE2 character classes [\s] and [\d]. *)
Definition isSpace (c : ascii) : bool :=
  match c with
  | "009" | "010" | "012" | "013" | " " => true
  | _ => false
  end%char.

Definition isDigit (c : ascii) : bool :=
  match c with
  | "0" | "1" | "2" | "3" | "4" | "5" | "6" | "7" | "8" | "9" => true
  | _ => false
  end%char.

Fixpoint skipWhile (p : ascii -> bool) (s : string) : string :=
  match s with
  | EmptyString => EmptyString
  | String c rest => if p c then skipWhile p rest else s
  end.

Fixpoint allBytes (p : ascii -> bool) (s : string) : bool :=
  match s with
  | EmptyString => true
  | String c rest => p c && allBytes p rest
  end.

(** [regexp.MustCompile("^\\s*\\d+\\s*$").MatchString]: the two classes are
    disjoint, so the match is the greedy one. *)
Definition isNumber (value : string) : bool :=
  match skipWhile isSpace value with
  | EmptyString => false
  | String c rest =>
      isDigit c && allBytes isSpace (skipWhile isDigit rest)
  end.

(** [strconv.Atoi] with its error dropped ([id, _ := strconv.Atoi(value)]),
    for a 64-bit [int]: a syntax error gives 0, a range error the nearest
    representable value. *)
Definition digitValue (c : ascii) : Z := Z.of_nat (nat_of_ascii c) - 48.

Fixpoint decimalValue (acc : Z) (s : string) : Z :=
  match s with
  | EmptyString => acc
  | String c rest => decimalValue (10 * acc + digitValue c) rest
  end.

Definition isDigits (s : string) : bool :=
  match s with
  | EmptyString => false
  | _ => allBytes isDigit s
  end.

Definition maxInt : Z := 2 ^ 63 - 1.
Definition minInt : Z := - 2 ^ 63.

Definition Atoi (s : string) : Z :=
  match s with
  | String "-" digits =>
      if isDigits digits then Z.max minInt (- decimalValue 0 digits) else 0
  | String "+" digits =>
      if isDigits digits then Z.min maxInt (decimalValue 0 digits) else 0
  | _ => if isDigits s then Z.min maxInt (decimalValue 0 s) else 0
  end%Z.

(** [regexp.MustCompile("(?i) (=|<>|>|<|LIKE|IS) ").MatchString]. A pattern
    is a sequence of runes, each given by the byte strings it may match:
    under [(?i)] a letter matches every member of its case-folding orbit,
    which for K and S also holds U+212A and U+017F. *)
Fixpoint dropPrefix (p s : string) : option string :=
  match p, s with
  | EmptyString, _ => Some s
  | String a p', String b s' => if Ascii.eqb a b then dropPrefix p' s' else None
  | String _ _, EmptyString => None
  end.

Fixpoint matchAlt (alts : list string) (s : string) : option string :=
  match alts with
  | [] => None
  | a :: alts' =>
      match dropPrefix a s with
      | Some rest => Some rest
      | None => matchAlt alts' s
      end
  end.

Fixpoint matchSeq (pat : list (list string)) (s : string) : bool :=
  match pat with
  | [] => true
  | alts :: pat' =>
      match matchAlt alts s with
      | Some rest => matchSeq pat' rest
      | None => false
      end
  end.

Fixpoint containsMatch (pats : list (list (list string))) (s : string) : bool :=
  existsb (fun pat => matchSeq pat s) pats ||
  match s with
  | EmptyString => false
  | String _ rest => containsMatch pats rest
  end.

Definition kelvinSign : string :=
  String "226"%char (String "132"%char (String "170"%char EmptyString)).
Definition longS : string :=
  String "197"%char (String "191"%char EmptyString).

Definition operatorPatterns : list (list (list string)) :=
  [ [[" "]; ["="]; [" "]];
    [[" "]; ["<"]; [">"]; [" "]];
    [[" "]; [">"]; [" "]];
    [[" "]; ["<"]; [" "]];
    [[" "]; ["L"; "l"]; ["I"; "i"]; ["K"; "k"; kelvinSign]; ["E"; "e"]; [" "]];
    [[" "]; ["I"; "i"]; ["S"; "s"; longS]; [" "]] ].

Definition hasOperator (value : string) : bool :=
  containsMatch operatorPatterns value.

(** [strings.TrimSpace(s) == EmptyString]: [s] holds white space only, the
    ASCII one and the UTF-8 encodings of U+0085, U+00A0, U+1680,
    U+2000..U+200A, U+2028, U+2029, U+202F, U+205F and U+3000. *)
Definition isAsciiSpace (c : ascii) : bool :=
  match c with
  | "009" | "010" | "011" | "012" | "013" | " " => true
  | _ => false
  end%char.

Definition between (lo hi : nat) (c : ascii) : bool :=
  (lo <=? nat_of_ascii c) && (nat_of_ascii c <=? hi).

Fixpoint isBlankString (s : string) : bool :=
  match s with
  | EmptyString => true
  | String c rest =>
      if isAsciiSpace c then isBlankString rest
      else
        match c, rest with
        | "194"%char, String d rest' =>
            (between 133 133 d || between 160 160 d) && isBlankString rest'
        | "225"%char, String "154"%char (String "128"%char rest') =>
            isBlankString rest'
        | "226"%char, String "128"%char (String d rest') =>
            (between 128 138 d || between 168 169 d || between 175 175 d)
            && isBlankString rest'
        | "226"%char, String "129"%char (String "159"%char rest') =>
            isBlankString rest'
        | "227"%char, String "128"%char (String "128"%char rest') =>
            isBlankString rest'
        | _, _ => false
        end
  end.

(** ** Pluralization rules

    The keys of [pluralMapKeys] are all anchored at the end of the text: six
    literal suffixes and [([^s])s?$]. A replacement template may refer to
    the first group as [${1}]. *)
Inductive Regexp :=
| Suffix (lit : string)          (* lit$ *)
| NotSOptionalS.                 (* ([^s])s?$ *)

Fixpoint hasSuffix (s suffix : string) : bool :=
  String.eqb s suffix ||
  match s with
  | EmptyString => false
  | String _ rest => hasSuffix rest suffix
  end.

(** The text before the suffix match, for a text that has the suffix. *)
Fixpoint trimSuffix (s suffix : string) : string :=
  if String.eqb s suffix then EmptyString
  else
    match s with
    | EmptyString => EmptyString
    | String c rest => String c (trimSuffix rest suffix)
    end.

(** The leftmost match of [([^s])s?$]: the text before it and group 1. A
    match ends the text and is one byte that is not [s], or such a byte and
    an [s]. *)
Fixpoint matchNotS (s : string) : option (string * string) :=
  match s with
  | EmptyString => None
  | String c rest =>
      let here :=
        if Ascii.eqb c "s" then None
        else if String.eqb rest EmptyString || String.eqb rest "s"
             then Some (EmptyString, String c EmptyString)
             else None in
      match here with
      | Some m => Some m
      | None =>
          match matchNotS rest with
          | Some (before, group) => Some (String c before, group)
          | None => None
          end
      end
  end.

Definition MatchString (reg : Regexp) (s : string) : bool :=
  match reg with
  | Suffix lit => hasSuffix s lit
  | NotSOptionalS => bool_decide (is_Some (matchNotS s))
  end.

(** Template expansion for the templates of [pluralMapValues]. *)
Fixpoint expand (template group1 : string) : string :=
  match template with
  | String "$" (String "{" (String "1" (String "}" rest))) =>
      group1 +:+ expand rest group1
  | String c rest => String c (expand rest group1)
  | EmptyString => EmptyString
  end.

Definition ReplaceAllString (reg : Regexp) (src repl : string) : string :=
  match reg with
  | Suffix lit =>
      if hasSuffix src lit then trimSuffix src lit +:+ expand repl EmptyString
      else src
  | NotSOptionalS =>
      match matchNotS src with
      | Some (before, group1) => before +:+ expand repl group1
      | None => src
      end
  end.

Definition pluralMapKeys : list Regexp :=
  [Suffix "ch"; Suffix "ss"; Suffix "sh"; Suffix "day"; Suffix "y"; Suffix "x";
   NotSOptionalS].
Definition pluralMapValues : list string :=
  ["ches"; "sses"; "shes"; "days"; "ies"; "xes"; "${1}s"].

(** Modelled from the spec: [ToDBName] (utils.go, which is absent)
    normalizes a Go name to snake_case: every upper-case letter is lowered,
    and an underscore goes before each one that is not the first byte. *)
Definition isUpper (c : ascii) : bool := between 65 90 c.
Definition toLower (c : ascii) : ascii :=
  if isUpper c then ascii_of_nat (nat_of_ascii c + 32) else c.

Fixpoint snakeCase (first : bool) (name : string) : string :=
  match name with
  | EmptyString => EmptyString
  | String c rest =>
      if isUpper c then
        (if first then EmptyString else "_") +:+ String (toLower c) (snakeCase false rest)
      else String c (snakeCase false rest)
  end.

Definition ToDBName (name : string) : string := snakeCase true name.

(** ** Values of type [interface{}] *)

(** Element types the type switches of the clause builders list for slices:
    the integer slices, [[]string], [[]interface{}], and any other slice. *)
Inductive SliceType := SInts | SStrings | SIfaces | SOthers.

#[warnings="-register-all"]
Inductive Value :=
| VNil                                       (* the nil interface *)
| VInt (i : Z)                               (* int, int8 .. uint64 *)
| VNullInt64 (i : Z) (valid : bool)          (* sql.NullInt64 *)
| VString (s : string)
| VSlice (ty : SliceType) (elems : list Value)
| VMap (entries : list (string * Value))     (* map[string]interface{}, in iteration order *)
| VStruct (name : string) (fields : list (string * Value)) (valuer : option Value).
   (* any other dynamic type, typically a struct; [valuer] is what its
      driver.Valuer method returns when the type has one *)

(** A clause is the Go map with the keys "query" and "args". *)
Abbreviation Clause := (gmap string Value).

(** [fmt.Sprintf("%v", value)] for the scalars printed by [buildNotCondition]. *)
Definition showBool (b : bool) : string := if b then "true" else "false".

Definition showScalar (value : Value) : string :=
  match value with
  | VInt i => pretty i
  | VNullInt64 i valid => "{" +:+ pretty i +:+ " " +:+ showBool valid +:+ "}"
  | _ => EmptyString
  end.

(** [arg, _ = valuer.Value()] when [arg] is a [driver.Valuer]. *)
Definition valuerValue (arg : Value) : Value :=
  match arg with
  | VNullInt64 i valid => if valid then VInt i else VNil
  | VStruct _ _ (Some v) => v
  | _ => arg
  end.

(** ** The schema data model ([model_struct.go]) *)

(** Types as [reflect.Type] shows them: struct types are named and declared
    in the environment below, so that they may refer to each other. *)
Inductive GoType :=
| TScalar (name : string)          (* any kind but struct, pointer, slice *)
| TStruct (pkg name : string)
| TPtr (elem : GoType)
| TSlice (elem : GoType).

Global Instance GoType_eq_dec : EqDecision GoType.
Proof. solve_decision. Defined.

Fixpoint GoType_encode (t : GoType) : gen_tree string :=
  match t with
  | TScalar name => GenNode 0 [GenLeaf name]
  | TStruct pkg name => GenNode 1 [GenLeaf pkg; GenLeaf name]
  | TPtr elem => GenNode 2 [GoType_encode elem]
  | TSlice elem => GenNode 3 [GoType_encode elem]
  end.

Fixpoint GoType_decode (t : gen_tree string) : option GoType :=
  match t with
  | GenNode 0 [GenLeaf name] => Some (TScalar name)
  | GenNode 1 [GenLeaf pkg; GenLeaf name] => Some (TStruct pkg name)
  | GenNode 2 [elem] => TPtr <$> GoType_decode elem
  | GenNode 3 [elem] => TSlice <$> GoType_decode elem
  | _ => None
  end.

Global Instance GoType_countable : Countable GoType.
Proof.
  refine (inj_countable GoType_encode GoType_decode _).
  intros t. induction t as [| |t IH|t IH]; simpl; try done; by rewrite IH.
Defined.

Definition typeName (t : GoType) : string :=
  match t with
  | TScalar name | TStruct _ name => name
  | _ => EmptyString
  end.

Definition timeTime : GoType := TStruct "time" "Time".

(** A declared field as [reflect.StructField] shows it. *)
Record FieldDecl := {
  fieldName : string;
  fieldType : GoType;
  fieldAnonymous : bool;
  fieldExported : bool;            (* ast.IsExported(Name) *)
  sqlTag : string;                 (* Tag.Get("sql") *)
  gormTag : string                 (* Tag.Get("gorm") *)
}.

(** [reflect.New(T).MethodByName("TableName")] and a call without arguments. *)
Inductive TableNameMethod :=
| NoTableName
| TableNameWithArgs                      (* Call([]reflect.Value{}) panics *)
| TableNameResult (name : option string). (* results[0] when it is a string *)

Record StructDecl := {
  declFields : list FieldDecl;
  declTableName : TableNameMethod
}.

Record Relationship := {
  Kind : string;
  ForeignType : string;
  ForeignFieldName : string;
  ForeignDBName : string;
  AssociationForeignFieldName : string;
  AssociationForeignDBName : string;
  JoinTable : string
}.

Record StructField := {
  DBName : string;
  Name : string;
  Names : list string;
  IsPrimaryKey : bool;
  IsNormal : bool;
  IsIgnored : bool;
  IsScanner : bool;
  HasDefaultValue : bool;
  SqlTag : string;
  Struct : FieldDecl;              (* with its Tag *)
  IsForeignKey : bool;
  Relationship_ : option Relationship
}.

(** [PrimaryKeyField] points into [StructFields]: it is the index of that
    field. *)
Record ModelStruct := {
  PrimaryKeyField : option nat;
  StructFields : list StructField;
  TableName : string
}.

Definition emptyModelStruct : ModelStruct :=
  {| PrimaryKeyField := None; StructFields := []; TableName := EmptyString |}.

(** A field of a value as [scope.Fields()] yields it; in Go it embeds its
    [*StructField]. *)
Record Field := {
  structField : StructField;
  IsBlank : bool;
  FieldValue : Value               (* field.Field.Interface() *)
}.

(** ** The collaborators *)

(** The database the dialect and the executor talk to. Modelled from the
    spec: a catalogue of tables and their columns, which [TableExists] and
    [ColumnExists] look up. *)
Abbreviation Catalogue := (gmap string (gset string)).

Class Dialect := {
  BinVar : nat -> string;                  (* the marker of the n-th bound value *)
  Quote : string -> string;                (* identifier quoting *)
  HasTop : bool;
  DialectSqlTag : GoType -> Z -> string;   (* SqlTag(value, size), by the value's type *)
  PrimaryKeyTag : GoType -> Z -> string
}.

Definition HasTable (catalogue : Catalogue) (tableName : string) : bool :=
  bool_decide (is_Some (catalogue !! tableName)).

Definition HasColumn (catalogue : Catalogue) (tableName columnName : string) : bool :=
  match catalogue !! tableName with
  | Some columns => bool_decide (columnName ∈ columns)
  | None => false
  end.

(** What reflection and the tag parser answer about the program's types. *)
Class Program := {
  structDecl : GoType -> StructDecl;
  implementsScanner : GoType -> bool;     (* reflect.New(t).Interface().(sql.Scanner) *)
  hasFieldByName : GoType -> string -> bool;  (* FieldByName(name) finds a field *)
  parseTagSetting : string -> gmap string string
}.

(** State and failure: [None] is a panic, or fuel that ran out. *)
Definition ST (S A : Type) : Type := S -> option (A * S).

Global Instance ST_ret {S} : MRet (ST S) := fun A a s => Some (a, s).
Global Instance ST_bind {S} : MBind (ST S) := fun A B f m s =>
  match m s with
  | Some (a, s') => f a s'
  | None => None
  end.
Definition panic {S A} : ST S A := fun _ => None.

Fixpoint forM {S A B} (f : A -> ST S B) (l : list A) : ST S (list B) :=
  match l with
  | [] => mret []
  | a :: l' => b ← f a; bs ← forM f l'; mret (b :: bs)
  end.

Fixpoint foldM {S A B} (f : B -> A -> ST S B) (b : B) (l : list A) : ST S B :=
  match l with
  | [] => mret b
  | a :: l' => b' ← f b a; foldM f b' l'
  end.

(** ** The schema reflector ([model_struct.go]) *)

(** The part of [scope.db.parent] the reflector uses, and the store of
    descriptors: a [*ModelStruct] is an index into [heap]. *)
Record DB := {
  singularTable : bool;
  ModelStructs : gmap GoType nat
}.

Record Store := {
  heap : list ModelStruct;
  db : option DB
}.

Definition alloc (m : ModelStruct) : ST Store nat := fun st =>
  Some (length (heap st), {| heap := heap st ++ [m]; db := db st |}).

Definition deref (p : nat) : ST Store ModelStruct := fun st =>
  match heap st !! p with
  | Some m => Some (m, st)
  | None => None
  end.

Definition getDB : ST Store (option DB) := fun st => Some (db st, st).

(** [scope.db.parent.ModelStructs[scopeType] = &modelStruct] *)
Definition remember (scopeType : GoType) (p : nat) : ST Store unit := fun st =>
  Some (tt, {| heap := heap st;
               db := (fun d => {| singularTable := singularTable d;
                                  ModelStructs := <[scopeType := p]> (ModelStructs d) |})
                     <$> db st |}).

Definition setting (settings : gmap string string) (key : string) : string :=
  default EmptyString (settings !! key).

Definition hasSetting (settings : gmap string string) (key : string) : bool :=
  bool_decide (is_Some (settings !! key)).

Section Reflector.
Context `{Dialect} `{Program}.

(** [getScannerValue] of [generateSqlTag]: the type of the value the
    dialect is asked about. [Field(0)] panics on a struct without fields. *)
Fixpoint getScannerValue (fuel : nat) (t : GoType) : option GoType :=
  match fuel with
  | 0 => None
  | S fuel' =>
      match t with
      | TStruct _ _ =>
          if implementsScanner t then
            match declFields (structDecl t) with
            | first :: _ => getScannerValue fuel' (fieldType first)
            | [] => None
            end
          else Some t
      | _ => Some t
      end
  end.

(** [generateSqlTag] returns the field with its [SqlTag] set. *)
Definition generateSqlTag (fuel : nat) (field : StructField) : option StructField :=
  let sqlSettings := parseTagSetting (sqlTag (Struct field)) in
  let sqlType := setting sqlSettings "TYPE" in
  let additionalType :=
    setting sqlSettings "NOT NULL" +:+ " " +:+ setting sqlSettings "UNIQUE" in
  let additionalType :=
    match sqlSettings !! "DEFAULT" with
    | Some value => additionalType +:+ "DEFAULT " +:+ value
    | None => additionalType
    end in
  reflectValue ← (if IsScanner field
                   then getScannerValue fuel (fieldType (Struct field))
                   else Some (fieldType (Struct field)));
  let sqlType :=
    if String.eqb sqlType EmptyString then
      let size :=
        match sqlSettings !! "SIZE" with
        | Some value => Atoi value
        | None => 255%Z
        end in
      if IsPrimaryKey field then PrimaryKeyTag reflectValue size
      else DialectSqlTag reflectValue size
    else sqlType in
  Some {| DBName := DBName field; Name := Name field; Names := Names field;
          IsPrimaryKey := IsPrimaryKey field; IsNormal := IsNormal field;
          IsIgnored := IsIgnored field; IsScanner := IsScanner field;
          HasDefaultValue := HasDefaultValue field;
          SqlTag := if isBlankString additionalType then sqlType
                    else sqlType +:+ " " +:+ additionalType;
          Struct := Struct field; IsForeignKey := IsForeignKey field;
          Relationship_ := Relationship_ field |}.

(** The loop over [pluralMapKeys]: every key that matches rewrites the name,
    and the loop goes on with the rewritten name. *)
Fixpoint pluralize (index : nat) (keys : list Regexp) (tableName : string) : string :=
  match keys with
  | [] => tableName
  | reg :: rest =>
      pluralize (S index) rest
        (if MatchString reg tableName
         then ReplaceAllString reg tableName (default EmptyString (pluralMapValues !! index))
         else tableName)
  end.

(** "Set tablename": [singular] is [scope.db != nil && scope.db.parent.singularTable]. *)
Definition modelTableName (scopeType : GoType) (singular : bool) : option string :=
  match declTableName (structDecl scopeType) with
  | TableNameWithArgs => None
  | TableNameResult (Some name) => Some name
  | TableNameResult None => Some EmptyString
  | NoTableName =>
      let tableName := ToDBName (typeName scopeType) in
      Some (if singular then tableName else pluralize 0 pluralMapKeys tableName)
  end.

(** [scopeType]: the element type of a slice, then the target of a pointer. *)
Definition scopeTypeOf (t : GoType) : GoType :=
  let t := match t with TSlice elem => elem | _ => t end in
  match t with TPtr elem => elem | _ => t end.

Definition indirect (t : GoType) : GoType :=
  match t with TPtr elem => elem | _ => t end.

Definition setRelationship (field : StructField) (isNormal : bool)
    (relationship : option Relationship) : StructField :=
  {| DBName := DBName field; Name := Name field; Names := Names field;
     IsPrimaryKey := IsPrimaryKey field; IsNormal := isNormal;
     IsIgnored := IsIgnored field; IsScanner := IsScanner field;
     HasDefaultValue := HasDefaultValue field; SqlTag := SqlTag field;
     Struct := Struct field; IsForeignKey := IsForeignKey field;
     Relationship_ := relationship |}.

(** [field.clone()] with [Names] prefixed by the embedding field's name. *)
Definition embed (fieldStruct : FieldDecl) (field : StructField) : StructField :=
  {| DBName := DBName field; Name := Name field;
     Names := fieldName fieldStruct :: Names field;
     IsPrimaryKey := IsPrimaryKey field; IsNormal := IsNormal field;
     IsIgnored := IsIgnored field; IsScanner := IsScanner field;
     HasDefaultValue := HasDefaultValue field; SqlTag := SqlTag field;
     Struct := Struct field; IsForeignKey := IsForeignKey field;
     Relationship_ := Relationship_ field |}.

(** The body of the loop "Set fields" for one exported field: the fields it
    appends to [modelStruct.StructFields] (those of an embedded struct, then
    the field itself) and whether the field is tagged as the primary key.
    [nested t] is [scope.New(reflect.New(t).Interface()).GetStructFields()]. *)
Definition reflectField (nested : GoType -> ST Store (list StructField))
    (scopeType : GoType) (fieldStruct : FieldDecl) : ST Store (list StructField * bool) :=
  let field (dbName : string) (pk normal ignored scanner hasDefault : bool) :=
    {| DBName := dbName; Name := fieldName fieldStruct;
       Names := [fieldName fieldStruct];
       IsPrimaryKey := pk; IsNormal := normal; IsIgnored := ignored;
       IsScanner := scanner; HasDefaultValue := hasDefault;
       SqlTag := EmptyString; Struct := fieldStruct; IsForeignKey := false;
       Relationship_ := None |} in
  if String.eqb (sqlTag fieldStruct) "-" then
    mret ([field EmptyString false false true false false], false)
  else
    let sqlSettings := parseTagSetting (sqlTag fieldStruct) in
    let gormSettings := parseTagSetting (gormTag fieldStruct) in
    let pk := hasSetting gormSettings "PRIMARY_KEY" in
    let dbName :=
      match gormSettings !! "COLUMN" with
      | Some value => value
      | None => ToDBName (fieldName fieldStruct)
      end in
    let fieldType := fieldType fieldStruct in
    let indirectType := indirect fieldType in
    let isScanner := implementsScanner fieldType in
    let isNormal := isScanner || bool_decide (indirectType = timeTime) in
    let field := field dbName pk isNormal false isScanner (hasSetting sqlSettings "DEFAULT") in
    let many2many := setting gormSettings "MANY2MANY" in
    let polymorphic := setting gormSettings "POLYMORPHIC" in
    let foreignKey :=
      if String.eqb polymorphic EmptyString then setting gormSettings "FOREIGNKEY"
      else polymorphic +:+ "Id" in
    let foreignType :=
      if String.eqb polymorphic EmptyString then setting gormSettings "FOREIGNTYPE"
      else polymorphic +:+ "Type" in
    let associationForeignKey := setting gormSettings "ASSOCIATIONFOREIGNKEY" in
    if isNormal then mret ([field], pk)
    else
      match indirectType with
      | TSlice elem =>
          let typ := indirect elem in
          match typ with
          | TStruct _ _ =>
              let foreignKey :=
                if String.eqb foreignKey EmptyString then typeName scopeType +:+ "Id"
                else foreignKey in
              let associationForeignKey :=
                if String.eqb associationForeignKey EmptyString then typeName typ +:+ "Id"
                else associationForeignKey in
              let many := negb (String.eqb many2many EmptyString) in
              let kind := if many then "many_to_many" else "has_many" in
              let foreignKey :=
                if many then foreignKey
                else if hasFieldByName typ foreignKey then foreignKey
                else EmptyString in
              mret ([setRelationship field false
                       (Some {| JoinTable := many2many;
                                ForeignType := foreignType;
                                ForeignFieldName := foreignKey;
                                AssociationForeignFieldName := associationForeignKey;
                                ForeignDBName := ToDBName foreignKey;
                                AssociationForeignDBName := ToDBName associationForeignKey;
                                Kind := kind |})], pk)
          | _ => mret ([setRelationship field true None], pk)
          end
      | TStruct _ _ =>
          if hasSetting gormSettings "EMBEDDED" || fieldAnonymous fieldStruct then
            fields ← nested indirectType;
            mret (map (embed fieldStruct) fields ++ [field], pk)
          else
            let belongsToForeignKey :=
              if String.eqb foreignKey EmptyString then fieldName fieldStruct +:+ "Id"
              else foreignKey in
            let hasOneForeignKey :=
              if String.eqb foreignKey EmptyString then typeName scopeType +:+ "Id"
              else foreignKey in
            let belongsTo := hasFieldByName scopeType belongsToForeignKey in
            let foreignKey := if belongsTo then belongsToForeignKey else hasOneForeignKey in
            let kind := if belongsTo then "belongs_to" else "has_one" in
            mret ([setRelationship field false
                     (Some {| ForeignFieldName := foreignKey;
                              ForeignDBName := ToDBName foreignKey;
                              ForeignType := foreignType;
                              Kind := kind;
                              AssociationForeignFieldName := EmptyString;
                              AssociationForeignDBName := EmptyString;
                              JoinTable := EmptyString |})], pk)
      | _ => mret ([setRelationship field true None], pk)
      end.

(** The loop "Set fields": the fields so far and the primary-key index. *)
Fixpoint reflectFields (nested : GoType -> ST Store (list StructField))
    (scopeType : GoType) (decls : list FieldDecl)
    (fields : list StructField) (primaryKey : option nat)
    : ST Store (list StructField * option nat) :=
  match decls with
  | [] => mret (fields, primaryKey)
  | fieldStruct :: rest =>
      if fieldExported fieldStruct then
        '(appended, pk) ← reflectField nested scopeType fieldStruct;
        let fields' := fields ++ appended in
        reflectFields nested scopeType rest fields'
          (if (pk : bool) then Some (length fields' - 1) else primaryKey)
      else reflectFields nested scopeType rest fields primaryKey
  end.

Definition markPrimaryKey (field : StructField) : StructField :=
  {| DBName := DBName field; Name := Name field; Names := Names field;
     IsPrimaryKey := true; IsNormal := IsNormal field;
     IsIgnored := IsIgnored field; IsScanner := IsScanner field;
     HasDefaultValue := HasDefaultValue field; SqlTag := SqlTag field;
     Struct := Struct field; IsForeignKey := IsForeignKey field;
     Relationship_ := Relationship_ field |}.

(** The last loop of [GetModelStruct]: the fall-back primary key named
    [id], and the SQL tags when there is a database handle. [index] is the
    position of the head of [fields] in [modelStruct.StructFields]. *)
Fixpoint finishFields (fuel : nat) (hasDB : bool) (index : nat)
    (fields : list StructField) (primaryKey : option nat)
    : option (list StructField * option nat) :=
  match fields with
  | [] => Some ([], primaryKey)
  | field :: rest =>
      if IsNormal field then
        let fallback :=
          bool_decide (primaryKey = None) && String.eqb (DBName field) "id" in
        let field := if fallback then markPrimaryKey field else field in
        let primaryKey := if fallback then Some index else primaryKey in
        field ← (if hasDB then generateSqlTag fuel field else Some field);
        '(rest', primaryKey') ← finishFields fuel hasDB (S index) rest primaryKey;
        Some (field :: rest', primaryKey')
      else
        '(rest', primaryKey') ← finishFields fuel hasDB (S index) rest primaryKey;
        Some (field :: rest', primaryKey')
  end.

Definition liftOption {S A} (o : option A) : ST S A := fun s =>
  match o with
  | Some a => Some (a, s)
  | None => None
  end.

(** [GetModelStruct] for a scope whose [reflect.Indirect(reflect.ValueOf(scope.Value))]
    has type [value], or is invalid ([None]). The result is the returned
    pointer. *)
Fixpoint GetModelStruct (fuel : nat) (value : option GoType) : ST Store nat :=
  match fuel with
  | 0 => panic
  | S fuel' =>
      match value with
      | None => alloc emptyModelStruct
      | Some t =>
          let scopeType := scopeTypeOf t in
          database ← getDB;
          match database ≫= (fun d => ModelStructs d !! scopeType) with
          | Some p => mret p
          | None =>
              match scopeType with
              | TStruct _ _ =>
                  let singular :=
                    match database with
                    | Some d => singularTable d
                    | None => false
                    end in
                  tableName ← liftOption (modelTableName scopeType singular);
                  '(fields, primaryKey) ←
                    reflectFields
                      (fun t => p ← GetModelStruct fuel' (Some t);
                                m ← deref p;
                                mret (StructFields m))
                      scopeType (declFields (structDecl scopeType)) [] None;
                  '(fields, primaryKey) ←
                    liftOption (finishFields fuel' (bool_decide (is_Some database)) 0
                                  fields primaryKey);
                  p ← alloc {| PrimaryKeyField := primaryKey;
                               StructFields := fields;
                               TableName := tableName |};
                  _ ← remember scopeType p;
                  mret p
              | _ => alloc emptyModelStruct
              end
          end
      end
  end.

Definition GetStructFields (fuel : nat) (value : option GoType) : ST Store (list StructField) :=
  p ← GetModelStruct fuel value;
  m ← deref p;
  mret (StructFields m).

End Reflector.

(** ** The scope *)

Record search := {
  WhereConditions : list Clause;
  OrConditions : list Clause;
  NotConditions : list Clause;
  Unscope : bool
}.

(** What the clause compiler and the migrations read from their scope: the
    results of the scope's accessors for its value, and [NewFields value],
    the sequence [scope.New(value).Fields()] ranges over. *)
Record Scope := {
  PrimaryKey : string;                       (* scope.PrimaryKey() *)
  scopeTableName : string;                   (* scope.TableName() *)
  QuotedTableName : string;
  PrimaryKeyZero : bool;
  PrimaryKeyValue : Value;
  scopePrimaryKeyField : option Field;       (* scope.PrimaryKeyField() *)
  Fields : gmap string Field;
  scopeStructFields : list StructField;      (* scope.GetStructFields() *)
  NewFields : Value -> list Field;
  Search : search
}.

(** ** The clause compiler ([scope_private.go]) *)

Section Compiler.
Context `{Dialect}.

(** Modelled from the spec: [AddToVars] (in scope.go, which is absent)
    appends the value to the accumulated bound-value list and returns the
    dialect's positional marker for it. *)
Definition AddToVars (value : Value) : ST (list Value) string := fun vars =>
  let vars' := vars ++ [value] in
  Some (BinVar (length vars'), vars').

Definition primaryCondition (scope : Scope) (value : string) : string :=
  "(" +:+ Quote (PrimaryKey scope) +:+ " = " +:+ value +:+ ")".

(** The inner loop over a slice argument, and the joined [tempMarks]. *)
Definition sliceMarks (values : list Value) : ST (list Value) string :=
  tempMarks ← forM AddToVars values;
  mret (Join tempMarks ",").

(** One iteration of [for _, arg := range args] in [buildWhereCondition].
    [reflect.TypeOf(arg).Kind()] is a method call on a nil [reflect.Type]
    when [arg] is the nil interface. *)
Definition whereArg (str : string) (arg : Value) : ST (list Value) string :=
  match arg with
  | VNil => panic
  | VSlice _ values =>
      marks ← sliceMarks values;
      mret (ReplaceFirst str qmark marks)
  | _ =>
      mark ← AddToVars (valuerValue arg);
      mret (ReplaceFirst str qmark mark)
  end.

(** [args := clause["args"].([]interface{})] and the loop after it. *)
Definition whereArgs (str : string) (clause : Clause) : ST (list Value) (string * Clause) :=
  match clause !! "args" with
  | Some (VSlice SIfaces args) =>
      str' ← foldM whereArg str args;
      mret (str', clause)
  | _ => panic
  end.

(** The loops of the mapping and struct cases; [op] is [" = "] or [" <> "]. *)
Fixpoint mapSqls (op : string) (entries : list (string * Value)) : ST (list Value) (list string) :=
  match entries with
  | [] => mret []
  | (key, value) :: rest =>
      mark ← AddToVars value;
      sqls ← mapSqls op rest;
      mret (("(" +:+ Quote key +:+ op +:+ mark +:+ ")") :: sqls)
  end.

Fixpoint fieldSqls (op : string) (fields : list Field) : ST (list Value) (list string) :=
  match fields with
  | [] => mret []
  | field :: rest =>
      if IsBlank field then fieldSqls op rest
      else
        mark ← AddToVars (FieldValue field);
        sqls ← fieldSqls op rest;
        mret (("(" +:+ Quote (DBName (structField field)) +:+ op +:+ mark +:+ ")") :: sqls)
  end.

(** [buildWhereCondition] returns the condition and the clause map as the
    call leaves it (the slice case stores its query under "args"). *)
Definition buildWhereCondition (scope : Scope) (clause : Clause) : ST (list Value) (string * Clause) :=
  match clause !! "query" with
  | Some (VString value) =>
      if isNumber value then
        mark ← AddToVars (VInt (Atoi value));
        mret (primaryCondition scope mark, clause)
      else if bool_decide (value ≠ EmptyString) then
        whereArgs ("(" +:+ value +:+ ")") clause
      else whereArgs EmptyString clause
  | Some (VInt _ as value) | Some (VNullInt64 _ _ as value) =>
      mark ← AddToVars value;
      mret (primaryCondition scope mark, clause)
  | Some (VSlice ty _ as value) =>
      match ty with
      | SInts | SStrings | SIfaces =>
          whereArgs ("(" +:+ Quote (PrimaryKey scope) +:+ " in (?))")
                    (<["args" := VSlice SIfaces [value]]> clause)
      | SOthers =>
          sqls ← fieldSqls " = " (NewFields scope value);
          mret (Join sqls " AND ", clause)
      end
  | Some (VMap entries) =>
      sqls ← mapSqls " = " entries;
      mret (Join sqls " AND ", clause)
  | Some (VStruct _ _ _ as value) =>
      sqls ← fieldSqls " = " (NewFields scope value);
      mret (Join sqls " AND ", clause)
  | Some VNil | None => whereArgs EmptyString clause
  end.

(** One iteration of the argument loop of [buildNotCondition]: a slice is
    substituted into [str], anything else into [notEqualSql]. *)
Definition notArg (notEqualSql : string) (str : string) (arg : Value) : ST (list Value) string :=
  match arg with
  | VNil => panic
  | VSlice _ values =>
      marks ← sliceMarks values;
      mret (ReplaceFirst str qmark marks)
  | _ =>
      mark ← AddToVars (valuerValue arg);
      mret (ReplaceFirst notEqualSql qmark mark)
  end.

Definition notArgs (notEqualSql str : string) (clause : Clause) : ST (list Value) (string * Clause) :=
  match clause !! "args" with
  | Some (VSlice SIfaces args) =>
      str' ← foldM (notArg notEqualSql) str args;
      mret (str', clause)
  | _ => panic
  end.

Definition buildNotCondition (scope : Scope) (clause : Clause) : ST (list Value) (string * Clause) :=
  let primaryKey := PrimaryKey scope in
  match clause !! "query" with
  | Some (VString value) =>
      if isNumber value then
        mret ("(" +:+ Quote primaryKey +:+ " <> " +:+ pretty (Atoi value) +:+ ")", clause)
      else if hasOperator value then
        notArgs ("NOT (" +:+ value +:+ ")") (" NOT (" +:+ value +:+ ") ") clause
      else
        notArgs ("(" +:+ Quote value +:+ " <> ?)")
                ("(" +:+ Quote value +:+ " NOT IN (?))") clause
  | Some (VInt _ as value) | Some (VNullInt64 _ _ as value) =>
      mret ("(" +:+ Quote primaryKey +:+ " <> " +:+ showScalar value +:+ ")", clause)
  | Some (VSlice ty elems as value) =>
      match ty with
      | SInts | SStrings =>
          if 0 <? length elems then
            (* str and clause["args"] are set, then the empty string is returned *)
            mret (EmptyString, <["args" := VSlice SIfaces [value]]> clause)
          else mret (EmptyString, clause)
      | SIfaces | SOthers =>
          sqls ← fieldSqls " <> " (NewFields scope value);
          mret (Join sqls " AND ", clause)
      end
  | Some (VMap entries) =>
      sqls ← mapSqls " <> " entries;
      mret (Join sqls " AND ", clause)
  | Some (VStruct _ _ _ as value) =>
      sqls ← fieldSqls " <> " (NewFields scope value);
      mret (Join sqls " AND ", clause)
  | Some VNil | None => notArgs EmptyString EmptyString clause
  end.

(** The three loops of [whereSql]: the non-empty conditions, in order, and
    the clause maps as the builder leaves them. *)
Fixpoint compileClauses (build : Clause -> ST (list Value) (string * Clause))
    (clauses : list Clause) : ST (list Value) (list string * list Clause) :=
  match clauses with
  | [] => mret ([], [])
  | clause :: rest =>
      '(sql, clause') ← build clause;
      '(sqls, rest') ← compileClauses build rest;
      mret (if bool_decide (sql ≠ EmptyString) then sql :: sqls else sqls,
            clause' :: rest')
  end.

Definition softDeleteSql (scope : Scope) : string :=
  "(" +:+ QuotedTableName scope +:+ ".deleted_at IS NULL OR " +:+
  QuotedTableName scope +:+ ".deleted_at <= '0001-01-02')".

(** The first [if] of [whereSql]. *)
Definition softDeleteConditions (scope : Scope) : list string :=
  if negb (Unscope (Search scope)) && bool_decide (is_Some (Fields scope !! "deleted_at"))
  then [softDeleteSql scope] else [].

(** The second [if] of [whereSql]. *)
Definition primaryKeyConditions (scope : Scope) : ST (list Value) (list string) :=
  if negb (PrimaryKeyZero scope) then
    mark ← AddToVars (PrimaryKeyValue scope);
    mret [primaryCondition scope mark]
  else mret [].

(** The text assembly at the end of [whereSql]: [combinedSql], then [sql]. *)
Definition combineConditions (andConditions orConditions : list string) : string :=
  let orSql := Join orConditions " OR " in
  let combinedSql := Join andConditions " AND " in
  if 0 <? String.length combinedSql then
    if 0 <? String.length orSql then combinedSql +:+ " OR " +:+ orSql
    else combinedSql
  else orSql.

Definition assembleWhere (primaryConditions andConditions orConditions : list string) : string :=
  let combinedSql := combineConditions andConditions orConditions in
  if 0 <? length primaryConditions then
    let sql := "WHERE " +:+ Join primaryConditions " AND " in
    if 0 <? String.length combinedSql then sql +:+ " AND (" +:+ combinedSql +:+ ")"
    else sql
  else if 0 <? String.length combinedSql then "WHERE " +:+ combinedSql
  else EmptyString.

Definition whereSql (scope : Scope) : ST (list Value) (string * search) :=
  let s := Search scope in
  pk ← primaryKeyConditions scope;
  let primaryConditions := softDeleteConditions scope ++ pk in
  '(whereSqls, wheres) ← compileClauses (buildWhereCondition scope) (WhereConditions s);
  '(orConditions, ors) ← compileClauses (buildWhereCondition scope) (OrConditions s);
  '(notSqls, nots) ← compileClauses (buildNotCondition scope) (NotConditions s);
  let andConditions := whereSqls ++ notSqls in
  mret (assembleWhere primaryConditions andConditions orConditions,
        {| WhereConditions := wheres; OrConditions := ors;
           NotConditions := nots; Unscope := Unscope s |}).

End Compiler.

(** ** Migrations ([scope_private.go]) *)

(** The statements handed to the executor, in order, and the catalogue. *)
Record Database := {
  executed : list string;
  catalogue : Catalogue
}.

(** Modelled from the spec: [scope.Raw(sql).Exec()] (scope.go, which is
    absent) emits one statement per call to the executor. The statement is
    taken to succeed, and [effect] is what it does to the catalogue. *)
Definition Exec (sql : string) (effect : Catalogue -> Catalogue) : ST Database unit :=
  fun d => Some (tt, {| executed := executed d ++ [sql];
                        catalogue := effect (catalogue d) |}).

Definition getCatalogue : ST Database Catalogue := fun d => Some (catalogue d, d).

Definition createTableEffect (tableName : string) (columns : list string)
    (c : Catalogue) : Catalogue :=
  match c !! tableName with
  | Some _ => c
  | None => <[tableName := list_to_set columns]> c
  end.

Definition addColumnEffect (tableName column : string) (c : Catalogue) : Catalogue :=
  match c !! tableName with
  | Some columns => <[tableName := columns ∪ {[column]}]> c
  | None => c
  end.

Section Migration.
Context `{Dialect}.

Definition createJoinTable (scope : Scope) (field : StructField) : ST Database unit :=
  match Relationship_ field with
  | Some relationship =>
      if negb (String.eqb (JoinTable relationship) EmptyString) then
        c ← getCatalogue;
        if negb (HasTable c (JoinTable relationship)) then
          match scopePrimaryKeyField scope with
          | None => panic
          | Some primaryKeyField =>
              let primaryKeySqlType :=
                DialectSqlTag (fieldType (Struct (structField primaryKeyField))) 255 in
              Exec ("CREATE TABLE " +:+ JoinTable relationship +:+ " (" +:+
                    Join [Quote (ForeignDBName relationship) +:+ " " +:+ primaryKeySqlType;
                          Quote (AssociationForeignDBName relationship) +:+ " " +:+
                            primaryKeySqlType] "," +:+ ")")
                   (createTableEffect (JoinTable relationship)
                      [ForeignDBName relationship; AssociationForeignDBName relationship])
          end
        else mret tt
      else mret tt
  | None => mret tt
  end.

(** The loop of [createTable]: the column definitions collected in [sqls]. *)
Fixpoint createTableColumns (scope : Scope) (fields : list StructField)
    : ST Database (list string) :=
  match fields with
  | [] => mret []
  | structField :: rest =>
      _ ← createJoinTable scope structField;
      sqls ← createTableColumns scope rest;
      mret (if IsNormal structField
            then (Quote (DBName structField) +:+ " " +:+ SqlTag structField) :: sqls
            else sqls)
  end.

Definition createTable (scope : Scope) : ST Database unit :=
  sqls ← createTableColumns scope (scopeStructFields scope);
  Exec ("CREATE TABLE " +:+ QuotedTableName scope +:+ " (" +:+ Join sqls "," +:+ ")")
       (createTableEffect (scopeTableName scope)
          (map DBName (filter (fun f => IsNormal f = true) (scopeStructFields scope)))).

(** The loop of [autoMigrate] over the fields of an existing table. *)
Fixpoint addMissingColumns (scope : Scope) (fields : list StructField) : ST Database unit :=
  match fields with
  | [] => mret tt
  | field :: rest =>
      c ← getCatalogue;
      _ ← (if negb (HasColumn c (scopeTableName scope) (DBName field)) && IsNormal field
           then Exec ("ALTER TABLE " +:+ QuotedTableName scope +:+ " ADD " +:+
                      DBName field +:+ " " +:+ SqlTag field +:+ ";")
                     (addColumnEffect (scopeTableName scope) (DBName field))
           else mret tt);
      _ ← createJoinTable scope field;
      addMissingColumns scope rest
  end.

Definition autoMigrate (scope : Scope) : ST Database unit :=
  c ← getCatalogue;
  if negb (HasTable c (scopeTableName scope)) then createTable scope
  else addMissingColumns scope (scopeStructFields scope).

End Migration.

(** How many of the executed statements start with a given keyword pair. *)
Definition HasPrefix (s prefix : string) : bool :=
  match dropPrefix prefix s with
  | Some _ => true
  | None => false
  end.

Definition countStatements (keyword : string) (statements : list string) : nat :=
  length (filter (fun sql => HasPrefix sql keyword = true) statements).

(** * Definitions for the statements

    What the theorems below are stated with: the renderings the spec
    words, the order of markers in a text, well-formed clauses, and the
    shape of the reflector's computations. *)

(** A text without the placeholder [?]. *)
Definition noQ (s : string) : Prop := countByte qmark s = 0.

(** The text and the bound values of a compiled clause. *)
Definition rendered {A B} (r : option ((string * A) * B)) : option (string * B) :=
  (fun x => (fst (fst x), snd x)) <$> r.







(** The text after the first occurrence of [m] in [s]. *)
Fixpoint afterFirst (m s : string) : option string :=
  match dropPrefix m s with
  | Some rest => Some rest
  | None =>
      match s with
      | EmptyString => None
      | String _ s' => afterFirst m s'
      end
  end.

(** A plain column without a join table. *)
Definition plainColumn (field : StructField) : bool :=
  IsNormal field &&
  match Relationship_ field with
  | Some relationship => String.eqb (JoinTable relationship) EmptyString
  | None => true
  end.

(** The fields [autoMigrate] adds a column for, given the columns the table
    has: a field whose column is there, or was added for an earlier field,
    adds nothing. *)
Fixpoint alterations (columns : gset string) (fields : list StructField)
    : list StructField :=
  match fields with
  | [] => []
  | field :: rest =>
      if bool_decide (DBName field ∈ columns) || negb (IsNormal field)
      then alterations columns rest
      else field :: alterations (columns ∪ {[DBName field]}) rest
  end.

(** The statement [autoMigrate] executes for a field whose column is
    missing. *)
Definition alterSql (scope : Scope) (field : StructField) : string :=
  "ALTER TABLE " +:+ QuotedTableName scope +:+ " ADD " +:+
  DBName field +:+ " " +:+ SqlTag field +:+ ";".

(** Every computation of the reflector keeps the presence of the database
    handle. *)
Definition keepsDB {A} (c : ST Store A) : Prop :=
  forall st a st', c st = Some (a, st') -> (is_Some (db st') <-> is_Some (db st)).

(** [c2] returns whatever [c1] returns. *)
Definition leST {A} (c1 c2 : ST Store A) : Prop :=
  forall st r, c1 st = Some r -> c2 st = Some r.

(** Without a database handle a computation of the reflector does the same
    on every store: it returns a value and appends descriptors. *)
Definition Pure {A} (c : ST Store A) : Prop :=
  exists r : option (A * list ModelStruct),
    forall st, db st = None ->
      c st = match r with
             | Some (a, l) => Some (a, {| heap := heap st ++ l; db := None |})
             | None => None
             end.

(** The same for a computation that returns the descriptor it allocated
    last. *)
Definition PureAlloc (c : ST Store nat) : Prop :=
  exists r : option (list ModelStruct * ModelStruct),
    forall st, db st = None ->
      c st = match r with
             | Some (l, m) =>
                 Some (length (heap st ++ l),
                       {| heap := heap st ++ l ++ [m]; db := None |})
             | None => None
             end.

Section Statements.
Context `{Dialect} `{Program}.

(** The markers of the [k] values bound after the first [n]. *)
Definition markers (n k : nat) : list string := map BinVar (seq (S n) k).

(** The equalities of a mapping clause, as the code renders them: one
    parenthesized comparison per key, numbered from the bound values so
    far. *)
Fixpoint mapConditions (op : string) (n : nat) (entries : list (string * Value)) : list string :=
  match entries with
  | [] => []
  | (key, _) :: rest =>
      ("(" +:+ Quote key +:+ op +:+ BinVar (S n) +:+ ")") :: mapConditions op (S n) rest
  end.

(** The rendering the spec words for a mapping clause: the equalities
    joined by AND inside one pair of parentheses. *)
Fixpoint claimedEqualities (n : nat) (entries : list (string * Value)) : list string :=
  match entries with
  | [] => []
  | (key, _) :: rest =>
      (Quote key +:+ " = " +:+ BinVar (S n)) :: claimedEqualities (S n) rest
  end.

Definition claimedMapSql (n : nat) (entries : list (string * Value)) : string :=
  "(" +:+ Join (claimedEqualities n entries) " AND " +:+ ")".


(** [Marked n m s]: the markers of the bound values [n+1], ..., [m] occur
    in [s] from left to right, in this order. *)
Inductive Marked : nat -> nat -> string -> Prop :=
| Marked_done n s : Marked n n s
| Marked_next n m pre rest :
    Marked (S n) m rest -> Marked n m (pre +:+ BinVar (S n) +:+ rest).

(** The same, decided: each marker is looked for after the first occurrence
    of the one before. *)
Fixpoint markedb (k n : nat) (s : string) : bool :=
  match k with
  | 0 => true
  | S k' =>
      match afterFirst (BinVar (S n)) s with
      | Some rest => markedb k' (S n) rest
      | None => false
      end
  end.


(** What [scope.New(reflect.New(t).Interface()).GetStructFields()] is in
    [GetModelStruct] with fuel [S fuel]. *)
Definition nestedFields (fuel : nat) (t : GoType) : ST Store (list StructField) :=
  p ← GetModelStruct fuel (Some t);
  m ← deref p;
  mret (StructFields m).

(** The computation of a descriptor that is not in the cache. *)
Definition describe (fuel : nat) (scopeType : GoType) (database : option DB)
    : ST Store nat :=
  tableName ← liftOption
    (modelTableName scopeType
       (match database with Some d => singularTable d | None => false end));
  '(fields, primaryKey) ←
    reflectFields (nestedFields fuel) scopeType
      (declFields (structDecl scopeType)) [] None;
  '(fields, primaryKey) ←
    liftOption (finishFields fuel (bool_decide (is_Some database)) 0 fields primaryKey);
  p ← alloc {| PrimaryKeyField := primaryKey; StructFields := fields;
               TableName := tableName |};
  _ ← remember scopeType p;
  mret p.

End Statements.

(** ** A dialect and a program to run the model on *)

(** Numbered markers and double-quoted identifiers, as in the spec's
    examples. *)
Definition exampleSqlTag (t : GoType) (size : Z) : string :=
  match t with
  | TScalar "string" => "varchar(" +:+ pretty size +:+ ")"
  | TScalar "int" | TScalar "int64" => "bigint"
  | TStruct "time" "Time" => "timestamp"
  | _ => "text"
  end.

Definition exampleDialect : Dialect := {|
  BinVar n := "$" +:+ pretty n;
  Quote key := dquote +:+ key +:+ dquote;
  HasTop := false;
  DialectSqlTag := exampleSqlTag;
  PrimaryKeyTag t size := "bigserial PRIMARY KEY"
|}.

Definition plainField (name type : string) : FieldDecl :=
  {| fieldName := name; fieldType := TScalar type; fieldAnonymous := false;
     fieldExported := true; sqlTag := EmptyString; gormTag := EmptyString |}.

Definition Model : GoType := TStruct "main" "Model".
Definition Category : GoType := TStruct "main" "Category".
Definition Address : GoType := TStruct "main" "Address".
Definition Day : GoType := TStruct "main" "Day".
Definition Node : GoType := TStruct "main" "Node".

(** [Model] holds an [Id]; [Category] embeds [Model]; [Node] embeds a
    pointer to itself. *)
Definition exampleDecl (t : GoType) : StructDecl :=
  match t with
  | TStruct "main" "Model" =>
      {| declFields := [plainField "Id" "int64";
                        {| fieldName := "DeletedAt"; fieldType := timeTime;
                           fieldAnonymous := false; fieldExported := true;
                           sqlTag := EmptyString; gormTag := EmptyString |}];
         declTableName := NoTableName |}
  | TStruct "main" "Category" =>
      {| declFields := [{| fieldName := "Model"; fieldType := Model;
                           fieldAnonymous := true; fieldExported := true;
                           sqlTag := EmptyString; gormTag := EmptyString |};
                        plainField "Name" "string";
                        {| fieldName := "note"; fieldType := TScalar "string";
                           fieldAnonymous := false; fieldExported := false;
                           sqlTag := EmptyString; gormTag := EmptyString |}];
         declTableName := NoTableName |}
  | TStruct "main" "Address" =>
      {| declFields := [plainField "Id" "int64"; plainField "Street" "string"];
         declTableName := NoTableName |}
  | TStruct "main" "Day" =>
      {| declFields := [plainField "Id" "int64"];
         declTableName := NoTableName |}
  | TStruct "main" "Node" =>
      {| declFields := [{| fieldName := "Node"; fieldType := TPtr Node;
                           fieldAnonymous := true; fieldExported := true;
                           sqlTag := EmptyString; gormTag := EmptyString |}];
         declTableName := NoTableName |}
  | _ => {| declFields := []; declTableName := NoTableName |}
  end.

Definition exampleProgram : Program := {|
  structDecl := exampleDecl;
  implementsScanner t := false;
  hasFieldByName t name :=
    bool_decide (name ∈ map fieldName (declFields (exampleDecl t)));
  parseTagSetting tag := ∅
|}.

Definition emptyStore (database : option DB) : Store :=
  {| heap := []; db := database |}.

Definition emptyDB : DB := {| singularTable := false; ModelStructs := ∅ |}.

Definition emptySearch : search :=
  {| WhereConditions := []; OrConditions := []; NotConditions := [];
     Unscope := false |}.

(** A scope on a table [users] with primary key [id] and no soft delete. *)
Definition exampleScope (s : search) : Scope := {|
  PrimaryKey := "id";
  scopeTableName := "users";
  QuotedTableName := dquote +:+ "users" +:+ dquote;
  PrimaryKeyZero := true;
  PrimaryKeyValue := VInt 0;
  scopePrimaryKeyField := None;
  Fields := ∅;
  scopeStructFields := [];
  NewFields := fun _ => [];
  Search := s
|}.

(** The clause a call [Where(query, args...)] stores. *)
Definition clauseOf (query : Value) (args : list Value) : Clause :=
  <["query" := query]> (<["args" := VSlice SIfaces args]> ∅).



(** A table [users] with the columns [id] and [name], and a scope that
    declares [id], [name], [email] and [age]. *)
Definition exampleColumn (name tag : string) : StructField := {|
  DBName := name; Name := name; Names := [name];
  IsPrimaryKey := false; IsNormal := true; IsIgnored := false;
  IsScanner := false; HasDefaultValue := false; SqlTag := tag;
  Struct := plainField name "string"; IsForeignKey := false;
  Relationship_ := None
|}.

Definition migrationScope : Scope := {|
  PrimaryKey := "id";
  scopeTableName := "users";
  QuotedTableName := dquote +:+ "users" +:+ dquote;
  PrimaryKeyZero := true;
  PrimaryKeyValue := VInt 0;
  scopePrimaryKeyField := None;
  Fields := ∅;
  scopeStructFields := [exampleColumn "id" "bigint"; exampleColumn "name" "text";
                        exampleColumn "email" "text"; exampleColumn "age" "bigint"];
  NewFields := fun _ => [];
  Search := emptySearch
|}.

Definition usersDatabase : Database := {|
  executed := [];
  catalogue := {["users" := {["id"; "name"]}]}
|}.

Definition emptyDatabase : Database := {| executed := []; catalogue := ∅ |}.

(** ** The query builders ([scope_private.go]) *)

(** The fields of [scope.Search] the query builders read besides the
    condition lists; a nil [HavingCondition] is [None]. *)
Record searchQuery := {
  Selects : list Clause;
  Orders : list string;
  Limit : string;
  Offset : string;
  Group : string;
  HavingCondition : option Clause;
  Joins : string;
  Raw : bool
}.

(** [strings.TrimPrefix] and [strings.TrimSuffix]. *)
Definition TrimPrefix (s prefix : string) : string :=
  match dropPrefix prefix s with
  | Some rest => rest
  | None => s
  end.

Definition TrimSuffix (s suffix : string) : string :=
  if hasSuffix s suffix then trimSuffix s suffix else s.

(** The strings of a [[]string]. *)
Definition stringOf (value : Value) : string :=
  match value with
  | VString s => s
  | _ => EmptyString
  end.

Section Queries.
Context `{Dialect}.

(** [fmt.Sprintf("%v", arg)] depends on the dynamic type of [arg] and on
    its methods: it is a parameter of [buildSelectQuery]. *)
Variable Sprint : Value -> string.

(** One iteration of the argument loop of [buildSelectQuery]: a slice is
    bound element by element, anything else is written into the text,
    quoted by the dialect. *)
Definition selectArg (str : string) (arg : Value) : ST (list Value) string :=
  match arg with
  | VNil => panic
  | VSlice _ values =>
      marks ← sliceMarks values;
      mret (ReplaceFirst str qmark marks)
  | _ => mret (ReplaceFirst str qmark (Quote (Sprint (valuerValue arg))))
  end.

Definition buildSelectQuery (clause : Clause) : ST (list Value) string :=
  let str :=
    match clause !! "query" with
    | Some (VString value) => value
    | Some (VSlice SStrings value) => Join (map stringOf value) ", "
    | _ => EmptyString
    end in
  match clause !! "args" with
  | Some (VSlice SIfaces args) => foldM selectArg str args
  | _ => panic
  end.

Definition selectSql (q : searchQuery) : ST (list Value) string :=
  if length (Selects q) =? 0 then mret "*"
  else
    selectQueries ← forM buildSelectQuery (Selects q);
    mret (Join selectQueries ", ").

Definition orderSql (q : searchQuery) : string :=
  if length (Orders q) =? 0 then EmptyString
  else " ORDER BY " +:+ Join (Orders q) ",".

Definition limitSql (q : searchQuery) : string :=
  if negb HasTop then
    if String.length (Limit q) =? 0 then EmptyString
    else " LIMIT " +:+ Limit q
  else EmptyString.

Definition topSql (q : searchQuery) : string :=
  if HasTop && (String.length (Offset q) =? 0) then
    if String.length (Limit q) =? 0 then EmptyString
    else " TOP(" +:+ Limit q +:+ ")"
  else EmptyString.

Definition offsetSql (q : searchQuery) : string :=
  if String.length (Offset q) =? 0 then EmptyString
  else if HasTop then
    let sql := " OFFSET " +:+ Offset q +:+ " ROW " in
    if 0 <? String.length (Limit q)
    then sql +:+ "FETCH NEXT " +:+ Limit q +:+ " ROWS ONLY"
    else sql
  else " OFFSET " +:+ Offset q.

Definition groupSql (q : searchQuery) : string :=
  if String.length (Group q) =? 0 then EmptyString
  else " GROUP BY " +:+ Group q.

(** [havingSql] returns the text and the having-clause as
    [buildWhereCondition] leaves it. *)
Definition havingSql (scope : Scope) (q : searchQuery)
    : ST (list Value) (string * option Clause) :=
  match HavingCondition q with
  | None => mret (EmptyString, None)
  | Some clause =>
      '(sql, clause') ← buildWhereCondition scope clause;
      mret (" HAVING " +:+ sql, Some clause')
  end.

Definition joinsSql (q : searchQuery) : string := Joins q +:+ " ".

(** [prepareQuerySql] returns the text it hands to [scope.Raw]. The
    arguments of [fmt.Sprintf] are evaluated from left to right.
    [CombinedConditionSql] (scope.go) is a parameter. *)
Definition prepareQuerySql (scope : Scope) (q : searchQuery)
    (CombinedConditionSql : ST (list Value) string) : ST (list Value) string :=
  if Raw q then
    combined ← CombinedConditionSql;
    mret (TrimSuffix (TrimPrefix combined " WHERE (") ")")
  else
    let top := topSql q in
    selects ← selectSql q;
    combined ← CombinedConditionSql;
    mret ("SELECT " +:+ top +:+ " " +:+ selects +:+ " FROM " +:+
          QuotedTableName scope +:+ " " +:+ combined).

End Queries.

(** ** Callbacks *)

Section Callbacks.

(** The scope as the callbacks see it, with its [skipLeft] flag. A
    callback updates the scope, or panics. *)
Variable State : Type.
Variable skipLeft : State -> bool.


End Callbacks.

(** ** Associations *)

(** [scope.typeName()], for the type of [scope.IndirectValue()]. *)
Definition scope_typeName (t : GoType) : string :=
  match t with
  | TSlice elem => typeName elem
  | _ => typeName t
  end.

(** The query [related] builds on the database handle of the related
    scope before it calls [Find]: the texts of [Joins] and the conditions of
    [Where], each with its argument. *)
Record Query := {
  queryJoins : list string;
  queryWheres : list (string * Value)
}.

Inductive Related :=
| Find (query : Query)
| NoFind                       (* a relationship of an unknown kind: nothing is done *)
| InvalidAssociation.          (* scope.Err("invalid association ...") *)

Section Associations.
Context `{Dialect}.

(** The branch [fromField != nil] of [related]. [c] is the catalogue
    [toScope.HasColumn] looks the column up in. *)
Definition relatedFrom (scope toScope : Scope) (c : Catalogue) (fromField : Field)
    : Related :=
  match Relationship_ (structField fromField) with
  | Some relationship =>
      if String.eqb (Kind relationship) "many_to_many" then
        Find {| queryJoins :=
                  ["INNER JOIN " +:+ Quote (JoinTable relationship) +:+ " ON " +:+
                   Quote (JoinTable relationship) +:+ "." +:+
                   Quote (AssociationForeignDBName relationship) +:+ " = " +:+
                   QuotedTableName toScope +:+ "." +:+ Quote (PrimaryKey toScope)];
                queryWheres :=
                  [(Quote (JoinTable relationship) +:+ "." +:+
                    Quote (ForeignDBName relationship) +:+ " = ?",
                    PrimaryKeyValue scope)] |}
      else if String.eqb (Kind relationship) "belongs_to" then
        Find {| queryJoins := [];
                queryWheres := [(Quote (PrimaryKey toScope) +:+ " = ?",
                                 FieldValue fromField)] |}
      else if String.eqb (Kind relationship) "has_many" ||
              String.eqb (Kind relationship) "has_one" then
        Find {| queryJoins := [];
                queryWheres :=
                  (Quote (ForeignDBName relationship) +:+ " = ?", PrimaryKeyValue scope) ::
                  (if negb (String.eqb (ForeignType relationship) EmptyString) &&
                      HasColumn c (scopeTableName toScope) (ForeignType relationship)
                   then [(Quote (ToDBName (ForeignType relationship)) +:+ " = ?",
                          VString (scopeTableName scope))]
                   else []) |}
      else NoFind
  | None =>
      Find {| queryJoins := [];
              queryWheres := [(Quote (PrimaryKey toScope) +:+ " = ?",
                               FieldValue fromField)] |}
  end.

(** The loop of [related] over the candidate foreign keys. *)
Fixpoint relatedKeys (scope toScope : Scope) (c : Catalogue) (foreignKeys : list string)
    : Related :=
  match foreignKeys with
  | [] => InvalidAssociation
  | foreignKey :: rest =>
      match Fields scope !! ToDBName foreignKey, Fields toScope !! ToDBName foreignKey with
      | Some fromField, _ => relatedFrom scope toScope c fromField
      | None, Some toField =>
          Find {| queryJoins := [];
                  queryWheres := [(Quote (DBName (structField toField)) +:+ " = ?",
                                   PrimaryKeyValue scope)] |}
      | None, None => relatedKeys scope toScope c rest
      end
  end.

(** [related], for a scope with a database handle; [scopeType] and
    [toType] are the types of the two scopes' values. *)
Definition related (scope toScope : Scope) (scopeType toType : GoType) (c : Catalogue)
    (foreignKeys : list string) : Related :=
  relatedKeys scope toScope c
    (foreignKeys ++ [scope_typeName toType +:+ "Id"; scope_typeName scopeType +:+ "Id"]).

End Associations.

(** ** Definitions for the further statements *)

(** The values an argument of a string clause binds: the elements of a
    slice, or the argument itself (converted when it is a [driver.Valuer]). *)
Definition argValues (arg : Value) : list Value :=
  match arg with
  | VSlice _ values => values
  | _ => [valuerValue arg]
  end.

Definition boundValues (args : list Value) : list Value :=
  concat (map argValues args).

(** An argument that is neither the nil interface nor a slice. *)
Definition isScalarArg (arg : Value) : bool :=
  match arg with
  | VNil | VSlice _ _ => false
  | _ => true
  end.




Section FurtherStatements.
Context `{Dialect}.

(** The comparisons of the fields of a struct clause, numbered from the
    bound values so far. *)
Fixpoint fieldConditions (op : string) (n : nat) (fields : list Field) : list string :=
  match fields with
  | [] => []
  | field :: rest =>
      ("(" +:+ Quote (DBName (structField field)) +:+ op +:+ BinVar (S n) +:+ ")")
        :: fieldConditions op (S n) rest
  end.

End FurtherStatements.

(** The comparison operators [buildNotCondition] looks for, in either
    case. *)
Definition operators : list string :=
  ["="; "<>"; ">"; "<"; "LIKE"; "like"; "IS"; "is"].

(** A candidate foreign key that names no field of either scope. *)
Definition namesNoField (scope toScope : Scope) (foreignKey : string) : Prop :=
  Fields scope !! ToDBName foreignKey = None /\
  Fields toScope !! ToDBName foreignKey = None.


(** ** Invariants of the reflector's store *)

(** A Hoare triple for the reflector: from a store that satisfies [I], a
    run of [c] that returns leaves a store that satisfies [I] and a result
    that satisfies [Q]. *)
Definition triple {A} (I : Store -> Prop) (c : ST Store A) (Q : A -> Prop) : Prop :=
  forall st a st', I st -> c st = Some (a, st') -> I st' /\ Q a.

(** Every descriptor of the store satisfies [D]; the cache points into the
    heap. *)
Definition heapInv (D : ModelStruct -> Prop) (st : Store) : Prop :=
  Forall D (heap st).

Definition validCache (st : Store) : Prop :=
  forall d t p, db st = Some d -> ModelStructs d !! t = Some p -> p < length (heap st).

Definition allFields (P : StructField -> Prop) (m : ModelStruct) : Prop :=
  Forall P (StructFields m).

(** [Names] is the path of embedding fields that leads to the field, and
    ends in the field's own name. *)
Definition namesEndInName (field : StructField) : Prop :=
  last (Names field) = Some (Name field).

(** A field is a column, a relationship, ignored, or none of them, and
    never two of them; a relationship has one of the four kinds, and a join
    table exactly when it is many-to-many. *)
Definition relationshipKinds : list string :=
  ["has_many"; "many_to_many"; "belongs_to"; "has_one"].

Definition columnOrRelationship (field : StructField) : Prop :=
  (IsNormal field = true -> Relationship_ field = None /\ IsIgnored field = false) /\
  (IsIgnored field = true ->
   DBName field = EmptyString /\ Relationship_ field = None) /\
  (forall relationship, Relationship_ field = Some relationship ->
     In (Kind relationship) relationshipKinds /\
     (Kind relationship = "many_to_many" <-> JoinTable relationship ≠ EmptyString)).

(** The primary key of a descriptor is one of its fields, flagged as
    primary key; a descriptor without one has no column named [id]. *)
Definition primaryKeyAt (fields : list StructField) (primaryKey : option nat) : Prop :=
  forall i, primaryKey = Some i ->
    exists field, fields !! i = Some field /\ IsPrimaryKey field = true.

Definition primaryKeyOK (m : ModelStruct) : Prop :=
  primaryKeyAt (StructFields m) (PrimaryKeyField m) /\
  (PrimaryKeyField m = None ->
   forall field, In field (StructFields m) -> IsNormal field = true ->
     DBName field ≠ "id").

(** The fields a struct declares itself, as opposed to those it takes
    over from an embedded struct, and the names of its exported fields. *)
Definition ownField (field : StructField) : bool := length (Names field) =? 1.

Definition exportedNames (decls : list FieldDecl) : list string :=
  map fieldName (filter (fun decl => fieldExported decl = true) decls).

(** What the loop "Set fields" does for one exported field, whatever the
    branch: the field it appends for the declaration itself. *)
Definition directFacts (decl : FieldDecl) (field : StructField) (pk : bool) : Prop :=
  Name field = fieldName decl /\
  Names field = [fieldName decl] /\
  SqlTag field = EmptyString /\
  IsPrimaryKey field = pk /\
  columnOrRelationship field.

(** The fields and the primary-key index after the loop "Set fields" over
    [decls], from those before it: an exported declaration appends the
    fields of its embedded struct, which satisfy [Pl], and its own field. *)
Inductive reflected (Pl : list StructField -> Prop)
    : list FieldDecl -> list StructField -> option nat ->
      list StructField -> option nat -> Prop :=
| reflected_nil fields primaryKey :
    reflected Pl [] fields primaryKey fields primaryKey
| reflected_skip decl decls fields primaryKey fields' primaryKey' :
    fieldExported decl = false ->
    reflected Pl decls fields primaryKey fields' primaryKey' ->
    reflected Pl (decl :: decls) fields primaryKey fields' primaryKey'
| reflected_field decl decls fields primaryKey embedded field (pk : bool)
    fields' primaryKey' :
    fieldExported decl = true ->
    (embedded = [] \/ Pl embedded) ->
    directFacts decl field pk ->
    reflected Pl decls (fields ++ map (embed decl) embedded ++ [field])
      (if pk then Some (length (fields ++ map (embed decl) embedded ++ [field]) - 1)
       else primaryKey)
      fields' primaryKey' ->
    reflected Pl (decl :: decls) fields primaryKey fields' primaryKey'.

(** The store invariant of the reflector: every descriptor satisfies [D],
    the cache points into the heap, and there is a database handle only if
    [tags] says so. *)
Definition storeInv (D : ModelStruct -> Prop) (tags : bool) (st : Store) : Prop :=
  heapInv D st /\ validCache st /\ (is_Some (db st) -> tags = true).

(** The fields of some descriptor that satisfies [D]. *)
Definition fieldsOf (D : ModelStruct -> Prop) (fields : list StructField) : Prop :=
  exists m, D m /\ fields = StructFields m.

(** What the last loop of [GetModelStruct] keeps of a field. *)
Definition sameField (field field' : StructField) : Prop :=
  DBName field' = DBName field /\ Name field' = Name field /\
  Names field' = Names field /\ IsNormal field' = IsNormal field /\
  IsIgnored field' = IsIgnored field /\
  Relationship_ field' = Relationship_ field /\
  (IsPrimaryKey field = true -> IsPrimaryKey field' = true).


(** ** Definitions for the migrations *)

(** The join table a field asks for. *)
Definition joinTableOf (field : StructField) : option string :=
  match Relationship_ field with
  | Some relationship =>
      if String.eqb (JoinTable relationship) EmptyString then None
      else Some (JoinTable relationship)
  | None => None
  end.

(** A catalogue that has the scope's table with a column for every normal
    field among [fields], and the join tables of [fields]. *)
Definition migrated (scope : Scope) (fields : list StructField) (c : Catalogue) : Prop :=
  (exists columns, c !! scopeTableName scope = Some columns /\
     forall field, In field fields -> IsNormal field = true -> DBName field ∈ columns) /\
  (forall field table, In field fields -> joinTableOf field = Some table ->
     is_Some (c !! table)).

(** [c'] has the tables and the columns of [c]. *)
Definition extends (c c' : Catalogue) : Prop :=
  forall table columns, c !! table = Some columns ->
    exists columns', c' !! table = Some columns' /\ columns ⊆ columns'.

Section MigrationStatements.
Context `{Dialect}.

(** The column definition of a normal field in CREATE TABLE. *)
Definition columnSql (field : StructField) : string :=
  Quote (DBName field) +:+ " " +:+ SqlTag field.

End MigrationStatements.


(** ** Definitions for the pluralization *)

(** One turn of the loop over [pluralMapKeys]. *)
Definition applyRule (reg : Regexp) (repl : string) (tableName : string) : string :=
  if MatchString reg tableName then ReplaceAllString reg tableName repl else tableName.

(** A name that ends in a byte other than [s] followed by [s]. *)
Definition endsInOneS (name : string) : Prop :=
  exists before c, name = before +:+ String c "s" /\ c ≠ "s"%char.

(** * Properties *)

(** ** Strings *)

Lemma str_app_cons (c : ascii) (s t : string) : String c s +:+ t = String c (s +:+ t).
Proof. reflexivity. Qed.

Lemma str_app_nil_l (s : string) : EmptyString +:+ s = s.
Proof. reflexivity. Qed.

Lemma str_app_nil_r (s : string) : s +:+ EmptyString = s.
Proof. induction s as [|c s IH]; [done|]. by rewrite str_app_cons, IH. Qed.

Lemma str_app_assoc (s t u : string) : (s +:+ t) +:+ u = s +:+ t +:+ u.
Proof. induction s as [|c s IH]; [done|]. by rewrite !str_app_cons, IH. Qed.

Lemma str_length_app (s t : string) :
  String.length (s +:+ t) = String.length s + String.length t.
Proof. induction s as [|c s IH]; [done|]. rewrite str_app_cons. simpl. by rewrite IH. Qed.

Lemma str_app_eq_nil (s t : string) : s +:+ t = EmptyString -> s = EmptyString /\ t = EmptyString.
Proof. destruct s; [done|]. by rewrite str_app_cons. Qed.

Lemma str_length_zero (s : string) : String.length s = 0 <-> s = EmptyString.
Proof. by destruct s. Qed.



Lemma Join_singleton s sep : Join [s] sep = s.
Proof. reflexivity. Qed.

Lemma Join_cons s t l sep : Join (s :: t :: l) sep = s +:+ sep +:+ Join (t :: l) sep.
Proof. reflexivity. Qed.


Lemma countByte_app c s t : countByte c (s +:+ t) = countByte c s + countByte c t.
Proof.
  induction s as [|a s IH]; [done|]. rewrite str_app_cons. simpl. rewrite IH. lia.
Qed.

Lemma noQ_app s t : noQ s -> noQ t -> noQ (s +:+ t).
Proof. unfold noQ. rewrite countByte_app. lia. Qed.

Lemma ReplaceFirst_noQ s new : noQ s -> ReplaceFirst s qmark new = s.
Proof.
  unfold noQ. induction s as [|c s IH]; [done|]. simpl.
  destruct (Ascii.eqb c qmark); [done|]. intros Hs. by rewrite IH.
Qed.

Lemma ReplaceFirst_app s t new :
  noQ s -> ReplaceFirst (s +:+ t) qmark new = s +:+ ReplaceFirst t qmark new.
Proof.
  unfold noQ. induction s as [|c s IH]; [done|]. rewrite str_app_cons. simpl.
  destruct (Ascii.eqb c qmark); [done|]. intros Hs. by rewrite IH.
Qed.

Lemma ReplaceFirst_here s t new :
  noQ s -> ReplaceFirst (s +:+ "?" +:+ t) qmark new = s +:+ new +:+ t.
Proof. intros Hs. by rewrite ReplaceFirst_app. Qed.


(** ** The state-and-failure monad *)

Lemma bind_unfold {S A B} (m : ST S A) (f : A -> ST S B) (s : S) :
  (m ≫= f) s = match m s with Some (a, s') => f a s' | None => None end.
Proof. reflexivity. Qed.

Lemma ret_unfold {S A} (a : A) (s : S) : (mret a : ST S A) s = Some (a, s).
Proof. reflexivity. Qed.

Lemma bind_Some {S A B} (m : ST S A) (f : A -> ST S B) (s : S) b s'' :
  (m ≫= f) s = Some (b, s'') <->
  exists a s', m s = Some (a, s') /\ f a s' = Some (b, s'').
Proof.
  rewrite bind_unfold. split.
  - destruct (m s) as [[a s']|]; [|done]. eauto.
  - intros (a & s' & -> & Hf). done.
Qed.

Lemma foldM_nil {S A B} (f : B -> A -> ST S B) (b : B) :
  foldM f b [] = mret b.
Proof. reflexivity. Qed.

Lemma foldM_cons {S A B} (f : B -> A -> ST S B) (b : B) (a : A) (l : list A) s :
  foldM f b (a :: l) s =
  match f b a s with Some (b', s') => foldM f b' l s' | None => None end.
Proof. reflexivity. Qed.

(** ** Bound values and their markers *)

Section CompilerFacts.
Context `{Dialect}.

Lemma AddToVars_spec value vars :
  AddToVars value vars = Some (BinVar (S (length vars)), vars ++ [value]).
Proof. unfold AddToVars. rewrite length_app. simpl. do 3 f_equal. lia. Qed.

Lemma forM_AddToVars values vars :
  forM AddToVars values vars =
  Some (markers (length vars) (length values), vars ++ values).
Proof.
  revert vars. induction values as [|v values IH]; intros vars.
  - simpl. rewrite ret_unfold. by rewrite app_nil_r.
  - simpl forM. rewrite bind_unfold, AddToVars_spec, bind_unfold, IH, ret_unfold.
    rewrite length_app. simpl. rewrite <- app_assoc. simpl.
    unfold markers. simpl. by replace (length vars + 1) with (S (length vars)) by lia.
Qed.

Lemma sliceMarks_spec values vars :
  sliceMarks values vars =
  Some (Join (markers (length vars) (length values)) ",", vars ++ values).
Proof. unfold sliceMarks. by rewrite bind_unfold, forM_AddToVars. Qed.

End CompilerFacts.

(** ** Single clauses *)

Section ClauseFacts.
Context `{Dialect}.

Lemma whereArg_slice pre post ty values vars :
  noQ pre ->
  whereArg (pre +:+ "?" +:+ post) (VSlice ty values) vars =
  Some (pre +:+ Join (markers (length vars) (length values)) "," +:+ post,
        vars ++ values).
Proof.
  intros Hpre. unfold whereArg.
  by rewrite bind_unfold, sliceMarks_spec, ret_unfold, ReplaceFirst_here.
Qed.

Lemma mapSqls_spec op entries vars :
  mapSqls op entries vars =
  Some (mapConditions op (length vars) entries, vars ++ map snd entries).
Proof.
  revert vars. induction entries as [|[key value] entries IH]; intros vars.
  - simpl. by rewrite ret_unfold, app_nil_r.
  - simpl mapSqls. rewrite bind_unfold, AddToVars_spec, bind_unfold, IH, ret_unfold.
    rewrite length_app. simpl. rewrite <- app_assoc. simpl.
    by replace (length vars + 1) with (S (length vars)) by lia.
Qed.

End ClauseFacts.

(** C3, at the code: a not-clause whose query is a slice of integers or of
    strings compiles to the empty text and binds nothing, also when the
    slice is not empty: [buildNotCondition] prepares the NOT IN condition
    and the arguments and then returns the empty string. *)
Theorem buildNotCondition_slice_returns_empty `{Dialect}
    (scope : Scope) (clause : Clause) ty elems vars :
  clause !! "query" = Some (VSlice ty elems) ->
  ty = SInts \/ ty = SStrings ->
  exists clause', buildNotCondition scope clause vars = Some ((EmptyString, clause'), vars).
Proof.
  intros Hq Hty. unfold buildNotCondition. rewrite Hq.
  destruct Hty as [-> | ->]; destruct (0 <? length elems); eauto.
Qed.

Lemma buildNotCondition_slice_returns_empty_witness :
  rendered (@buildNotCondition exampleDialect (exampleScope emptySearch)
              (clauseOf (VSlice SInts [VInt 1; VInt 2; VInt 3]) []) []) =
  Some (EmptyString, []).
Proof.
  destruct (@buildNotCondition_slice_returns_empty exampleDialect
              (exampleScope emptySearch)
              (clauseOf (VSlice SInts [VInt 1; VInt 2; VInt 3]) [])
              SInts [VInt 1; VInt 2; VInt 3] []) as [clause' ->];
    [reflexivity | by left | reflexivity].
Defined.

(** C4: a where-clause whose query is a slice of integers, strings or
    interfaces renders the primary-key IN condition with its placeholder
    expanded to one marker per element, comma-joined, and binds the elements
    in order; and in every iteration of the argument loop a slice argument
    replaces the first remaining placeholder by one marker per element, in
    element order. *)
Theorem buildWhereCondition_slice_expands `{Dialect}
    (scope : Scope) (clause : Clause) ty elems vars :
  clause !! "query" = Some (VSlice ty elems) ->
  ty ≠ SOthers ->
  noQ (Quote (PrimaryKey scope)) ->
  rendered (buildWhereCondition scope clause vars) =
    Some ("(" +:+ Quote (PrimaryKey scope) +:+ " in (" +:+
          Join (markers (length vars) (length elems)) "," +:+ "))",
          vars ++ elems)
  /\ forall pre post ty' values vars',
       noQ pre ->
       whereArg (pre +:+ "?" +:+ post) (VSlice ty' values) vars' =
       Some (pre +:+ Join (markers (length vars') (length values)) "," +:+ post,
             vars' ++ values).
Proof.
  intros Hq Hty Hpk. split; [|intros; by apply whereArg_slice].
  unfold buildWhereCondition. rewrite Hq.
  assert (whereArgs ("(" +:+ Quote (PrimaryKey scope) +:+ " in (?))")
            (<["args" := VSlice SIfaces [VSlice ty elems]]> clause) vars =
          Some (("(" +:+ Quote (PrimaryKey scope) +:+ " in (" +:+
                 Join (markers (length vars) (length elems)) "," +:+ "))",
                 <["args" := VSlice SIfaces [VSlice ty elems]]> clause),
                vars ++ elems)) as Hrun.
  { unfold whereArgs. rewrite lookup_insert_eq, bind_unfold, foldM_cons.
    replace ("(" +:+ Quote (PrimaryKey scope) +:+ " in (?))")
      with (("(" +:+ Quote (PrimaryKey scope) +:+ " in (") +:+ "?" +:+ "))")
      by (by rewrite !str_app_assoc).
    rewrite whereArg_slice.
    - rewrite foldM_nil, !ret_unfold. by rewrite !str_app_assoc.
    - apply (noQ_app "("); [done|]. by apply noQ_app. }
  destruct ty; try done; by rewrite Hrun.
Qed.

Lemma buildWhereCondition_slice_expands_witness :
  rendered (@buildWhereCondition exampleDialect (exampleScope emptySearch)
              (clauseOf (VSlice SInts [VInt 1; VInt 2; VInt 3]) []) []) =
  Some ("(" +:+ dquote +:+ "id" +:+ dquote +:+ " in ($1,$2,$3))",
        [VInt 1; VInt 2; VInt 3]).
Proof.
  destruct (@buildWhereCondition_slice_expands exampleDialect
              (exampleScope emptySearch)
              (clauseOf (VSlice SInts [VInt 1; VInt 2; VInt 3]) [])
              SInts [VInt 1; VInt 2; VInt 3] []) as [Hrun _];
    [reflexivity | discriminate | reflexivity | ].
  rewrite Hrun. reflexivity.
Defined.

(** C5, as the code has it: a mapping where-clause renders one
    parenthesized equality per key, in the iteration order of the mapping,
    joined by AND with no parentheses around the whole, and binds the values
    in the same order; for a mapping of one key this is the single
    parenthesized equality of the claim. *)
Theorem buildWhereCondition_map_equalities `{Dialect}
    (scope : Scope) (clause : Clause) entries vars :
  clause !! "query" = Some (VMap entries) ->
  rendered (buildWhereCondition scope clause vars) =
    Some (Join (mapConditions " = " (length vars) entries) " AND ",
          vars ++ map snd entries)
  /\ (length entries = 1 ->
      Join (mapConditions " = " (length vars) entries) " AND " =
      claimedMapSql (length vars) entries).
Proof.
  intros Hq. split.
  - unfold buildWhereCondition. rewrite Hq.
    by rewrite bind_unfold, mapSqls_spec, ret_unfold.
  - destruct entries as [|[key value] [|? ?]]; try done. intros _.
    unfold claimedMapSql. cbn [mapConditions claimedEqualities].
    by rewrite !Join_singleton, !str_app_assoc.
Qed.

Lemma buildWhereCondition_map_equalities_witness :
  rendered (@buildWhereCondition exampleDialect (exampleScope emptySearch)
              (clauseOf (VMap [("age", VInt 30); ("name", VString "bob")]) []) []) =
  Some ("(" +:+ dquote +:+ "age" +:+ dquote +:+ " = $1) AND (" +:+
        dquote +:+ "name" +:+ dquote +:+ " = $2)",
        [VInt 30; VString "bob"]).
Proof.
  destruct (@buildWhereCondition_map_equalities exampleDialect
              (exampleScope emptySearch)
              (clauseOf (VMap [("age", VInt 30); ("name", VString "bob")]) [])
              [("age", VInt 30); ("name", VString "bob")] []) as [Hrun _];
    [reflexivity|].
  rewrite Hrun. reflexivity.
Defined.

(** C5 as stated fails: the mapping of two keys renders two parenthesized
    equalities, in either iteration order, and not the single parenthesized
    conjunction. *)
Lemma buildWhereCondition_map_two_keys_counterexample :
  let age_name := [("age", VInt 30); ("name", VString "bob")] in
  let name_age := [("name", VString "bob"); ("age", VInt 30)] in
  fst <$> rendered (@buildWhereCondition exampleDialect (exampleScope emptySearch)
                      (clauseOf (VMap age_name) []) [])
    ≠ Some (@claimedMapSql exampleDialect 0 age_name)
  /\ fst <$> rendered (@buildWhereCondition exampleDialect (exampleScope emptySearch)
                         (clauseOf (VMap name_age) []) [])
    ≠ Some (@claimedMapSql exampleDialect 0 name_age).
Proof. split; vm_compute; discriminate. Qed.

(** ** The WHERE clause *)







Section WhereFacts.
Context `{Dialect}.



End WhereFacts.



(** ** Markers in the order of the bound values *)


Lemma dropPrefix_app m r : dropPrefix m (m +:+ r) = Some r.
Proof.
  induction m as [|c m IH]; [reflexivity|].
  rewrite str_app_cons. simpl. by rewrite Ascii.eqb_refl.
Qed.

Lemma dropPrefix_Some m s r : dropPrefix m s = Some r -> s = m +:+ r.
Proof.
  revert s. induction m as [|c m IH]; intros s.
  - simpl. by intros [= ->].
  - destruct s as [|c' s]; [done|]. simpl.
    destruct (Ascii.eqb_spec c c') as [->|]; [|done].
    intros Hs. rewrite str_app_cons. f_equal. by apply IH.
Qed.

Lemma afterFirst_Some m s r :
  afterFirst m s = Some r -> exists u, s = u +:+ m +:+ r.
Proof.
  induction s as [|c s IH]; simpl.
  - destruct (dropPrefix m EmptyString) eqn:Hd; [|done].
    intros [= ->]. exists EmptyString. rewrite str_app_nil_l.
    by apply dropPrefix_Some.
  - destruct (dropPrefix m (String c s)) eqn:Hd.
    + intros [= ->]. exists EmptyString. rewrite str_app_nil_l.
      by apply dropPrefix_Some.
    + intros (u & ->)%IH. by exists (String c u).
Qed.



Section Markers.
Context `{Dialect}.













Lemma markedb_Marked k n s : markedb k n s = true -> Marked n (n + k) s.
Proof.
  revert n s. induction k as [|k IH]; intros n s; simpl.
  - intros _. rewrite Nat.add_0_r. constructor.
  - destruct (afterFirst (BinVar (S n)) s) as [rest|] eqn:Hs; [|done].
    intros Hrest. apply afterFirst_Some in Hs as [u ->].
    replace (n + S k) with (S n + k) by lia. constructor. by apply IH.
Qed.

End Markers.

(** ** Well-formed clauses keep the markers in order *)

Lemma noQ_Join l sep : Forall noQ l -> noQ sep -> noQ (Join l sep).
Proof.
  intros Hl Hsep. induction Hl as [|s l Hs Hl IH]; [done|].
  destruct l as [|t l]; [by rewrite Join_singleton|].
  rewrite Join_cons. apply noQ_app; [done|]. by apply noQ_app.
Qed.

Section Order.
Context `{Dialect}.
Hypothesis markers_noQ : forall n, noQ (BinVar n).



Lemma whereArg_scalar str arg vars :
  arg ≠ VNil -> (forall ty values, arg ≠ VSlice ty values) ->
  whereArg str arg vars =
  Some (ReplaceFirst str qmark (BinVar (S (length vars))), vars ++ [valuerValue arg]).
Proof.
  intros Hnil Hslice. destruct arg; try done;
    try by (unfold whereArg; rewrite bind_unfold, AddToVars_spec, ret_unfold).
  by destruct (Hslice ty elems).
Qed.




Lemma notArg_whereArg notEqualSql str arg :
  notArg notEqualSql str arg =
  whereArg (match arg with VSlice _ _ => str | _ => notEqualSql end) arg.
Proof. by destruct arg. Qed.




End Order.

Section OrderOfClauses.
Context `{Dialect}.
Hypothesis markers_noQ : forall n, noQ (BinVar n).

Lemma countByte_parens value :
  countByte qmark ("(" +:+ value +:+ ")") = countByte qmark value.
Proof. rewrite !countByte_app. simpl. lia. Qed.











End OrderOfClauses.

(** The markers of the example dialect hold no placeholder. *)
Lemma pretty_N_go_noQ x s : noQ s -> noQ (pretty_N_go x s).
Proof.
  revert s. induction (N.lt_wf_0 x) as [x _ IH]; intros s Hs.
  assert (x = 0 \/ 0 < x)%N as [->|Hx] by lia.
  - by rewrite pretty_N_go_0.
  - rewrite pretty_N_go_step by done. apply IH.
    { by apply N.div_lt. }
    unfold noQ in *. simpl. rewrite Hs.
    unfold pretty_N_char. by repeat case_match.
Qed.

Lemma exampleDialect_markers_noQ n : noQ (@BinVar exampleDialect n).
Proof.
  simpl. apply (noQ_app "$"); [done|].
  unfold pretty, pretty_nat, pretty, pretty_N. case_decide; [done|].
  by apply pretty_N_go_noQ.
Qed.




(** ** The "args" entry *)

Section Arguments.
Context `{Dialect}.

Lemma whereArg_is_Some str arg vars :
  arg ≠ VNil -> is_Some (whereArg str arg vars).
Proof.
  intros Hnil. destruct arg as [| | | |ty values| |]; [done|..].
  - rewrite whereArg_scalar by done. by eexists.
  - rewrite whereArg_scalar by done. by eexists.
  - rewrite whereArg_scalar by done. by eexists.
  - unfold whereArg. rewrite bind_unfold, sliceMarks_spec, ret_unfold. by eexists.
  - rewrite whereArg_scalar by done. by eexists.
  - rewrite whereArg_scalar by done. by eexists.
Qed.

Lemma foldM_args_is_Some (step : string -> Value -> ST (list Value) string) args str vars :
  (forall str arg vars, arg ≠ VNil -> is_Some (step str arg vars)) ->
  Forall (fun arg => arg ≠ VNil) args ->
  is_Some (foldM step str args vars).
Proof.
  intros Hstep Hargs. revert str vars.
  induction Hargs as [|arg args Harg _ IH]; intros str vars.
  - rewrite foldM_nil, ret_unfold. by eexists.
  - rewrite foldM_cons. destruct (Hstep str arg vars Harg) as [[str1 vars1] ->].
    apply IH.
Qed.

Lemma foldM_args_nil (step : string -> Value -> ST (list Value) string) args str vars :
  (forall str vars, step str VNil vars = None) ->
  In VNil args ->
  foldM step str args vars = None.
Proof.
  intros Hstep. revert str vars.
  induction args as [|arg args IH]; intros str vars Hin; [done|].
  rewrite foldM_cons. destruct Hin as [->|Hin]; [by rewrite Hstep|].
  destruct (step str arg vars) as [[str1 vars1]|]; [by apply IH|done].
Qed.

Lemma notArg_is_Some notEqualSql str arg vars :
  arg ≠ VNil -> is_Some (notArg notEqualSql str arg vars).
Proof. intros Hnil. rewrite notArg_whereArg. by apply whereArg_is_Some. Qed.

Lemma whereArgs_is_Some str clause args vars :
  clause !! "args" = Some (VSlice SIfaces args) ->
  Forall (fun arg => arg ≠ VNil) args ->
  is_Some (whereArgs str clause vars).
Proof.
  intros Hargs Hnil. unfold whereArgs. rewrite Hargs, bind_unfold.
  destruct (foldM_args_is_Some whereArg args str vars) as [[str' vars'] ->];
    [apply whereArg_is_Some|done|].
  rewrite ret_unfold. by eexists.
Qed.

Lemma notArgs_is_Some notEqualSql str clause args vars :
  clause !! "args" = Some (VSlice SIfaces args) ->
  Forall (fun arg => arg ≠ VNil) args ->
  is_Some (notArgs notEqualSql str clause vars).
Proof.
  intros Hargs Hnil. unfold notArgs. rewrite Hargs, bind_unfold.
  destruct (foldM_args_is_Some (notArg notEqualSql) args str vars) as [[str' vars'] ->];
    [intros; by apply notArg_is_Some|done|].
  rewrite ret_unfold. by eexists.
Qed.

Lemma whereArgs_without_args str clause vars :
  (forall args, clause !! "args" ≠ Some (VSlice SIfaces args)) ->
  whereArgs str clause vars = None.
Proof.
  intros Hargs. unfold whereArgs.
  destruct (clause !! "args") as [[| | | |[] args| |]|]; try done.
  by destruct (Hargs args).
Qed.

Lemma notArgs_without_args notEqualSql str clause vars :
  (forall args, clause !! "args" ≠ Some (VSlice SIfaces args)) ->
  notArgs notEqualSql str clause vars = None.
Proof.
  intros Hargs. unfold notArgs.
  destruct (clause !! "args") as [[| | | |[] args| |]|]; try done.
  by destruct (Hargs args).
Qed.

Lemma mapSqls_is_Some op entries vars : is_Some (mapSqls op entries vars).
Proof. rewrite mapSqls_spec. by eexists. Qed.

Lemma fieldSqls_is_Some op fields vars : is_Some (fieldSqls op fields vars).
Proof.
  revert vars. induction fields as [|field fields IH]; intros vars.
  - simpl. rewrite ret_unfold. by eexists.
  - simpl. destruct (IsBlank field); [apply IH|].
    rewrite bind_unfold, AddToVars_spec, bind_unfold.
    destruct (IH (vars ++ [FieldValue field])) as [[sqls vars'] ->].
    rewrite ret_unfold. by eexists.
Qed.

(** X28: a string clause that is not a number reads its "args" entry: without an
    entry that is a []interface{}, both builders panic. *)
Lemma string_clause_without_args_panics (scope : Scope) (clause : Clause) value vars :
  clause !! "query" = Some (VString value) ->
  isNumber value = false ->
  (forall args, clause !! "args" ≠ Some (VSlice SIfaces args)) ->
  buildWhereCondition scope clause vars = None /\
  buildNotCondition scope clause vars = None.
Proof.
  intros Hq Hnum Hargs. unfold buildWhereCondition, buildNotCondition.
  rewrite Hq, Hnum. split.
  - case_bool_decide; by apply whereArgs_without_args.
  - destruct (hasOperator value); by apply notArgs_without_args.
Qed.

(** X29: with an "args" entry that holds a list without a nil interface, both
    builders return, whatever the query. *)
Lemma clause_with_args_renders (scope : Scope) (clause : Clause) args vars :
  clause !! "args" = Some (VSlice SIfaces args) ->
  Forall (fun arg => arg ≠ VNil) args ->
  is_Some (buildWhereCondition scope clause vars) /\
  is_Some (buildNotCondition scope clause vars).
Proof.
  intros Hargs Hnil. unfold buildWhereCondition, buildNotCondition.
  assert (forall (m : ST (list Value) (list string)) v,
            is_Some (m v) ->
            is_Some ((sqls ← m; mret (Join sqls " AND ", clause)) v)) as Hjoin.
  { intros m v [[sqls v'] Hm]. rewrite bind_unfold, Hm, ret_unfold. by eexists. }
  destruct (clause !! "query") as [[|i|i valid|value|ty elems|entries|name fields valuer]|].
  - split; [by eapply whereArgs_is_Some | by eapply notArgs_is_Some].
  - rewrite bind_unfold, AddToVars_spec, !ret_unfold. split; by eexists.
  - rewrite bind_unfold, AddToVars_spec, !ret_unfold. split; by eexists.
  - destruct (isNumber value).
    + rewrite bind_unfold, AddToVars_spec, !ret_unfold. split; by eexists.
    + split.
      * case_bool_decide; by eapply whereArgs_is_Some.
      * destruct (hasOperator value); by eapply notArgs_is_Some.
  - split.
    + destruct ty; try (apply Hjoin, fieldSqls_is_Some);
        (eapply whereArgs_is_Some; [apply lookup_insert_eq|]);
        destruct elems; repeat constructor; done.
    + destruct ty; try (apply Hjoin, fieldSqls_is_Some);
        destruct (0 <? length elems); rewrite ret_unfold; by eexists.
  - split; apply Hjoin, mapSqls_is_Some.
  - split; apply Hjoin, fieldSqls_is_Some.
  - split; [by eapply whereArgs_is_Some | by eapply notArgs_is_Some].
Qed.

(** X30: a number, a scalar, a mapping and a struct return before the "args"
    entry is read. *)
Lemma early_shapes_need_no_args (scope : Scope) (clause : Clause) vars :
  match clause !! "query" with
  | Some (VString value) => isNumber value = true
  | Some (VInt _) | Some (VNullInt64 _ _) | Some (VMap _) | Some (VStruct _ _ _) => True
  | _ => False
  end ->
  is_Some (buildWhereCondition scope clause vars) /\
  is_Some (buildNotCondition scope clause vars).
Proof.
  unfold buildWhereCondition, buildNotCondition.
  assert (forall (m : ST (list Value) (list string)) v,
            is_Some (m v) ->
            is_Some ((sqls ← m; mret (Join sqls " AND ", clause)) v)) as Hjoin.
  { intros m v [[sqls v'] Hm]. rewrite bind_unfold, Hm, ret_unfold. by eexists. }
  destruct (clause !! "query") as [[|i|i valid|value|ty elems|entries|name fields valuer]|];
    intros Hshape.
  - done.
  - rewrite bind_unfold, AddToVars_spec, !ret_unfold. split; by eexists.
  - rewrite bind_unfold, AddToVars_spec, !ret_unfold. split; by eexists.
  - rewrite Hshape, bind_unfold, AddToVars_spec, !ret_unfold. split; by eexists.
  - done.
  - split; apply Hjoin, mapSqls_is_Some.
  - split; apply Hjoin, fieldSqls_is_Some.
  - done.
Qed.

End Arguments.

(** C10, at the code: a string clause that is not a number panics in both
    builders when its argument list holds a nil interface, although the
    clause carries an "args" entry with an argument list:
    [reflect.TypeOf(arg).Kind()] is called on a nil type. *)
Theorem string_clause_nil_argument_panics `{Dialect}
    (scope : Scope) (clause : Clause) value args vars :
  clause !! "query" = Some (VString value) ->
  isNumber value = false ->
  clause !! "args" = Some (VSlice SIfaces args) ->
  In VNil args ->
  buildWhereCondition scope clause vars = None /\
  buildNotCondition scope clause vars = None.
Proof.
  intros Hq Hnum Hargs Hnil. unfold buildWhereCondition, buildNotCondition.
  rewrite Hq, Hnum. split.
  - case_bool_decide; unfold whereArgs; rewrite Hargs, bind_unfold;
      by rewrite (foldM_args_nil whereArg).
  - destruct (hasOperator value); unfold notArgs; rewrite Hargs, bind_unfold;
      by rewrite (foldM_args_nil (notArg _)).
Qed.

Lemma string_clause_nil_argument_panics_witness :
  @buildWhereCondition exampleDialect (exampleScope emptySearch)
    (clauseOf (VString "name = ?") [VNil]) [] = None /\
  @buildNotCondition exampleDialect (exampleScope emptySearch)
    (clauseOf (VString "name = ?") [VNil]) [] = None.
Proof.
  apply (@string_clause_nil_argument_panics exampleDialect (exampleScope emptySearch)
           (clauseOf (VString "name = ?") [VNil]) "name = ?" [VNil] []);
    [reflexivity | reflexivity | reflexivity | by left].
Defined.

(** ** Migrations *)

Section MigrationFacts.
Context `{Dialect}.

Lemma createJoinTable_plain scope field d :
  plainColumn field = true -> createJoinTable scope field d = Some (tt, d).
Proof.
  unfold plainColumn, createJoinTable. intros [_ Hjoin]%andb_prop.
  destruct (Relationship_ field) as [relationship|]; [|done].
  by rewrite Hjoin.
Qed.

Lemma addMissingColumns_spec scope fields d columns :
  forallb plainColumn fields = true ->
  catalogue d !! scopeTableName scope = Some columns ->
  addMissingColumns scope fields d =
  Some (tt, {| executed := executed d ++ map (alterSql scope) (alterations columns fields);
               catalogue :=
                 <[scopeTableName scope :=
                     columns ∪ list_to_set (map DBName (alterations columns fields))]>
                   (catalogue d) |}).
Proof.
  revert d columns. induction fields as [|field fields IH]; intros d columns Hplain Htable.
  - simpl. rewrite ret_unfold, app_nil_r, union_empty_r_L, insert_id by done.
    by destruct d.
  - simpl in Hplain. apply andb_prop in Hplain as [Hfield Hplain].
    assert (IsNormal field = true) as Hnormal
      by (unfold plainColumn in Hfield; by apply andb_prop in Hfield as [? _]).
    cbn [addMissingColumns alterations].
    rewrite bind_unfold. unfold getCatalogue at 1.
    unfold HasColumn. rewrite Htable, Hnormal. cbn [negb orb].
    rewrite orb_false_r, andb_true_r.
    destruct (bool_decide (DBName field ∈ columns)) eqn:Hcolumn; cbn [negb].
    + rewrite bind_unfold, ret_unfold, bind_unfold, createJoinTable_plain by done.
      by apply IH.
    + rewrite bind_unfold. unfold Exec at 1.
      rewrite bind_unfold, createJoinTable_plain by done.
      rewrite (IH _ (columns ∪ {[DBName field]})); [|done|].
      * cbn [executed catalogue map]. do 3 f_equal.
        -- by rewrite <- app_assoc.
        -- unfold addColumnEffect. rewrite Htable, insert_insert_eq.
           f_equal. cbn [list_to_set]. set_solver.
      * cbn [catalogue]. unfold addColumnEffect. by rewrite Htable, lookup_insert_eq.
Qed.

Lemma alterations_length columns fields :
  forallb plainColumn fields = true ->
  length (alterations columns fields) =
  size (list_to_set (map DBName fields) ∖ columns : gset string).
Proof.
  revert columns. induction fields as [|field fields IH]; intros columns Hplain.
  - simpl. by rewrite difference_disjoint_L, size_empty by set_solver.
  - simpl in Hplain. apply andb_prop in Hplain as [Hfield Hplain].
    assert (IsNormal field = true) as Hnormal
      by (unfold plainColumn in Hfield; by apply andb_prop in Hfield as [? _]).
    cbn [alterations map list_to_set]. rewrite Hnormal. cbn [negb].
    rewrite orb_false_r. case_bool_decide as Hcolumn.
    + rewrite IH by done. f_equal. set_solver.
    + cbn [length]. rewrite IH by done.
      replace (({[DBName field]} ∪ list_to_set (map DBName fields)) ∖ columns)
        with ({[DBName field]} ∪
              (list_to_set (map DBName fields) ∖ (columns ∪ {[DBName field]}) : gset string)).
      * rewrite (size_union {[DBName field]}) by set_solver. by rewrite size_singleton.
      * apply set_eq. intros x. rewrite !elem_of_union, !elem_of_difference,
          !elem_of_union, !elem_of_singleton.
        destruct (decide (x = DBName field)) as [->|]; naive_solver.
Qed.

Lemma createTableColumns_plain scope fields d :
  forallb plainColumn fields = true ->
  exists sqls, createTableColumns scope fields d = Some (sqls, d).
Proof.
  induction fields as [|field fields IH]; intros Hplain.
  - exists []. reflexivity.
  - simpl in Hplain. apply andb_prop in Hplain as [Hfield Hplain].
    destruct (IH Hplain) as [sqls Hsqls]. cbn [createTableColumns].
    rewrite bind_unfold, createJoinTable_plain by done.
    rewrite bind_unfold, Hsqls, ret_unfold. by eexists.
Qed.

Lemma countStatements_app keyword l1 l2 :
  countStatements keyword (l1 ++ l2) =
  countStatements keyword l1 + countStatements keyword l2.
Proof. unfold countStatements. by rewrite filter_app, length_app. Qed.

Lemma alterSql_prefix scope field :
  HasPrefix (alterSql scope field) "ALTER TABLE " = true /\
  HasPrefix (alterSql scope field) "CREATE TABLE " = false.
Proof. unfold alterSql. split; reflexivity. Qed.

Lemma countStatements_alter scope fields :
  countStatements "ALTER TABLE " (map (alterSql scope) fields) = length fields /\
  countStatements "CREATE TABLE " (map (alterSql scope) fields) = 0.
Proof.
  unfold countStatements. induction fields as [|field fields [IH1 IH2]]; [done|].
  cbn [map]. destruct (alterSql_prefix scope field) as [Halter Hcreate]. split.
  - rewrite filter_cons_True by done. cbn [length]. by rewrite IH1.
  - rewrite filter_cons_False; [done|]. by rewrite Hcreate.
Qed.

End MigrationFacts.

(** C9: for a scope whose fields are all plain columns without join tables,
    [autoMigrate] returns; on a table that exists and misses exactly two of
    the declared columns it executes two statements, both ALTER TABLE ...
    ADD, and no CREATE TABLE; on a table that does not exist it executes one
    statement, a CREATE TABLE, and no ALTER. *)
Theorem autoMigrate_statement_counts `{Dialect} (scope : Scope) (d : Database) :
  forallb plainColumn (scopeStructFields scope) = true ->
  exists d' new,
    autoMigrate scope d = Some (tt, d') /\
    executed d' = executed d ++ new /\
    (forall columns,
       catalogue d !! scopeTableName scope = Some columns ->
       size (list_to_set (map DBName (scopeStructFields scope)) ∖ columns : gset string) = 2 ->
       length new = 2 /\
       countStatements "ALTER TABLE " new = 2 /\
       countStatements "CREATE TABLE " new = 0 /\
       Forall (fun sql => exists field,
                 In field (scopeStructFields scope) /\ sql = alterSql scope field) new) /\
    (catalogue d !! scopeTableName scope = None ->
     length new = 1 /\
     countStatements "CREATE TABLE " new = 1 /\
     countStatements "ALTER TABLE " new = 0).
Proof.
  intros Hplain. unfold autoMigrate. rewrite bind_unfold. unfold getCatalogue at 1.
  unfold HasTable.
  destruct (catalogue d !! scopeTableName scope) as [columns|] eqn:Htable.
  - rewrite bool_decide_true by (by eexists). cbn [negb].
    rewrite (addMissingColumns_spec scope _ d columns) by done.
    eexists _, _. split; [reflexivity|]. split; [reflexivity|]. split; [|done].
    intros ? [= <-] Hsize.
    rewrite <- (alterations_length columns) in Hsize by done.
    destruct (countStatements_alter scope (alterations columns (scopeStructFields scope)))
      as [Halter Hcreate].
    rewrite length_map, Halter, Hcreate, Hsize. repeat split.
    apply Forall_forall. intros sql (field & <- & Hin)%list_elem_of_In%in_map_iff.
    exists field. split; [|done].
    clear -Hin. revert columns Hin.
    induction (scopeStructFields scope) as [|f fields IH]; intros columns Hin; [done|].
    cbn [alterations] in Hin.
    destruct (bool_decide (DBName f ∈ columns) || negb (IsNormal f)).
    + right. by eapply IH.
    + destruct Hin as [->|Hin]; [by left|]. right. by eapply IH.
  - rewrite bool_decide_false by (by intros [? ?]). cbn [negb].
    unfold createTable. rewrite bind_unfold.
    destruct (createTableColumns_plain scope (scopeStructFields scope) d Hplain)
      as [sqls ->].
    unfold Exec. eexists _, _. split; [reflexivity|]. split; [reflexivity|].
    split; [done|]. intros _. done.
Qed.

Lemma autoMigrate_statement_counts_witness :
  (exists d', @autoMigrate exampleDialect migrationScope usersDatabase = Some (tt, d') /\
     executed d' =
       ["ALTER TABLE " +:+ dquote +:+ "users" +:+ dquote +:+ " ADD email text;";
        "ALTER TABLE " +:+ dquote +:+ "users" +:+ dquote +:+ " ADD age bigint;"]) /\
  (exists d', @autoMigrate exampleDialect migrationScope emptyDatabase = Some (tt, d') /\
     length (executed d') = 1 /\
     countStatements "CREATE TABLE " (executed d') = 1).
Proof.
  split.
  - destruct (@autoMigrate_statement_counts exampleDialect migrationScope usersDatabase
                eq_refl) as (d' & new & Hrun & Hnew & _).
    exists d'. split; [done|].
    vm_compute in Hrun. injection Hrun as <-. reflexivity.
  - destruct (@autoMigrate_statement_counts exampleDialect migrationScope emptyDatabase
                eq_refl) as (d' & new & Hrun & Hnew & _ & Habsent).
    exists d'. split; [done|].
    destruct (Habsent eq_refl) as (Hlen & Hcreate & _).
    simpl in Hnew. by rewrite Hnew.
Defined.

(** ** The schema reflector *)

Section ReflectorFacts.
Context `{Dialect} `{Program}.

Lemma GetModelStruct_unfold fuel value st :
  GetModelStruct (S fuel) (Some value) st =
  match db st ≫= (fun d => ModelStructs d !! scopeTypeOf value) with
  | Some p => Some (p, st)
  | None =>
      match scopeTypeOf value with
      | TStruct _ _ => describe fuel (scopeTypeOf value) (db st) st
      | _ => alloc emptyModelStruct st
      end
  end.
Proof.
  cbn [GetModelStruct]. rewrite bind_unfold. unfold getDB at 1.
  destruct (db st ≫= _); [done|]. by destruct (scopeTypeOf value).
Qed.

Lemma describe_result fuel scopeType database st p st' :
  describe fuel scopeType database st = Some (p, st') ->
  exists tableName fields primaryKey st1,
    modelTableName scopeType
      (match database with Some d => singularTable d | None => false end) =
      Some tableName /\
    p = length (heap st1) /\
    heap st' = heap st1 ++ [{| PrimaryKeyField := primaryKey; StructFields := fields;
                               TableName := tableName |}] /\
    db st' = (fun d => {| singularTable := singularTable d;
                          ModelStructs := <[scopeType := p]> (ModelStructs d) |})
             <$> db st1.
Proof.
  unfold describe. intros Hrun.
  apply bind_Some in Hrun as (tableName & st0 & Hname & Hrun).
  apply bind_Some in Hrun as ([fields0 pk0] & st1 & Hfields & Hrun).
  apply bind_Some in Hrun as ([fields pk] & st2 & Hfinish & Hrun).
  apply bind_Some in Hrun as (p' & st3 & Halloc & Hrun).
  apply bind_Some in Hrun as ([] & st4 & Hremember & Hrun).
  rewrite ret_unfold in Hrun.
  unfold liftOption in Hname, Hfinish.
  destruct (modelTableName _ _) as [name|] eqn:Hmodel; [|done].
  destruct (finishFields _ _ _ _ _) as [[? ?]|]; [|done].
  unfold alloc in Halloc. unfold remember in Hremember.
  simplify_eq/=. by eexists _, _, _, _.
Qed.

Lemma keepsDB_ret {A} (a : A) : keepsDB (mret a).
Proof. intros st a' st'. rewrite ret_unfold. by intros [= <- <-]. Qed.

Lemma keepsDB_bind {A B} (c : ST Store A) (f : A -> ST Store B) :
  keepsDB c -> (forall a, keepsDB (f a)) -> keepsDB (c ≫= f).
Proof.
  intros Hc Hf st b st' (a & st1 & Hrun1 & Hrun2)%bind_Some.
  apply Hc in Hrun1. apply Hf in Hrun2. by rewrite Hrun2.
Qed.

Lemma keepsDB_liftOption {A} (o : option A) : keepsDB (liftOption o).
Proof. intros st a st'. unfold liftOption. destruct o; [|done]. by intros [= <- <-]. Qed.

Lemma keepsDB_alloc m : keepsDB (alloc m).
Proof. intros st a st'. unfold alloc. by intros [= <- <-]. Qed.

Lemma keepsDB_deref p : keepsDB (deref p).
Proof.
  intros st a st'. unfold deref. destruct (heap st !! p); [|done]. by intros [= <- <-].
Qed.

Lemma keepsDB_remember t p : keepsDB (remember t p).
Proof.
  intros st a st'. unfold remember. intros [= _ <-]. cbn [db].
  by rewrite fmap_is_Some.
Qed.

Lemma keepsDB_reflectField nested scopeType fieldStruct :
  (forall t, keepsDB (nested t)) ->
  keepsDB (reflectField nested scopeType fieldStruct).
Proof.
  intros Hnested. unfold reflectField.
  repeat case_match;
    first [ apply keepsDB_ret
          | apply keepsDB_bind; [apply Hnested|]; intros ?; apply keepsDB_ret ].
Qed.

Lemma keepsDB_reflectFields nested scopeType decls fields primaryKey :
  (forall t, keepsDB (nested t)) ->
  keepsDB (reflectFields nested scopeType decls fields primaryKey).
Proof.
  intros Hnested. revert fields primaryKey.
  induction decls as [|fieldStruct decls IH]; intros fields primaryKey.
  - apply keepsDB_ret.
  - cbn [reflectFields]. destruct (fieldExported fieldStruct); [|apply IH].
    apply keepsDB_bind; [by apply keepsDB_reflectField|]. intros [? ?]. apply IH.
Qed.

Lemma keepsDB_describe fuel scopeType database :
  (forall value, keepsDB (GetModelStruct fuel value)) ->
  keepsDB (describe fuel scopeType database).
Proof.
  intros IH. unfold describe.
  apply keepsDB_bind; [apply keepsDB_liftOption|]. intros ?.
  apply keepsDB_bind.
  { apply keepsDB_reflectFields. intros t. unfold nestedFields.
    apply keepsDB_bind; [apply IH|]. intros ?.
    apply keepsDB_bind; [apply keepsDB_deref|]. intros ?. apply keepsDB_ret. }
  intros [? ?]. apply keepsDB_bind; [apply keepsDB_liftOption|]. intros [? ?].
  apply keepsDB_bind; [apply keepsDB_alloc|]. intros ?.
  apply keepsDB_bind; [apply keepsDB_remember|]. intros ?. apply keepsDB_ret.
Qed.

Lemma keepsDB_GetModelStruct fuel value : keepsDB (GetModelStruct fuel value).
Proof.
  revert value. induction fuel as [|fuel IH]; intros value; [by intros ???|].
  destruct value as [value|]; [|apply keepsDB_alloc].
  intros st p st'. rewrite GetModelStruct_unfold.
  destruct (db st ≫= _); [by intros [= <- <-]|].
  destruct (scopeTypeOf value); try apply keepsDB_alloc.
  by apply keepsDB_describe.
Qed.

End ReflectorFacts.

Section Fuel.
Context `{Dialect} `{Program}.

(** More fuel does not change a result. *)
Lemma leST_refl {A} (c : ST Store A) : leST c c.
Proof. by intros st r. Qed.

Lemma leST_bind {A B} (c1 c2 : ST Store A) (f1 f2 : A -> ST Store B) :
  leST c1 c2 -> (forall a, leST (f1 a) (f2 a)) -> leST (c1 ≫= f1) (c2 ≫= f2).
Proof.
  intros Hc Hf st [b st'] (a & st1 & Hrun1 & Hrun2)%bind_Some.
  rewrite bind_unfold, (Hc _ _ Hrun1). by apply Hf.
Qed.

Lemma leST_liftOption {A} (o1 o2 : option A) :
  (forall a, o1 = Some a -> o2 = Some a) -> leST (liftOption o1) (liftOption o2).
Proof.
  intros Ho st r. unfold liftOption. destruct o1 as [a|]; [|done].
  by rewrite (Ho a eq_refl).
Qed.

Lemma leST_reflectField nested1 nested2 scopeType fieldStruct :
  (forall t, leST (nested1 t) (nested2 t)) ->
  leST (reflectField nested1 scopeType fieldStruct)
       (reflectField nested2 scopeType fieldStruct).
Proof.
  intros Hnested. unfold reflectField.
  repeat case_match;
    first [ apply leST_refl
          | apply leST_bind; [apply Hnested|]; intros ?; apply leST_refl ].
Qed.

Lemma leST_reflectFields nested1 nested2 scopeType decls fields primaryKey :
  (forall t, leST (nested1 t) (nested2 t)) ->
  leST (reflectFields nested1 scopeType decls fields primaryKey)
       (reflectFields nested2 scopeType decls fields primaryKey).
Proof.
  intros Hnested. revert fields primaryKey.
  induction decls as [|fieldStruct decls IH]; intros fields primaryKey.
  - apply leST_refl.
  - cbn [reflectFields]. destruct (fieldExported fieldStruct); [|apply IH].
    apply leST_bind; [by apply leST_reflectField|]. intros [? ?]. apply IH.
Qed.

Lemma getScannerValue_mono fuel fuel' t r :
  fuel <= fuel' -> getScannerValue fuel t = Some r -> getScannerValue fuel' t = Some r.
Proof.
  revert fuel' t. induction fuel as [|fuel IH]; intros fuel' t Hle; [done|].
  destruct fuel' as [|fuel']; [lia|]. cbn [getScannerValue].
  destruct t; try done. destruct (implementsScanner _); [|done].
  destruct (declFields _) as [|first ?]; [done|]. apply IH. lia.
Qed.

Lemma generateSqlTag_mono fuel fuel' field r :
  fuel <= fuel' -> generateSqlTag fuel field = Some r -> generateSqlTag fuel' field = Some r.
Proof.
  intros Hle. unfold generateSqlTag. destruct (IsScanner field); [|done].
  destruct (getScannerValue fuel _) as [t|] eqn:Ht; [|done].
  by rewrite (getScannerValue_mono _ _ _ _ Hle Ht).
Qed.

Lemma finishFields_mono fuel fuel' hasDB index fields primaryKey r :
  fuel <= fuel' ->
  finishFields fuel hasDB index fields primaryKey = Some r ->
  finishFields fuel' hasDB index fields primaryKey = Some r.
Proof.
  intros Hle. revert index primaryKey r.
  induction fields as [|field fields IH]; intros index primaryKey r; [done|].
  cbn [finishFields]. destruct (IsNormal field).
  - destruct hasDB.
    + destruct (generateSqlTag fuel _) as [field'|] eqn:Hfield; [|done].
      rewrite (generateSqlTag_mono _ _ _ _ Hle Hfield). cbn [mbind option_bind].
      destruct (finishFields fuel _ _ _ _) as [[rest pk]|] eqn:Hrest; [|done].
      by rewrite (IH _ _ _ Hrest).
    + cbn [mbind option_bind].
      destruct (finishFields fuel _ _ _ _) as [[rest pk]|] eqn:Hrest; [|done].
      by rewrite (IH _ _ _ Hrest).
  - destruct (finishFields fuel _ _ _ _) as [[rest pk]|] eqn:Hrest; [|done].
    by rewrite (IH _ _ _ Hrest).
Qed.

Lemma describe_mono fuel fuel' scopeType database :
  fuel <= fuel' ->
  (forall value, leST (GetModelStruct fuel value) (GetModelStruct fuel' value)) ->
  leST (describe fuel scopeType database) (describe fuel' scopeType database).
Proof.
  intros Hle IH. unfold describe.
  apply leST_bind; [apply leST_refl|]. intros tableName.
  apply leST_bind.
  { apply leST_reflectFields. intros t. unfold nestedFields.
    apply leST_bind; [apply IH|]. intros ?. apply leST_refl. }
  intros [fields pk]. apply leST_bind; [|intros ?; apply leST_refl].
  apply leST_liftOption. intros r. by apply finishFields_mono.
Qed.

Lemma GetModelStruct_mono fuel fuel' value :
  fuel <= fuel' -> leST (GetModelStruct fuel value) (GetModelStruct fuel' value).
Proof.
  revert fuel' value. induction fuel as [|fuel IH]; intros fuel' value Hle; [by intros ??|].
  destruct fuel' as [|fuel']; [lia|].
  destruct value as [value|]; [|apply leST_refl].
  intros st r. rewrite !GetModelStruct_unfold.
  destruct (db st ≫= _); [done|].
  destruct (scopeTypeOf value); try done.
  apply describe_mono; [lia|]. intros v. apply IH. lia.
Qed.

End Fuel.

Section Memoization.
Context `{Dialect} `{Program}.

Lemma describe_remembers fuel scopeType database st p st' :
  is_Some (db st) ->
  describe fuel scopeType database st = Some (p, st') ->
  db st' ≫= (fun d => ModelStructs d !! scopeType) = Some p.
Proof.
  intros Hdb Hrun. unfold describe in Hrun.
  apply bind_Some in Hrun as (tableName & st0 & Hname & Hrun).
  apply bind_Some in Hrun as ([fields0 pk0] & st1 & Hfields & Hrun).
  apply bind_Some in Hrun as ([fields pk] & st2 & Hfinish & Hrun).
  apply bind_Some in Hrun as (p' & st3 & Halloc & Hrun).
  apply bind_Some in Hrun as ([] & st4 & Hremember & Hrun).
  rewrite ret_unfold in Hrun. injection Hrun as <- <-.
  apply keepsDB_liftOption in Hname.
  apply keepsDB_reflectFields in Hfields;
    [|intros t; unfold nestedFields;
      apply keepsDB_bind; [apply keepsDB_GetModelStruct|]; intros ?;
      apply keepsDB_bind; [apply keepsDB_deref|]; intros ?; apply keepsDB_ret].
  apply keepsDB_liftOption in Hfinish. apply keepsDB_alloc in Halloc.
  assert (is_Some (db st3)) as [d Hd] by tauto.
  unfold remember in Hremember. injection Hremember as <-.
  cbn [db]. rewrite Hd. simpl. apply lookup_insert_eq.
Qed.

Lemma GetModelStruct_remembers fuel value pkg name st p st' :
  scopeTypeOf value = TStruct pkg name ->
  is_Some (db st) ->
  GetModelStruct fuel (Some value) st = Some (p, st') ->
  db st' ≫= (fun d => ModelStructs d !! scopeTypeOf value) = Some p.
Proof.
  intros Htype Hdb Hrun. destruct fuel as [|fuel]; [done|].
  rewrite GetModelStruct_unfold in Hrun.
  destruct (db st ≫= _) as [q|] eqn:Hcache; [by injection Hrun as <- <-|].
  rewrite Htype in Hrun |- *. by eapply describe_remembers.
Qed.

Lemma GetModelStruct_cached fuel value st p :
  db st ≫= (fun d => ModelStructs d !! scopeTypeOf value) = Some p ->
  GetModelStruct (S fuel) (Some value) st = Some (p, st).
Proof. intros Hcache. by rewrite GetModelStruct_unfold, Hcache. Qed.

Lemma Pure_ret {A} (a : A) : Pure (mret a).
Proof.
  exists (Some (a, [])). intros [h d] Hdb. simpl in *. subst d.
  by rewrite ret_unfold, app_nil_r.
Qed.

Lemma Pure_bind {A B} (c : ST Store A) (f : A -> ST Store B) :
  Pure c -> (forall a, Pure (f a)) -> Pure (c ≫= f).
Proof.
  intros [[[a l]|] Hc] Hf.
  - destruct (Hf a) as [[[b l']|] Hfa].
    + exists (Some (b, l ++ l')). intros st Hdb.
      rewrite bind_unfold, Hc, Hfa by done. cbn [heap]. by rewrite app_assoc.
    + exists None. intros st Hdb. by rewrite bind_unfold, Hc, Hfa.
  - exists None. intros st Hdb. by rewrite bind_unfold, Hc.
Qed.

Lemma Pure_liftOption {A} (o : option A) : Pure (liftOption o).
Proof.
  destruct o as [a|]; [apply (Pure_ret a)|]. by exists None.
Qed.

Lemma Pure_nested (c : ST Store nat) :
  PureAlloc c -> Pure (p ← c; m ← deref p; mret (StructFields m)).
Proof.
  intros [[[l m]|] Hc].
  - exists (Some (StructFields m, l ++ [m])). intros st Hdb.
    rewrite bind_unfold, Hc by done. rewrite bind_unfold. unfold deref at 1.
    cbn [heap]. rewrite (app_assoc (heap st)).
    by rewrite list_lookup_middle, ret_unfold.
  - exists None. intros st Hdb. by rewrite bind_unfold, Hc.
Qed.

Lemma Pure_reflectField nested scopeType fieldStruct :
  (forall t, Pure (nested t)) ->
  Pure (reflectField nested scopeType fieldStruct).
Proof.
  intros Hnested. unfold reflectField.
  repeat case_match;
    first [ apply Pure_ret
          | apply Pure_bind; [apply Hnested|]; intros ?; apply Pure_ret ].
Qed.

Lemma Pure_reflectFields nested scopeType decls fields primaryKey :
  (forall t, Pure (nested t)) ->
  Pure (reflectFields nested scopeType decls fields primaryKey).
Proof.
  intros Hnested. revert fields primaryKey.
  induction decls as [|fieldStruct decls IH]; intros fields primaryKey.
  - apply Pure_ret.
  - cbn [reflectFields]. destruct (fieldExported fieldStruct); [|apply IH].
    apply Pure_bind; [by apply Pure_reflectField|]. intros [? ?]. apply IH.
Qed.

Lemma PureAlloc_alloc m : PureAlloc (alloc m).
Proof.
  exists (Some ([], m)). intros [h d] Hdb. simpl in *. subst d.
  unfold alloc. cbn [heap db]. by rewrite app_nil_r.
Qed.

Lemma PureAlloc_bind {A} (c : ST Store A) (f : A -> ST Store nat) :
  Pure c -> (forall a, PureAlloc (f a)) -> PureAlloc (c ≫= f).
Proof.
  intros [[[a l]|] Hc] Hf.
  - destruct (Hf a) as [[[l' m]|] Hfa].
    + exists (Some (l ++ l', m)). intros st Hdb.
      rewrite bind_unfold, Hc, Hfa by done. cbn [heap].
      by rewrite !app_assoc.
    + exists None. intros st Hdb. by rewrite bind_unfold, Hc, Hfa.
  - exists None. intros st Hdb. by rewrite bind_unfold, Hc.
Qed.

Lemma PureAlloc_remember m scopeType :
  PureAlloc (p ← alloc m; _ ← remember scopeType p; mret p).
Proof.
  exists (Some ([], m)). intros [h d] Hdb. simpl in *. subst d.
  rewrite bind_unfold. unfold alloc at 1. cbn [heap db].
  rewrite bind_unfold. unfold remember at 1. cbn [heap db].
  by rewrite ret_unfold, app_nil_r.
Qed.

Lemma PureAlloc_describe fuel scopeType :
  (forall value, PureAlloc (GetModelStruct fuel value)) ->
  PureAlloc (describe fuel scopeType None).
Proof.
  intros IH. unfold describe.
  apply PureAlloc_bind; [apply Pure_liftOption|]. intros tableName.
  apply PureAlloc_bind.
  { apply Pure_reflectFields. intros t. apply Pure_nested, IH. }
  intros [fields0 pk0].
  apply PureAlloc_bind; [apply Pure_liftOption|]. intros [fields pk].
  apply PureAlloc_remember.
Qed.

Lemma PureAlloc_GetModelStruct fuel value : PureAlloc (GetModelStruct fuel value).
Proof.
  revert value. induction fuel as [|fuel IH]; intros value; [by exists None|].
  destruct value as [value|]; [|apply PureAlloc_alloc].
  destruct (scopeTypeOf value) as [scalar|pkg name|elem|elem] eqn:Htype.
  - destruct (PureAlloc_alloc emptyModelStruct) as [r Hr]. exists r. intros st Hdb.
    by rewrite GetModelStruct_unfold, Hdb, Htype, Hr.
  - destruct (PureAlloc_describe fuel (TStruct pkg name) IH) as [r Hr].
    exists r. intros st Hdb.
    by rewrite GetModelStruct_unfold, Hdb, Htype, Hr.
  - destruct (PureAlloc_alloc emptyModelStruct) as [r Hr]. exists r. intros st Hdb.
    by rewrite GetModelStruct_unfold, Hdb, Htype, Hr.
  - destruct (PureAlloc_alloc emptyModelStruct) as [r Hr]. exists r. intros st Hdb.
    by rewrite GetModelStruct_unfold, Hdb, Htype, Hr.
Qed.

End Memoization.

(** C7: for a struct type, after a call of [GetModelStruct] that returned,
    with a database handle every later call (with any fuel) returns the
    same pointer, the memoized descriptor, and leaves the store as it is;
    without a database handle a second call (with at least the fuel of the
    first) returns a descriptor equal to the first: same table name, same
    fields in the same order, same primary-key field. *)
Theorem GetModelStruct_idempotent `{Dialect} `{Program}
    (fuel : nat) (value : GoType) pkg name (st : Store) p st' :
  scopeTypeOf value = TStruct pkg name ->
  GetModelStruct fuel (Some value) st = Some (p, st') ->
  (is_Some (db st) ->
   forall fuel', 0 < fuel' -> GetModelStruct fuel' (Some value) st' = Some (p, st')) /\
  (db st = None ->
   forall fuel', fuel <= fuel' ->
   exists p' st'' m,
     GetModelStruct fuel' (Some value) st' = Some (p', st'') /\
     heap st' !! p = Some m /\ heap st'' !! p' = Some m).
Proof.
  intros Htype Hrun. split.
  - intros Hdb fuel' Hfuel. destruct fuel' as [|fuel']; [lia|].
    apply GetModelStruct_cached. by eapply GetModelStruct_remembers.
  - intros Hdb fuel' Hfuel.
    destruct (PureAlloc_GetModelStruct fuel (Some value)) as [[[l m]|] Hpure];
      rewrite Hpure in Hrun by done; [|done].
    injection Hrun as <- <-.
    eexists _, _, m. split; [|split].
    + apply (GetModelStruct_mono fuel fuel'); [done|]. by apply Hpure.
    + cbn [heap]. rewrite (app_assoc (heap st)). by apply list_lookup_middle.
    + cbn [heap]. rewrite (app_assoc (heap st ++ l ++ [m])). by apply list_lookup_middle.
Qed.

Lemma GetModelStruct_idempotent_witness :
  (exists p st',
     @GetModelStruct exampleDialect exampleProgram 3 (Some (TPtr Category))
       (emptyStore (Some emptyDB)) = Some (p, st') /\
     @GetModelStruct exampleDialect exampleProgram 1 (Some (TPtr Category)) st' =
       Some (p, st')) /\
  (exists p st' p' st'' m,
     @GetModelStruct exampleDialect exampleProgram 3 (Some (TSlice Category))
       (emptyStore None) = Some (p, st') /\
     @GetModelStruct exampleDialect exampleProgram 4 (Some (TSlice Category)) st' =
       Some (p', st'') /\
     heap st' !! p = Some m /\ heap st'' !! p' = Some m /\
     TableName m = "categories").
Proof.
  split.
  - destruct (@GetModelStruct exampleDialect exampleProgram 3 (Some (TPtr Category))
                (emptyStore (Some emptyDB))) as [[p st']|] eqn:Hrun;
      [|by vm_compute in Hrun].
    exists p, st'. split; [done|].
    destruct (@GetModelStruct_idempotent exampleDialect exampleProgram 3 (TPtr Category)
                "main" "Category" (emptyStore (Some emptyDB)) p st' eq_refl Hrun)
      as [Hcached _].
    apply Hcached; [by eexists|lia].
  - destruct (@GetModelStruct exampleDialect exampleProgram 3 (Some (TSlice Category))
                (emptyStore None)) as [[p st']|] eqn:Hrun;
      [|by vm_compute in Hrun].
    destruct (@GetModelStruct_idempotent exampleDialect exampleProgram 3 (TSlice Category)
                "main" "Category" (emptyStore None) p st' eq_refl Hrun) as [_ Hpure].
    destruct (Hpure eq_refl 4) as (p' & st'' & m & Hagain & Hm & Hm'); [lia|].
    exists p, st', p', st'', m. repeat (split; [done|]).
    vm_compute in Hrun. injection Hrun as <- <-.
    vm_compute in Hm. by injection Hm as <-.
Defined.

Section TableNames.
Context `{Dialect} `{Program}.

Lemma describe_TableName fuel scopeType database st p st' :
  describe fuel scopeType database st = Some (p, st') ->
  exists m, heap st' !! p = Some m /\
    modelTableName scopeType
      (match database with Some d => singularTable d | None => false end) =
    Some (TableName m).
Proof.
  intros (tableName & fields & primaryKey & st1 & Hname & -> & Hheap & _)%describe_result.
  exists {| PrimaryKeyField := primaryKey; StructFields := fields;
            TableName := tableName |}.
  split; [|exact Hname].
  rewrite Hheap. by apply list_lookup_middle.
Qed.

End TableNames.

(** C8: for a struct type without a [TableName] method, described for the
    first time with singular-table mode off, the table name of the
    descriptor is the snake-cased type name rewritten by every rule of
    [pluralMapKeys] that matches, in order: [categories] for Category,
    [addresses] for Address, [days] for Day. *)
Theorem derived_table_names `{Dialect} `{Program}
    (fuel : nat) (value : GoType) pkg name (st : Store) p st' :
  scopeTypeOf value = TStruct pkg name ->
  declTableName (structDecl (TStruct pkg name)) = NoTableName ->
  db st ≫= (fun d => ModelStructs d !! TStruct pkg name) = None ->
  (forall d, db st = Some d -> singularTable d = false) ->
  GetModelStruct fuel (Some value) st = Some (p, st') ->
  exists m,
    heap st' !! p = Some m /\
    TableName m = pluralize 0 pluralMapKeys (ToDBName name) /\
    (name = "Category" -> TableName m = "categories") /\
    (name = "Address" -> TableName m = "addresses") /\
    (name = "Day" -> TableName m = "days").
Proof.
  intros Htype Hmethod Hcache Hplural Hrun.
  destruct fuel as [|fuel]; [done|].
  rewrite GetModelStruct_unfold, Htype, Hcache in Hrun.
  apply describe_TableName in Hrun as (m & Hm & Hname).
  exists m. split; [done|].
  unfold modelTableName in Hname. rewrite Hmethod in Hname.
  assert (match db st with Some d => singularTable d | None => false end = false)
    as Hsingular by (destruct (db st) as [d|]; [by apply Hplural|done]).
  rewrite Hsingular in Hname. injection Hname as Hname. cbn [typeName] in Hname.
  rewrite <- Hname. split; [done|].
  repeat split; intros ->; reflexivity.
Qed.

Lemma derived_table_names_witness :
  Forall (fun '(type, tableName) =>
            exists p st' m,
              @GetModelStruct exampleDialect exampleProgram 3 (Some type)
                (emptyStore (Some emptyDB)) = Some (p, st') /\
              heap st' !! p = Some m /\ TableName m = tableName)
    [(Category, "categories"); (Address, "addresses"); (Day, "days")].
Proof.
  repeat constructor.
  - destruct (@GetModelStruct exampleDialect exampleProgram 3 (Some Category)
                (emptyStore (Some emptyDB))) as [[p st']|] eqn:Hrun;
      [|by vm_compute in Hrun].
    destruct (@derived_table_names exampleDialect exampleProgram 3 Category
                "main" "Category" (emptyStore (Some emptyDB)) p st' eq_refl eq_refl eq_refl
                (fun d Hd => f_equal (from_option singularTable true) (eq_sym Hd)) Hrun)
      as (m & Hm & _ & Hname & _).
    exists p, st', m. auto.
  - destruct (@GetModelStruct exampleDialect exampleProgram 3 (Some Address)
                (emptyStore (Some emptyDB))) as [[p st']|] eqn:Hrun;
      [|by vm_compute in Hrun].
    destruct (@derived_table_names exampleDialect exampleProgram 3 Address
                "main" "Address" (emptyStore (Some emptyDB)) p st' eq_refl eq_refl eq_refl
                (fun d Hd => f_equal (from_option singularTable true) (eq_sym Hd)) Hrun)
      as (m & Hm & _ & _ & Hname & _).
    exists p, st', m. auto.
  - destruct (@GetModelStruct exampleDialect exampleProgram 3 (Some Day)
                (emptyStore (Some emptyDB))) as [[p st']|] eqn:Hrun;
      [|by vm_compute in Hrun].
    destruct (@derived_table_names exampleDialect exampleProgram 3 Day
                "main" "Day" (emptyStore (Some emptyDB)) p st' eq_refl eq_refl eq_refl
                (fun d Hd => f_equal (from_option singularTable true) (eq_sym Hd)) Hrun)
      as (m & Hm & _ & _ & _ & Hname).
    exists p, st', m. auto.
Defined.

(** * Further properties of the clause compiler *)

Lemma countByte_ReplaceFirst s new :
  noQ new -> countByte qmark (ReplaceFirst s qmark new) = countByte qmark s - 1.
Proof.
  intros Hnew. induction s as [|c s IH]; [done|].
  cbn [ReplaceFirst countByte]. destruct (Ascii.eqb c qmark) eqn:Hc.
  - rewrite countByte_app, Hnew. cbn. lia.
  - cbn [countByte]. rewrite Hc, IH. done.
Qed.

Lemma isNumber_Atoi value :
  isNumber value = true ->
  Atoi value =
  if allBytes isDigit value then Z.min maxInt (decimalValue 0 value) else 0%Z.
Proof.
  destruct value as [|c rest]; [done|].
  destruct c as [[] [] [] [] [] [] [] []]; try done.
Qed.

Section StringClauses.
Context `{Dialect}.

Lemma whereArg_bound str arg vars :
  arg ≠ VNil -> (forall n, noQ (BinVar n)) ->
  exists str',
    whereArg str arg vars = Some (str', vars ++ argValues arg) /\
    countByte qmark str' = countByte qmark str - 1.
Proof.
  intros Hnil Hmarks.
  assert (forall values : list Value, exists str',
            (marks ← sliceMarks values; mret (ReplaceFirst str qmark marks)) vars =
              Some (str', vars ++ values) /\
            countByte qmark str' = countByte qmark str - 1) as Hslice.
  { intros values. rewrite bind_unfold, sliceMarks_spec, ret_unfold.
    eexists; split; [done|]. apply countByte_ReplaceFirst.
    apply noQ_Join; [|done]. apply Forall_forall. intros m Hm.
    unfold markers in Hm. apply list_elem_of_fmap in Hm as (n & -> & _). apply Hmarks. }
  assert (forall value : Value, exists str',
            (mark ← AddToVars value; mret (ReplaceFirst str qmark mark)) vars =
              Some (str', vars ++ [value]) /\
            countByte qmark str' = countByte qmark str - 1) as Hscalar.
  { intros value. rewrite bind_unfold, AddToVars_spec, ret_unfold.
    eexists; split; [done|]. apply countByte_ReplaceFirst, Hmarks. }
  destruct arg; cbn [whereArg argValues]; try done; first [apply Hscalar | apply Hslice].
Qed.

Lemma foldM_whereArg_bound args str vars :
  Forall (fun arg => arg ≠ VNil) args -> (forall n, noQ (BinVar n)) ->
  exists str',
    foldM whereArg str args vars = Some (str', vars ++ boundValues args) /\
    countByte qmark str' = countByte qmark str - length args.
Proof.
  intros Hnil Hmarks. revert str vars.
  induction Hnil as [|arg args Harg _ IH]; intros str vars.
  - exists str. rewrite foldM_nil, ret_unfold. unfold boundValues. cbn.
    rewrite app_nil_r. split; [done|lia].
  - destruct (whereArg_bound str arg vars Harg Hmarks) as (str1 & Hrun & Hcount).
    destruct (IH str1 (vars ++ argValues arg)) as (str' & Hrest & Hcount').
    exists str'. rewrite foldM_cons, Hrun, Hrest. unfold boundValues. cbn [map concat length].
    rewrite <- app_assoc. split; [done|lia].
Qed.

Lemma foldM_whereArg_empty args vars :
  Forall (fun arg => arg ≠ VNil) args ->
  foldM whereArg EmptyString args vars = Some (EmptyString, vars ++ boundValues args).
Proof.
  intros Hnil. revert vars. induction Hnil as [|arg args Harg _ IH]; intros vars.
  - rewrite foldM_nil, ret_unfold. unfold boundValues. cbn. by rewrite app_nil_r.
  - rewrite foldM_cons.
    assert (whereArg EmptyString arg vars = Some (EmptyString, vars ++ argValues arg)) as ->.
    { destruct arg; try done; cbn [whereArg argValues].
      by rewrite bind_unfold, sliceMarks_spec, ret_unfold. }
    rewrite IH. unfold boundValues. cbn [map concat]. by rewrite <- app_assoc.
Qed.

Lemma fieldSqls_spec op fields vars :
  let used := filter (fun field => IsBlank field = false) fields in
  fieldSqls op fields vars =
  Some (fieldConditions op (length vars) used, vars ++ map FieldValue used).
Proof.
  revert vars. induction fields as [|field fields IH]; intros vars; cbn zeta in *.
  - cbn. by rewrite app_nil_r.
  - cbn [fieldSqls]. destruct (IsBlank field) eqn:Hblank.
    + rewrite filter_cons_False by (by rewrite Hblank). apply IH.
    + rewrite filter_cons_True by done.
      rewrite bind_unfold, AddToVars_spec, bind_unfold, IH, ret_unfold.
      rewrite length_app. cbn [length map fieldConditions].
      replace (length vars + 1) with (S (length vars)) by lia.
      by rewrite <- app_assoc.
Qed.

End StringClauses.

(** X1: a where-clause whose query is a numeric string compares the
    primary key with the marker of one bound value, whatever its
    arguments; the value is the decimal number, capped at the largest [int],
    when the string holds digits only, and 0 when there is white space
    around the digits ([strconv.Atoi] rejects it and its error is dropped). *)
Theorem buildWhereCondition_numeric_string `{Dialect}
    (scope : Scope) (clause : Clause) value vars :
  clause !! "query" = Some (VString value) ->
  isNumber value = true ->
  buildWhereCondition scope clause vars =
  Some ((primaryCondition scope (BinVar (S (length vars))), clause),
        vars ++ [VInt (if allBytes isDigit value
                       then Z.min maxInt (decimalValue 0 value) else 0%Z)]).
Proof.
  intros Hq Hnum. unfold buildWhereCondition.
  rewrite Hq, Hnum, bind_unfold, AddToVars_spec, ret_unfold.
  by rewrite (isNumber_Atoi _ Hnum).
Qed.

Lemma buildWhereCondition_numeric_string_witness :
  rendered (@buildWhereCondition exampleDialect (exampleScope emptySearch)
              (clauseOf (VString " 42 ") []) []) =
    Some ("(" +:+ dquote +:+ "id" +:+ dquote +:+ " = $1)", [VInt 0]) /\
  rendered (@buildWhereCondition exampleDialect (exampleScope emptySearch)
              (clauseOf (VString "42") []) []) =
    Some ("(" +:+ dquote +:+ "id" +:+ dquote +:+ " = $1)", [VInt 42]).
Proof.
  split.
  - by rewrite (@buildWhereCondition_numeric_string exampleDialect
                  (exampleScope emptySearch) (clauseOf (VString " 42 ") [])
                  " 42 " [] eq_refl eq_refl).
  - by rewrite (@buildWhereCondition_numeric_string exampleDialect
                  (exampleScope emptySearch) (clauseOf (VString "42") [])
                  "42" [] eq_refl eq_refl).
Defined.

(** X2: a where-clause whose query is a string that is not a number binds,
    for each argument in turn, the elements of a slice or the argument
    itself, whether or not the fragment has a placeholder for it; every
    argument uses up one placeholder while there is one left. *)
Theorem buildWhereCondition_string_binds_arguments `{Dialect}
    (scope : Scope) (clause : Clause) value args vars :
  clause !! "query" = Some (VString value) ->
  isNumber value = false ->
  clause !! "args" = Some (VSlice SIfaces args) ->
  Forall (fun arg => arg ≠ VNil) args ->
  (forall n, noQ (BinVar n)) ->
  exists sql,
    buildWhereCondition scope clause vars = Some ((sql, clause), vars ++ boundValues args) /\
    countByte qmark sql = countByte qmark value - length args.
Proof.
  intros Hq Hnum Hargs Hnil Hmarks. unfold buildWhereCondition. rewrite Hq, Hnum.
  assert (forall str, countByte qmark str = countByte qmark value ->
            exists sql,
              whereArgs str clause vars = Some ((sql, clause), vars ++ boundValues args) /\
              countByte qmark sql = countByte qmark value - length args) as Hrun.
  { intros str Hstr. unfold whereArgs. rewrite Hargs.
    destruct (foldM_whereArg_bound args str vars Hnil Hmarks) as (sql & Hfold & Hcount).
    exists sql. rewrite bind_unfold, Hfold, ret_unfold. split; [done|]. by rewrite <- Hstr. }
  case_bool_decide as Hvalue.
  - apply Hrun, countByte_parens.
  - apply Hrun. by subst.
Qed.

Lemma buildWhereCondition_string_binds_arguments_witness :
  exists sql,
    @buildWhereCondition exampleDialect (exampleScope emptySearch)
      (clauseOf (VString "a = ? AND b in (?) AND c = ?")
         [VInt 1; VSlice SInts [VInt 2; VInt 3]]) [] =
      Some ((sql, clauseOf (VString "a = ? AND b in (?) AND c = ?")
                    [VInt 1; VSlice SInts [VInt 2; VInt 3]]),
            [VInt 1; VInt 2; VInt 3]) /\
    countByte qmark sql = 1.
Proof.
  apply (@buildWhereCondition_string_binds_arguments exampleDialect
           (exampleScope emptySearch)
           (clauseOf (VString "a = ? AND b in (?) AND c = ?")
              [VInt 1; VSlice SInts [VInt 2; VInt 3]])
           "a = ? AND b in (?) AND c = ?" [VInt 1; VSlice SInts [VInt 2; VInt 3]] []);
    [reflexivity | reflexivity | reflexivity | by repeat constructor
    | apply exampleDialect_markers_noQ].
Defined.

(** X3: a where-clause whose query is the empty string leaves no text,
    so that [whereSql] drops it, and yet its arguments are bound: a scope
    with this clause only renders no WHERE text and binds the values. *)
Theorem whereSql_empty_query_binds `{Dialect} (scope : Scope) args vars :
  WhereConditions (Search scope) = [clauseOf (VString EmptyString) args] ->
  OrConditions (Search scope) = [] ->
  NotConditions (Search scope) = [] ->
  softDeleteConditions scope = [] ->
  PrimaryKeyZero scope = true ->
  Forall (fun arg => arg ≠ VNil) args ->
  exists s', whereSql scope vars = Some ((EmptyString, s'), vars ++ boundValues args).
Proof.
  intros Hwhere Hor Hnot Hsoft Hzero Hnil.
  unfold whereSql, primaryKeyConditions. rewrite Hwhere, Hor, Hnot, Hsoft, Hzero.
  cbn [negb]. rewrite bind_unfold, ret_unfold. cbn [compileClauses app].
  assert (buildWhereCondition scope (clauseOf (VString EmptyString) args) vars =
          Some ((EmptyString, clauseOf (VString EmptyString) args),
                vars ++ boundValues args)) as Hbuild.
  { unfold buildWhereCondition, clauseOf. rewrite lookup_insert_eq.
    cbn [isNumber skipWhile]. rewrite bool_decide_eq_false_2 by (by intros []).
    unfold whereArgs. rewrite lookup_insert_ne by done. rewrite lookup_insert_eq.
    by rewrite bind_unfold, (foldM_whereArg_empty args vars Hnil), ret_unfold. }
  rewrite !bind_unfold, Hbuild. cbn. by eexists.
Qed.

Lemma whereSql_empty_query_binds_witness :
  exists s',
    @whereSql exampleDialect
      (exampleScope {| WhereConditions := [clauseOf (VString EmptyString) [VInt 7]];
                       OrConditions := []; NotConditions := []; Unscope := false |}) [] =
    Some ((EmptyString, s'), [VInt 7]).
Proof.
  apply (@whereSql_empty_query_binds exampleDialect
           (exampleScope {| WhereConditions := [clauseOf (VString EmptyString) [VInt 7]];
                            OrConditions := []; NotConditions := []; Unscope := false |})
           [VInt 7] []); [reflexivity .. | by repeat constructor].
Defined.

(** X4: a clause whose query is a struct compares the fields that are not
    blank, in the order [Fields] yields them, and binds their values; the
    blank fields are skipped, so that a struct whose fields are all blank
    leaves no condition and binds nothing. The where-clause compares with
    [=], the not-clause with [<>]. *)
Theorem struct_clause_skips_blank_fields `{Dialect}
    (scope : Scope) (clause : Clause) name fields valuer vars :
  clause !! "query" = Some (VStruct name fields valuer) ->
  let used := filter (fun field => IsBlank field = false)
                (NewFields scope (VStruct name fields valuer)) in
  buildWhereCondition scope clause vars =
    Some ((Join (fieldConditions " = " (length vars) used) " AND ", clause),
          vars ++ map FieldValue used) /\
  buildNotCondition scope clause vars =
    Some ((Join (fieldConditions " <> " (length vars) used) " AND ", clause),
          vars ++ map FieldValue used) /\
  (used = [] ->
   rendered (buildWhereCondition scope clause vars) = Some (EmptyString, vars)).
Proof.
  intros Hq used. unfold buildWhereCondition, buildNotCondition. rewrite Hq.
  rewrite !bind_unfold, !fieldSqls_spec, !ret_unfold. fold used.
  split; [done|]. split; [done|]. intros ->. cbn. by rewrite app_nil_r.
Qed.

Lemma struct_clause_skips_blank_fields_witness :
  let name := {| structField := exampleColumn "name" "text"; IsBlank := false;
                 FieldValue := VString "bob" |} in
  let age := {| structField := exampleColumn "age" "bigint"; IsBlank := true;
                FieldValue := VInt 0 |} in
  let scope := {| PrimaryKey := "id"; scopeTableName := "users";
                  QuotedTableName := "users"; PrimaryKeyZero := true;
                  PrimaryKeyValue := VInt 0; scopePrimaryKeyField := None;
                  Fields := ∅; scopeStructFields := [];
                  NewFields := fun _ => [name; age]; Search := emptySearch |} in
  rendered (@buildWhereCondition exampleDialect scope
              (clauseOf (VStruct "User" [] None) []) []) =
  Some ("(" +:+ dquote +:+ "name" +:+ dquote +:+ " = $1)", [VString "bob"]).
Proof.
  intros name age scope.
  destruct (@struct_clause_skips_blank_fields exampleDialect scope
              (clauseOf (VStruct "User" [] None) []) "User" [] None [] eq_refl)
    as [Hwhere _].
  by rewrite Hwhere.
Defined.

(** * Not-clauses, select-clauses and the other query parts *)

Section NotClauses.
Context `{Dialect}.

Lemma notArg_scalar notEqualSql str arg vars :
  isScalarArg arg = true ->
  notArg notEqualSql str arg vars =
  Some (ReplaceFirst notEqualSql qmark (BinVar (S (length vars))),
        vars ++ [valuerValue arg]).
Proof.
  intros Harg.
  destruct arg; try done; cbn [notArg];
    by rewrite bind_unfold, AddToVars_spec, ret_unfold.
Qed.

Lemma foldM_notArg_scalars notEqualSql str arg args vars :
  forallb isScalarArg (arg :: args) = true ->
  foldM (notArg notEqualSql) str (arg :: args) vars =
  Some (ReplaceFirst notEqualSql qmark (BinVar (length vars + length (arg :: args))),
        vars ++ map valuerValue (arg :: args)).
Proof.
  revert str arg vars. induction args as [|arg' args IH]; intros str arg vars Hargs.
  - apply andb_prop in Hargs as [Harg _].
    rewrite foldM_cons, (notArg_scalar _ _ _ _ Harg), foldM_nil, ret_unfold.
    cbn [length map]. by replace (length vars + 1) with (S (length vars)) by lia.
  - apply andb_prop in Hargs as [Harg Hargs].
    rewrite foldM_cons, (notArg_scalar _ _ _ _ Harg), (IH _ _ _ Hargs).
    rewrite length_app. cbn [length map]. rewrite <- app_assoc.
    by replace (length vars + 1 + S (length args)) with (length vars + S (S (length args)))
      by lia.
Qed.

End NotClauses.

(** X5: in a not-clause whose query is a string that is not a number,
    arguments that are not slices are substituted into a fresh copy of the
    condition each: every argument is bound, but the text holds the marker
    of the last one only, at the first placeholder. For a column name the
    text is the inequality of the quoted column with the last marker. *)
Theorem buildNotCondition_last_scalar_wins `{Dialect}
    (scope : Scope) (clause : Clause) value args vars :
  clause !! "query" = Some (VString value) ->
  isNumber value = false ->
  clause !! "args" = Some (VSlice SIfaces args) ->
  args ≠ [] ->
  forallb isScalarArg args = true ->
  let last := BinVar (length vars + length args) in
  buildNotCondition scope clause vars =
    Some ((ReplaceFirst (if hasOperator value then "NOT (" +:+ value +:+ ")"
                         else "(" +:+ Quote value +:+ " <> ?)") qmark last, clause),
          vars ++ map valuerValue args) /\
  (hasOperator value = false -> noQ (Quote value) ->
   rendered (buildNotCondition scope clause vars) =
     Some ("(" +:+ Quote value +:+ " <> " +:+ last +:+ ")",
           vars ++ map valuerValue args)).
Proof.
  intros Hq Hnum Hargs Hne Hscalar last.
  destruct args as [|arg args]; [done|].
  assert (buildNotCondition scope clause vars =
          Some ((ReplaceFirst (if hasOperator value then "NOT (" +:+ value +:+ ")"
                               else "(" +:+ Quote value +:+ " <> ?)") qmark last, clause),
                vars ++ map valuerValue (arg :: args))) as Hrun.
  { unfold buildNotCondition. rewrite Hq, Hnum.
    destruct (hasOperator value); unfold notArgs; rewrite Hargs, bind_unfold;
      by rewrite (foldM_notArg_scalars _ _ _ _ _ Hscalar), ret_unfold. }
  split; [done|]. intros Hop Hquote. rewrite Hrun, Hop. cbn [rendered fmap option_fmap option_map fst snd].
  do 2 f_equal.
  rewrite <- (str_app_assoc "(" (Quote value) " <> ?)").
  change (" <> ?)") with (" <> " +:+ "?" +:+ ")").
  rewrite <- (str_app_assoc _ " <> " ("?" +:+ ")")).
  rewrite ReplaceFirst_here; [by rewrite !str_app_assoc|].
  apply noQ_app; [apply noQ_app|]; done.
Qed.

Lemma buildNotCondition_last_scalar_wins_witness :
  rendered (@buildNotCondition exampleDialect (exampleScope emptySearch)
              (clauseOf (VString "a = ? AND b = ?") [VInt 1; VInt 2]) []) =
    Some ("NOT (a = $2 AND b = ?)", [VInt 1; VInt 2]).
Proof.
  destruct (@buildNotCondition_last_scalar_wins exampleDialect (exampleScope emptySearch)
              (clauseOf (VString "a = ? AND b = ?") [VInt 1; VInt 2])
              "a = ? AND b = ?" [VInt 1; VInt 2] [] eq_refl eq_refl eq_refl
              ltac:(done) eq_refl) as [Hrun _].
  by rewrite Hrun.
Defined.

(** X6: a not-clause whose query is a column name (a string that is not a
    number and holds no operator) and whose one argument is a slice
    excludes the elements: the quoted column, NOT IN, and one marker per
    element; the elements are bound in order. An empty slice leaves an
    empty list. *)
Theorem buildNotCondition_column_not_in `{Dialect}
    (scope : Scope) (clause : Clause) value ty values vars :
  clause !! "query" = Some (VString value) ->
  isNumber value = false ->
  hasOperator value = false ->
  clause !! "args" = Some (VSlice SIfaces [VSlice ty values]) ->
  noQ (Quote value) ->
  buildNotCondition scope clause vars =
  Some (("(" +:+ Quote value +:+ " NOT IN (" +:+
         Join (markers (length vars) (length values)) "," +:+ "))", clause),
        vars ++ values).
Proof.
  intros Hq Hnum Hop Hargs Hquote. unfold buildNotCondition. rewrite Hq, Hnum, Hop.
  unfold notArgs. rewrite Hargs, bind_unfold, foldM_cons. cbn [notArg].
  rewrite bind_unfold, sliceMarks_spec, ret_unfold, foldM_nil, !ret_unfold.
  do 3 f_equal.
  rewrite <- (str_app_assoc "(" (Quote value) " NOT IN (?))").
  change (" NOT IN (?))") with (" NOT IN (" +:+ "?" +:+ "))").
  rewrite <- (str_app_assoc _ " NOT IN (" ("?" +:+ "))")).
  rewrite ReplaceFirst_here; [by rewrite !str_app_assoc|].
  apply noQ_app; [apply noQ_app|]; done.
Qed.

Lemma buildNotCondition_column_not_in_witness :
  rendered (@buildNotCondition exampleDialect (exampleScope emptySearch)
              (clauseOf (VString "name") [VSlice SStrings [VString "a"; VString "b"]]) []) =
    Some ("(" +:+ dquote +:+ "name" +:+ dquote +:+ " NOT IN ($1,$2))",
          [VString "a"; VString "b"]).
Proof.
  by rewrite (@buildNotCondition_column_not_in exampleDialect (exampleScope emptySearch)
                (clauseOf (VString "name") [VSlice SStrings [VString "a"; VString "b"]])
                "name" SStrings [VString "a"; VString "b"] []
                eq_refl eq_refl eq_refl eq_refl eq_refl).
Defined.

Lemma containsMatch_app pats pre s :
  containsMatch pats s = true -> containsMatch pats (pre +:+ s) = true.
Proof.
  intros Hs. induction pre as [|c pre IH]; [done|].
  rewrite str_app_cons. cbn [containsMatch]. rewrite IH. apply orb_true_r.
Qed.

Lemma matchSeq_space pat c s :
  Ascii.eqb c " " = false -> matchSeq ([" "] :: pat) (String c s) = false.
Proof.
  intros Hc. cbn [matchSeq matchAlt dropPrefix]. by rewrite Ascii.eqb_sym, Hc.
Qed.

Lemma hasOperator_no_space value :
  countByte " " value = 0 -> hasOperator value = false.
Proof.
  unfold hasOperator. induction value as [|c value IH]; [done|].
  cbn [countByte]. destruct (Ascii.eqb c " ") eqn:Hc; [done|]. intros Hcount.
  cbn [containsMatch]. rewrite (IH Hcount), orb_false_r.
  unfold operatorPatterns. cbn [existsb]. by rewrite !matchSeq_space.
Qed.

(** X7: the operator test of [buildNotCondition] holds for a fragment that
    has one of the operators =, <>, >, <, LIKE, IS (in either case) between
    two spaces, and fails for every fragment without a space, which is
    therefore taken as a column name. *)
Theorem hasOperator_spaced_operator (pre op post value : string) :
  (In op operators -> hasOperator (pre +:+ " " +:+ op +:+ " " +:+ post) = true) /\
  (countByte " " value = 0 -> hasOperator value = false).
Proof.
  split; [|apply hasOperator_no_space].
  intros Hop. apply containsMatch_app.
  unfold operators in Hop. cbn [In] in Hop.
  destruct Hop as [<-|[<-|[<-|[<-|[<-|[<-|[<-|[<-|[]]]]]]]]];
    rewrite ?str_app_cons, ?str_app_nil_l; done.
Qed.

Lemma hasOperator_spaced_operator_witness :
  hasOperator "name like ?" = true /\ hasOperator "name=?" = false.
Proof.
  destruct (hasOperator_spaced_operator "name" "like" "?" "name=?") as [Hyes Hno].
  split; [apply Hyes; cbn; tauto | by apply Hno].
Defined.

(** * Select-clauses, limits, callbacks and associations *)

Section SelectClauses.
Context `{Dialect}.
Variable Sprint : Value -> string.




End SelectClauses.



(** X9: a limit is rendered in exactly one place. A dialect without TOP
    writes LIMIT; a dialect with TOP writes TOP when there is no offset, and
    otherwise FETCH NEXT after the offset, where the other two texts are
    empty. *)
Theorem limit_rendered_once `{Dialect} (q : searchQuery) :
  Limit q ≠ EmptyString ->
  (topSql q, limitSql q, offsetSql q) =
  if HasTop then
    if bool_decide (Offset q = EmptyString)
    then (" TOP(" +:+ Limit q +:+ ")", EmptyString, EmptyString)
    else (EmptyString, EmptyString,
          " OFFSET " +:+ Offset q +:+ " ROW " +:+ "FETCH NEXT " +:+ Limit q +:+ " ROWS ONLY")
  else
    (EmptyString, " LIMIT " +:+ Limit q,
     if bool_decide (Offset q = EmptyString) then EmptyString
     else " OFFSET " +:+ Offset q).
Proof.
  intros Hlimit. unfold topSql, limitSql, offsetSql.
  assert ((String.length (Limit q) =? 0) = false) as Hlen.
  { apply Nat.eqb_neq. by rewrite str_length_zero. }
  assert ((0 <? String.length (Limit q)) = true) as Hpos.
  { apply Nat.ltb_lt. apply Nat.eqb_neq in Hlen. lia. }
  rewrite Hlen, Hpos.
  assert ((String.length (Offset q) =? 0) = bool_decide (Offset q = EmptyString)) as ->.
  { case_bool_decide as Hoff.
    - by rewrite Hoff.
    - apply Nat.eqb_neq. by rewrite str_length_zero. }
  destruct HasTop, (bool_decide (Offset q = EmptyString)); cbn [negb andb];
    by rewrite ?str_app_assoc.
Qed.

Lemma limit_rendered_once_witness :
  let q := {| Selects := []; Orders := []; Limit := "10"; Offset := "20";
              Group := EmptyString; HavingCondition := None; Joins := EmptyString;
              Raw := false |} in
  (@topSql exampleDialect q, @limitSql exampleDialect q, @offsetSql exampleDialect q) =
  (EmptyString, " LIMIT 10", " OFFSET 20").
Proof.
  intros q. by rewrite (@limit_rendered_once exampleDialect q).
Defined.



Section AssociationFacts.
Context `{Dialect}.

Lemma relatedFrom_valid scope toScope c fromField :
  relatedFrom scope toScope c fromField ≠ InvalidAssociation.
Proof. unfold relatedFrom. by repeat case_match. Qed.

Lemma relatedKeys_invalid scope toScope c foreignKeys :
  relatedKeys scope toScope c foreignKeys = InvalidAssociation <->
  Forall (namesNoField scope toScope) foreignKeys.
Proof.
  induction foreignKeys as [|key keys IH]; [done|].
  cbn [relatedKeys]. rewrite Forall_cons. unfold namesNoField at 1.
  destruct (Fields scope !! ToDBName key) as [fromField|].
  - split; [|by intros [[? _] _]]. intros Hrel. by apply relatedFrom_valid in Hrel.
  - destruct (Fields toScope !! ToDBName key); [|by rewrite IH; intuition].
    split; [done|]. by intros [[_ ?] _].
Qed.


End AssociationFacts.

(** X11: [related] reports an invalid association exactly when none of
    the candidate foreign keys (the given ones, then the related type's name
    and the owner type's name followed by Id) names a field of the owner or
    of the related scope. *)
Theorem related_invalid_iff `{Dialect} (scope toScope : Scope)
    (scopeType toType : GoType) (c : Catalogue) (foreignKeys : list string) :
  related scope toScope scopeType toType c foreignKeys = InvalidAssociation <->
  Forall (namesNoField scope toScope)
    (foreignKeys ++ [scope_typeName toType +:+ "Id"; scope_typeName scopeType +:+ "Id"]).
Proof. apply relatedKeys_invalid. Qed.



Lemma hasSuffix_app s suffix : hasSuffix (s +:+ suffix) suffix = true.
Proof.
  induction s as [|c s IH].
  - rewrite str_app_nil_l. destruct suffix; cbn [hasSuffix]; by rewrite String.eqb_refl.
  - rewrite str_app_cons. cbn [hasSuffix]. rewrite IH. apply orb_true_r.
Qed.

Lemma trimSuffix_app s suffix :
  suffix ≠ EmptyString -> trimSuffix (s +:+ suffix) suffix = s.
Proof.
  intros Hne. induction s as [|c s IH].
  - rewrite str_app_nil_l. destruct suffix; [done|]. cbn [trimSuffix].
    by rewrite String.eqb_refl.
  - rewrite str_app_cons. cbn [trimSuffix].
    destruct (String.eqb (String c (s +:+ suffix)) suffix) eqn:Heq.
    + apply String.eqb_eq in Heq. apply (f_equal String.length) in Heq.
      cbn [String.length] in Heq. rewrite str_length_app in Heq. lia.
    + by rewrite IH.
Qed.

(** X13: in raw mode [prepareQuerySql] unwraps the condition text: when
    the combined conditions are a text wrapped as the where assembly wraps a
    single fragment, the statement is that text, with the values the
    assembly bound. *)
Theorem prepareQuerySql_raw_unwraps `{Dialect} (Sprint : Value -> string)
    (scope : Scope) (q : searchQuery) (CombinedConditionSql : ST (list Value) string)
    text vars vars' :
  Raw q = true ->
  CombinedConditionSql vars = Some (" WHERE (" +:+ text +:+ ")", vars') ->
  prepareQuerySql Sprint scope q CombinedConditionSql vars = Some (text, vars').
Proof.
  intros Hraw Hcombined. unfold prepareQuerySql.
  rewrite Hraw, bind_unfold, Hcombined, ret_unfold. do 2 f_equal.
  unfold TrimPrefix. rewrite dropPrefix_app.
  unfold TrimSuffix. by rewrite hasSuffix_app, trimSuffix_app.
Qed.

Lemma prepareQuerySql_raw_unwraps_witness :
  @prepareQuerySql exampleDialect showScalar (exampleScope emptySearch)
    {| Selects := []; Orders := []; Limit := EmptyString; Offset := EmptyString;
       Group := EmptyString; HavingCondition := None; Joins := EmptyString;
       Raw := true |}
    (fun vars => Some (" WHERE (select f(x))", vars)) [] =
  Some ("select f(x)", []).
Proof.
  by apply (@prepareQuerySql_raw_unwraps exampleDialect showScalar
              (exampleScope emptySearch) _ _ "select f(x)" [] []).
Defined.

(** * Invariants of the schema reflector *)

Section Triples.

Lemma triple_ret {A} I (a : A) (Q : A -> Prop) : Q a -> triple I (mret a) Q.
Proof. intros HQ st a' st' HI. rewrite ret_unfold. by intros [= <- <-]. Qed.

Lemma triple_bind {A B} I (c : ST Store A) (f : A -> ST Store B)
    (Q1 : A -> Prop) (Q2 : B -> Prop) :
  triple I c Q1 -> (forall a, Q1 a -> triple I (f a) Q2) -> triple I (c ≫= f) Q2.
Proof.
  intros Hc Hf st b st' HI (a & st1 & Hrun1 & Hrun2)%bind_Some.
  destruct (Hc _ _ _ HI Hrun1) as [HI1 HQ1]. by eapply Hf.
Qed.

Lemma triple_weaken {A} I (c : ST Store A) (Q Q' : A -> Prop) :
  (forall a, Q a -> Q' a) -> triple I c Q -> triple I c Q'.
Proof.
  intros HQ Hc st a st' HI Hrun. destruct (Hc _ _ _ HI Hrun). auto.
Qed.

Lemma triple_liftOption {A} I (o : option A) (Q : A -> Prop) :
  (forall a, o = Some a -> Q a) -> triple I (liftOption o) Q.
Proof.
  intros HQ st a st' HI. unfold liftOption. destruct o as [a'|]; [|done].
  intros [= <- <-]. auto.
Qed.

End Triples.

Section Shapes.
Context `{Dialect} `{Program}.

Lemma reflectField_shape nested scopeType decl st appended pk st' :
  reflectField nested scopeType decl st = Some ((appended, pk), st') ->
  exists embedded field,
    appended = map (embed decl) embedded ++ [field] /\
    directFacts decl field pk /\
    (embedded = [] /\ st' = st \/ exists t, nested t st = Some (embedded, st')).
Proof.
  unfold reflectField. intros Hrun.
  repeat case_match;
    first [ rewrite ret_unfold in Hrun; injection Hrun as <- <- <-;
            eexists [], _; split; [reflexivity|]; split; [|by left]
          | apply bind_Some in Hrun as (embedded & st1 & Hnested & Hrun);
            rewrite ret_unfold in Hrun; injection Hrun as <- <- <-;
            eexists embedded, _; split; [reflexivity|]; split; [|right; by eexists] ];
    (split; [done|]; split; [done|]; split; [done|]; split; [done|]);
    unfold columnOrRelationship, relationshipKinds; cbn;
    (split; [try done|]; split; [try done|]).
  all: try (intros ? [= <-]; cbn).
  all: try done.
  all: repeat match goal with
       | Hx : negb _ = true |- _ => apply negb_true_iff in Hx
       | Hx : negb _ = false |- _ => apply negb_false_iff in Hx
       | Hx : String.eqb _ _ = true |- _ => apply String.eqb_eq in Hx
       | Hx : String.eqb _ _ = false |- _ => apply String.eqb_neq in Hx
       end.
  all: (split; [naive_solver|]; split;
        [ first [discriminate | intros _; assumption | done]
        | first [intros; reflexivity | intros; congruence] ]).
Qed.

End Shapes.

Section Reflected.
Context `{Dialect} `{Program}.

Lemma triple_reflectFields I nested Pl scopeType decls fields primaryKey :
  (forall t, triple I (nested t) Pl) ->
  triple I (reflectFields nested scopeType decls fields primaryKey)
    (fun r => reflected Pl decls fields primaryKey r.1 r.2).
Proof.
  intros Hnested. revert fields primaryKey.
  induction decls as [|decl decls IH]; intros fields pk st [fields' pk'] st' HI Hrun.
  - cbn [reflectFields] in Hrun. rewrite ret_unfold in Hrun. injection Hrun as <- <- <-.
    split; [done|]. constructor.
  - cbn [reflectFields] in Hrun. destruct (fieldExported decl) eqn:Hexported.
    + apply bind_Some in Hrun as ([appended b] & st1 & Hfield & Hrun).
      apply reflectField_shape in Hfield as (embedded & field & -> & Hfacts & Hembedded).
      assert (I st1 /\ (embedded = [] \/ Pl embedded)) as [HI1 Hpl].
      { destruct Hembedded as [[-> ->]|[t Ht]]; [auto|].
        destruct (Hnested t _ _ _ HI Ht); auto. }
      destruct (IH _ _ _ _ _ HI1 Hrun) as [HI' Hreflected]. split; [done|].
      by eapply reflected_field.
    + destruct (IH _ _ _ _ _ HI Hrun). split; [done|]. by constructor.
Qed.

Lemma generateSqlTag_sameField fuel field field' :
  generateSqlTag fuel field = Some field' -> sameField field field'.
Proof.
  unfold generateSqlTag. intros Hgen.
  destruct (if IsScanner field then _ else _); [|done].
  cbn in Hgen. injection Hgen as <-. by repeat split.
Qed.

Lemma markPrimaryKey_sameField field : sameField field (markPrimaryKey field).
Proof. by repeat split. Qed.

Lemma sameField_refl field : sameField field field.
Proof. by repeat split. Qed.

Lemma sameField_trans f1 f2 f3 : sameField f1 f2 -> sameField f2 f3 -> sameField f1 f3.
Proof.
  intros (? & ? & ? & ? & ? & ? & ?) (? & ? & ? & ? & ? & ? & ?).
  repeat split; try congruence. auto.
Qed.

(** The last loop keeps every field but for its flags and its tag, keeps a
    primary key that is set, and otherwise sets the first column named
    [id]. *)
Lemma finishFields_spec fuel hasDB index fields primaryKey fields' primaryKey' :
  finishFields fuel hasDB index fields primaryKey = Some (fields', primaryKey') ->
  Forall2 sameField fields fields' /\
  (hasDB = false -> Forall2 (fun f f' => SqlTag f' = SqlTag f) fields fields') /\
  match primaryKey with
  | Some i => primaryKey' = Some i
  | None =>
      match primaryKey' with
      | Some i => exists j field', i = index + j /\ fields' !! j = Some field' /\
                                   IsPrimaryKey field' = true
      | None => forall field, In field fields -> IsNormal field = true ->
                              DBName field ≠ "id"
      end
  end.
Proof.
  revert index primaryKey fields' primaryKey'.
  induction fields as [|field fields IH]; intros index pk fields' pk' Hrun.
  - cbn in Hrun. injection Hrun as <- <-. split; [constructor|]. split; [constructor|].
    destruct pk; [done|]. by intros ? [].
  - cbn [finishFields] in Hrun. destruct (IsNormal field) eqn:Hnormal.
    + set (fallback := bool_decide (pk = None) && String.eqb (DBName field) "id") in *.
      set (field1 := if fallback then markPrimaryKey field else field) in *.
      destruct (if hasDB then generateSqlTag fuel field1 else Some field1)
        as [field2|] eqn:Htag; [|done].
      cbn [mbind option_bind] in Hrun.
      destruct (finishFields fuel hasDB (S index) fields
                  (if fallback then Some index else pk)) as [[rest pk1]|] eqn:Hrest; [|done].
      cbn in Hrun. injection Hrun as <- <-.
      destruct (IH _ _ _ _ Hrest) as (Hsame & Htags & Hpk).
      assert (sameField field field1) as Hsame1.
      { subst field1. destruct fallback;
          [apply markPrimaryKey_sameField | apply sameField_refl]. }
      assert (sameField field1 field2) as Hsame2.
      { destruct hasDB; [by eapply generateSqlTag_sameField|].
        injection Htag as <-. apply sameField_refl. }
      split; [constructor; [by eapply sameField_trans|done]|].
      split.
      { intros ->. constructor; [|by apply Htags].
        injection Htag as <-. subst field1. by destruct fallback. }
      destruct pk as [i|].
      * subst fallback. cbn in Hpk. done.
      * subst fallback. cbn [bool_decide andb] in *.
        rewrite bool_decide_eq_true_2 in * by done. cbn [andb] in *.
        destruct (String.eqb (DBName field) "id") eqn:Hid.
        -- rewrite Hpk. exists 0, field2. split; [lia|]. split; [done|].
           destruct Hsame2 as (_ & _ & _ & _ & _ & _ & Hflag). by apply Hflag.
        -- destruct pk1 as [i|].
           ++ destruct Hpk as (j & field' & -> & Hj & Hflag).
              exists (S j), field'. split; [lia|]. done.
           ++ intros f [<-|Hin] Hn; [|by apply Hpk].
              by apply String.eqb_neq in Hid.
    + destruct (finishFields fuel hasDB (S index) fields pk) as [[rest pk1]|] eqn:Hrest;
        [|done].
      cbn in Hrun. injection Hrun as <- <-.
      destruct (IH _ _ _ _ Hrest) as (Hsame & Htags & Hpk).
      split; [constructor; [apply sameField_refl|done]|].
      split; [intros Hdb; constructor; [done|by apply Htags]|].
      destruct pk as [i|]; [done|]. destruct pk1 as [i|].
      * destruct Hpk as (j & field' & -> & Hj & Hflag).
        exists (S j), field'. split; [lia|]. done.
      * intros f [<-|Hin] Hn; [congruence|by apply Hpk].
Qed.

Lemma triple_nestedFields D tags fuel t :
  (forall value, triple (storeInv D tags) (GetModelStruct fuel value) (fun _ => True)) ->
  triple (storeInv D tags) (nestedFields fuel t) (fieldsOf D).
Proof.
  intros IH. unfold nestedFields.
  eapply triple_bind; [apply IH|]. intros p _.
  eapply (triple_bind _ _ _ D).
  - intros st m st' HI. unfold deref. destruct (heap st !! p) as [m'|] eqn:Hp; [|done].
    intros [= <- <-]. split; [done|]. destruct HI as [Hheap _].
    by eapply Forall_lookup_1 in Hheap.
  - intros m Hm. apply triple_ret. by exists m.
Qed.

Lemma describe_trace D tags fuel scopeType database st p st' :
  (forall value, triple (storeInv D tags) (GetModelStruct fuel value) (fun _ => True)) ->
  storeInv D tags st ->
  describe fuel scopeType database st = Some (p, st') ->
  exists tableName fields0 pk0 fields pk st1,
    modelTableName scopeType
      (match database with Some d => singularTable d | None => false end) =
      Some tableName /\
    reflected (fieldsOf D) (declFields (structDecl scopeType)) [] None fields0 pk0 /\
    finishFields fuel (bool_decide (is_Some database)) 0 fields0 pk0 = Some (fields, pk) /\
    storeInv D tags st1 /\
    (is_Some (db st1) <-> is_Some (db st)) /\
    p = length (heap st1) /\
    heap st' = heap st1 ++ [{| PrimaryKeyField := pk; StructFields := fields;
                               TableName := tableName |}] /\
    db st' = (fun d => {| singularTable := singularTable d;
                          ModelStructs := <[scopeType := p]> (ModelStructs d) |})
             <$> db st1.
Proof.
  intros IH HI Hrun. unfold describe in Hrun.
  apply bind_Some in Hrun as (tableName & st0 & Hname & Hrun).
  apply bind_Some in Hrun as ([fields0 pk0] & st1 & Hfields & Hrun).
  apply bind_Some in Hrun as ([fields pk] & st2 & Hfinish & Hrun).
  apply bind_Some in Hrun as (p' & st3 & Halloc & Hrun).
  apply bind_Some in Hrun as ([] & st4 & Hremember & Hrun).
  rewrite ret_unfold in Hrun.
  unfold liftOption in Hname, Hfinish.
  destruct (modelTableName _ _) as [name|] eqn:Hmodel; [|done].
  destruct (finishFields _ _ _ _ _) as [[? ?]|] eqn:Hfin; [|done].
  injection Hname as <- <-. injection Hfinish as <- <- <-.
  assert (is_Some (db st1) <-> is_Some (db st)) as Hdb.
  { eapply keepsDB_reflectFields; [|exact Hfields].
    intros t. unfold nestedFields.
    apply keepsDB_bind; [apply keepsDB_GetModelStruct|]. intros ?.
    apply keepsDB_bind; [apply keepsDB_deref|]. intros ?. apply keepsDB_ret. }
  eapply (triple_reflectFields (storeInv D tags)) in Hfields as [HI1 Hreflected];
    [| intros t; by apply triple_nestedFields | done].
  unfold alloc in Halloc. unfold remember in Hremember.
  simplify_eq/=. by eexists _, _, _, _, _, _.
Qed.

Lemma GetModelStruct_pointer fuel value st p st' :
  validCache st ->
  GetModelStruct fuel value st = Some (p, st') ->
  p < length (heap st').
Proof.
  intros Hvalid Hrun. destruct fuel as [|fuel]; [done|].
  assert (forall m, alloc m st = Some (p, st') -> p < length (heap st')) as Halloc.
  { intros m. unfold alloc. intros [= <- <-]. cbn. rewrite length_app. cbn. lia. }
  destruct value as [value|]; [|by eapply Halloc].
  rewrite GetModelStruct_unfold in Hrun.
  destruct (db st ≫= _) as [q|] eqn:Hcache.
  - injection Hrun as <- <-. destruct (db st) as [d|] eqn:Hd; [|done].
    by eapply Hvalid.
  - destruct (scopeTypeOf value); try by eapply Halloc.
    apply describe_result in Hrun as (? & ? & ? & st1 & _ & -> & -> & _).
    rewrite length_app. cbn. lia.
Qed.

Section GenericInvariant.
Variable D : ModelStruct -> Prop.
Variable tags : bool.
Hypothesis D_empty : D emptyModelStruct.
Hypothesis D_describe :
  forall scopeType fuel hasDB fields0 pk0 fields pk tableName,
    reflected (fieldsOf D) (declFields (structDecl scopeType)) [] None fields0 pk0 ->
    finishFields fuel hasDB 0 fields0 pk0 = Some (fields, pk) ->
    (hasDB = true -> tags = true) ->
    D {| PrimaryKeyField := pk; StructFields := fields; TableName := tableName |}.

Lemma storeInv_alloc m st p st' :
  D m -> storeInv D tags st -> alloc m st = Some (p, st') -> storeInv D tags st'.
Proof.
  intros Hm (Hheap & Hvalid & Htags). unfold alloc. intros [= <- <-].
  split; [|split].
  - unfold heapInv. cbn. apply Forall_app. split; [done|]. by constructor.
  - intros d t q Hd Hq. cbn in *. rewrite length_app. cbn.
    specialize (Hvalid d t q Hd Hq). lia.
  - done.
Qed.

Lemma GetModelStruct_storeInv fuel value :
  triple (storeInv D tags) (GetModelStruct fuel value) (fun _ => True).
Proof.
  revert value. induction fuel as [|fuel IH]; intros value st p st' HI Hrun; [done|].
  split; [|done].
  destruct value as [value|]; [|by eapply (storeInv_alloc emptyModelStruct)].
  rewrite GetModelStruct_unfold in Hrun.
  destruct (db st ≫= _) as [q|] eqn:Hcache; [by injection Hrun as <- <-|].
  destruct (scopeTypeOf value) as [?|pkg name|?|?] eqn:Htype;
    try by eapply (storeInv_alloc emptyModelStruct).
  apply (describe_trace D tags) in Hrun
    as (tableName & fields0 & pk0 & fields & pk & st1 & _ & Hreflected & Hfinish &
        (Hheap1 & Hvalid1 & Htags1) & Hdb1 & -> & Hheap' & Hdb'); [|done|done].
  destruct HI as (_ & _ & Htags).
  split; [|split].
  - unfold heapInv. rewrite Hheap'. apply Forall_app. split; [done|].
    constructor; [|done]. eapply D_describe; [done..|].
    intros Hdb%bool_decide_eq_true. auto.
  - intros d t q Hd Hq. rewrite Hheap', length_app. cbn.
    rewrite Hdb' in Hd. destruct (db st1) as [d1|] eqn:Hd1; [|done].
    injection Hd as <-. cbn in Hq.
    destruct (decide (t = TStruct pkg name)) as [->|Hne].
    + rewrite lookup_insert_eq in Hq. injection Hq as <-. lia.
    + rewrite lookup_insert_ne in Hq by done.
      specialize (Hvalid1 d1 t q Hd1 Hq). lia.
  - intros Hsome. apply Htags, Hdb1. rewrite Hdb' in Hsome.
    by rewrite fmap_is_Some in Hsome.
Qed.

Lemma GetModelStruct_descriptor fuel value st p st' :
  storeInv D tags st ->
  GetModelStruct fuel value st = Some (p, st') ->
  storeInv D tags st' /\ exists m, heap st' !! p = Some m /\ D m.
Proof.
  intros HI Hrun.
  destruct (GetModelStruct_storeInv fuel value st p st' HI Hrun) as [HI' _].
  split; [done|].
  pose proof HI as (_ & Hvalid & _).
  apply (GetModelStruct_pointer _ _ _ _ _ Hvalid) in Hrun.
  apply lookup_lt_is_Some_2 in Hrun as [m Hm]. exists m. split; [done|].
  destruct HI' as [Hheap _]. by eapply Forall_lookup_1 in Hheap.
Qed.

End GenericInvariant.

End Reflected.

(** * What every descriptor satisfies *)

Section DescriptorFacts.
Context `{Dialect} `{Program}.

Lemma reflected_Forall (P : StructField -> Prop) Pl decls fields pk fields' pk' :
  (forall l, Pl l -> Forall P l) ->
  (forall decl field b, directFacts decl field b -> P field) ->
  (forall decl field, P field -> P (embed decl field)) ->
  Forall P fields ->
  reflected Pl decls fields pk fields' pk' ->
  Forall P fields'.
Proof.
  intros Hnested Hdirect Hembed Hfields Hreflected.
  induction Hreflected as [| |decl decls fields pk embedded field b fields' pk'
                             _ Hembedded Hfacts _ IH]; [done|auto|].
  apply IH. apply Forall_app. split; [done|]. apply Forall_app. split.
  - apply Forall_fmap. destruct Hembedded as [->|Hpl]; [constructor|].
    eapply Forall_impl; [by apply Hnested|]. intros f Hf. by apply Hembed.
  - constructor; [|done]. by eapply Hdirect.
Qed.

Lemma Forall_Forall2 {A} (P : A -> Prop) (R : A -> A -> Prop) l l' :
  (forall x y, P x -> R x y -> P y) -> Forall P l -> Forall2 R l l' -> Forall P l'.
Proof.
  intros HR Hl Hll'. induction Hll' as [|x y l l' Hxy _ IH]; [done|].
  apply Forall_cons in Hl as [Hx Hl]. constructor; [by eapply HR|by apply IH].
Qed.

Lemma fieldsOf_allFields P l : fieldsOf (allFields P) l -> Forall P l.
Proof. by intros (m & Hm & ->). Qed.

Lemma namesEndInName_embed decl field :
  namesEndInName field -> namesEndInName (embed decl field).
Proof.
  unfold namesEndInName. cbn. destruct (Names field) as [|n names]; [done|].
  by rewrite last_cons_cons.
Qed.

Lemma describe_namesEndInName scopeType fuel hasDB fields0 pk0 fields pk tableName :
  reflected (fieldsOf (allFields namesEndInName))
    (declFields (structDecl scopeType)) [] None fields0 pk0 ->
  finishFields fuel hasDB 0 fields0 pk0 = Some (fields, pk) ->
  (hasDB = true -> true = true) ->
  allFields namesEndInName
    {| PrimaryKeyField := pk; StructFields := fields; TableName := tableName |}.
Proof.
  intros Hreflected Hfinish _. unfold allFields. cbn.
  apply finishFields_spec in Hfinish as (Hsame & _ & _).
  eapply Forall_Forall2; [|
    eapply (reflected_Forall namesEndInName); [| | |constructor|exact Hreflected]|exact Hsame].
  - intros f f' Hf (_ & Hname & Hnames & _). unfold namesEndInName in *. congruence.
  - apply fieldsOf_allFields.
  - intros decl field b (Hname & Hnames & _). unfold namesEndInName.
    by rewrite Hnames, Hname.
  - apply namesEndInName_embed.
Qed.

Lemma columnOrRelationship_same field field' :
  columnOrRelationship field -> sameField field field' -> columnOrRelationship field'.
Proof.
  unfold columnOrRelationship.
  intros Hfield (Hdb & _ & _ & Hnormal & Hignored & Hrel & _).
  by rewrite Hdb, Hnormal, Hignored, Hrel.
Qed.

Lemma describe_columnOrRelationship scopeType fuel hasDB fields0 pk0 fields pk tableName :
  reflected (fieldsOf (allFields columnOrRelationship))
    (declFields (structDecl scopeType)) [] None fields0 pk0 ->
  finishFields fuel hasDB 0 fields0 pk0 = Some (fields, pk) ->
  (hasDB = true -> true = true) ->
  allFields columnOrRelationship
    {| PrimaryKeyField := pk; StructFields := fields; TableName := tableName |}.
Proof.
  intros Hreflected Hfinish _. unfold allFields. cbn.
  apply finishFields_spec in Hfinish as (Hsame & _ & _).
  eapply Forall_Forall2; [|
    eapply (reflected_Forall columnOrRelationship);
      [| | |constructor|exact Hreflected]|exact Hsame].
  - apply columnOrRelationship_same.
  - apply fieldsOf_allFields.
  - by intros decl field b (_ & _ & _ & _ & Hfield).
  - by intros decl field Hfield.
Qed.

Lemma describe_untagged scopeType fuel hasDB fields0 pk0 fields pk tableName :
  reflected (fieldsOf (allFields (fun field => SqlTag field = EmptyString)))
    (declFields (structDecl scopeType)) [] None fields0 pk0 ->
  finishFields fuel hasDB 0 fields0 pk0 = Some (fields, pk) ->
  (hasDB = true -> false = true) ->
  allFields (fun field => SqlTag field = EmptyString)
    {| PrimaryKeyField := pk; StructFields := fields; TableName := tableName |}.
Proof.
  intros Hreflected Hfinish Htags. unfold allFields. cbn.
  assert (hasDB = false) as -> by (destruct hasDB; [by specialize (Htags eq_refl)|done]).
  apply finishFields_spec in Hfinish as (_ & Hsame & _).
  eapply Forall_Forall2; [|
    eapply (reflected_Forall (fun field => SqlTag field = EmptyString));
      [| | |constructor|exact Hreflected]|exact (Hsame eq_refl)].
  - intros f f' Hf Hff'. cbn in *. congruence.
  - apply fieldsOf_allFields.
  - by intros decl field b (_ & _ & Htag & _).
  - by intros decl field Hfield.
Qed.

Lemma reflected_primaryKeyAt Pl decls fields pk fields' pk' :
  primaryKeyAt fields pk ->
  reflected Pl decls fields pk fields' pk' ->
  primaryKeyAt fields' pk'.
Proof.
  intros Hpk Hreflected.
  induction Hreflected as [| |decl decls fields pk embedded field b fields' pk'
                             _ _ Hfacts _ IH]; [done|auto|].
  apply IH. intros i Hi. destruct b.
  - injection Hi as <-. exists field. split; [|by destruct Hfacts as (_ & _ & _ & ? & _)].
    rewrite app_assoc, length_app. cbn [length].
    replace (length (fields ++ map (embed decl) embedded) + 1 - 1)
      with (length (fields ++ map (embed decl) embedded)) by lia.
    by apply list_lookup_middle.
  - destruct (Hpk i Hi) as (f & Hf & Hflag). exists f. split; [|done].
    by apply lookup_app_l_Some.
Qed.

Lemma describe_primaryKeyOK scopeType fuel hasDB fields0 pk0 fields pk tableName :
  reflected (fieldsOf primaryKeyOK)
    (declFields (structDecl scopeType)) [] None fields0 pk0 ->
  finishFields fuel hasDB 0 fields0 pk0 = Some (fields, pk) ->
  (hasDB = true -> true = true) ->
  primaryKeyOK
    {| PrimaryKeyField := pk; StructFields := fields; TableName := tableName |}.
Proof.
  intros Hreflected Hfinish _.
  apply reflected_primaryKeyAt in Hreflected; [|by intros i].
  apply finishFields_spec in Hfinish as (Hsame & _ & Hpk).
  unfold primaryKeyOK. cbn. destruct pk0 as [i0|].
  - subst pk. split; [|done]. intros i [= <-].
    destruct (Hreflected i0 eq_refl) as (f & Hf & Hflag).
    destruct (Forall2_lookup_l _ _ _ _ _ Hsame Hf) as (f' & Hf' & Hff').
    exists f'. split; [done|]. destruct Hff' as (_ & _ & _ & _ & _ & _ & Hkeep). auto.
  - destruct pk as [i|].
    + split; [|done]. intros i' [= <-].
      destruct Hpk as (j & f' & -> & Hj & Hflag). by exists f'.
    + split; [by intros i|]. intros _ f' Hin Hnormal.
      apply list_elem_of_In, list_elem_of_lookup in Hin as [j Hj].
      destruct (Forall2_lookup_r _ _ _ _ _ Hsame Hj) as (f & Hf & Hff').
      destruct Hff' as (Hdb & _ & _ & Hn & _). rewrite Hdb.
      apply Hpk; [|congruence].
      apply list_elem_of_In. by eapply list_elem_of_lookup_2.
Qed.

Lemma storeInv_empty D tags database :
  (is_Some database -> tags = true) ->
  (forall d, database = Some d -> ModelStructs d = ∅) ->
  storeInv D tags (emptyStore database).
Proof.
  intros Htags Hcache. split; [constructor|]. split; [|done].
  intros d t p Hd Hp. cbn in Hd. by rewrite (Hcache d Hd), lookup_empty in Hp.
Qed.

Lemma filter_embedded decl embedded :
  Forall namesEndInName embedded ->
  filter (fun field => ownField field = true) (map (embed decl) embedded) = [].
Proof.
  induction 1 as [|field embedded Hfield _ IH]; [done|].
  cbn [map]. rewrite filter_cons_False; [done|].
  unfold ownField, namesEndInName in *. cbn.
  destruct (Names field) as [|n names]; [done|]. done.
Qed.

Lemma reflected_ownNames Pl decls fields pk fields' pk' :
  (forall l, Pl l -> Forall namesEndInName l) ->
  reflected Pl decls fields pk fields' pk' ->
  map Name (filter (fun field => ownField field = true) fields') =
  map Name (filter (fun field => ownField field = true) fields) ++ exportedNames decls.
Proof.
  intros Hnested Hreflected.
  induction Hreflected as [| decl decls fields pk fields' pk' Hexported _ IH
                           |decl decls fields pk embedded field b fields' pk'
                             Hexported Hembedded Hfacts _ IH].
  - unfold exportedNames. cbn. by rewrite app_nil_r.
  - rewrite IH. unfold exportedNames. rewrite filter_cons_False; [done|].
    by rewrite Hexported.
  - rewrite IH. unfold exportedNames. rewrite (filter_cons_True _ decl) by done.
    rewrite !filter_app, filter_embedded.
    + destruct Hfacts as (Hname & Hnames & _).
      rewrite filter_cons_True by (unfold ownField; by rewrite Hnames).
      rewrite filter_nil, app_nil_l, map_app. cbn [map]. rewrite Hname.
      by rewrite <- app_assoc.
    + destruct Hembedded as [->|Hpl]; [constructor|by apply Hnested].
Qed.

Lemma sameField_ownNames fields fields' :
  Forall2 sameField fields fields' ->
  map Name (filter (fun field => ownField field = true) fields') =
  map Name (filter (fun field => ownField field = true) fields).
Proof.
  induction 1 as [|f f' fields fields' (_ & Hname & Hnames & _) _ IH]; [done|].
  unfold ownField in *.
  destruct (length (Names f) =? 1) eqn:Hown.
  - rewrite !filter_cons_True by (by rewrite ?Hnames). cbn [map]. by rewrite IH, Hname.
  - rewrite !filter_cons_False by (by rewrite ?Hnames, Hown). done.
Qed.

End DescriptorFacts.

(** ** The descriptors of the reflector *)

(** X14: [Names] of every field of a descriptor is the path of embedding
    fields that leads to it and ends in the field's own [Name]; this holds
    for the descriptors [GetModelStruct] adds to a store in which it holds,
    and for the one it returns. *)
Theorem GetModelStruct_names_end_in_name `{Dialect} `{Program}
    (fuel : nat) (value : option GoType) (st : Store) p st' :
  storeInv (allFields namesEndInName) true st ->
  GetModelStruct fuel value st = Some (p, st') ->
  storeInv (allFields namesEndInName) true st' /\
  exists m, heap st' !! p = Some m /\ allFields namesEndInName m.
Proof.
  apply (GetModelStruct_descriptor (allFields namesEndInName) true).
  - constructor.
  - apply describe_namesEndInName.
Qed.

Lemma GetModelStruct_names_end_in_name_witness :
  exists p st' m,
    @GetModelStruct exampleDialect exampleProgram 3 (Some Category)
      (emptyStore (Some emptyDB)) = Some (p, st') /\
    heap st' !! p = Some m /\
    map Names (StructFields m) = [["Model"; "Id"]; ["Model"; "DeletedAt"]; ["Model"]; ["Name"]] /\
    allFields namesEndInName m.
Proof.
  destruct (@GetModelStruct exampleDialect exampleProgram 3 (Some Category)
              (emptyStore (Some emptyDB))) as [[p st']|] eqn:Hrun;
    [|by vm_compute in Hrun].
  destruct (@GetModelStruct_names_end_in_name exampleDialect exampleProgram 3
              (Some Category) (emptyStore (Some emptyDB)) p st')
    as (_ & m & Hm & Hnames); [by apply storeInv_empty; [|intros d [= <-]]|done|].
  exists p, st', m. split; [done|]. split; [done|]. split; [|done].
  vm_compute in Hrun. injection Hrun as <- <-.
  vm_compute in Hm. by injection Hm as <-.
Defined.

(** X15: every field of a descriptor is a column, a relationship, ignored
    or none of these, and never two of them: a column (normal field) has no
    relationship and is not ignored, an ignored field has no column name and
    no relationship, and a relationship has one of the four kinds, with a
    join table exactly when it is many-to-many. *)
Theorem GetModelStruct_column_or_relationship `{Dialect} `{Program}
    (fuel : nat) (value : option GoType) (st : Store) p st' :
  storeInv (allFields columnOrRelationship) true st ->
  GetModelStruct fuel value st = Some (p, st') ->
  storeInv (allFields columnOrRelationship) true st' /\
  exists m, heap st' !! p = Some m /\ allFields columnOrRelationship m.
Proof.
  apply (GetModelStruct_descriptor (allFields columnOrRelationship) true).
  - constructor.
  - apply describe_columnOrRelationship.
Qed.

Lemma GetModelStruct_column_or_relationship_witness :
  exists p st' m,
    @GetModelStruct exampleDialect exampleProgram 3 (Some Category)
      (emptyStore (Some emptyDB)) = Some (p, st') /\
    heap st' !! p = Some m /\
    map IsNormal (StructFields m) = [true; true; false; true] /\
    allFields columnOrRelationship m.
Proof.
  destruct (@GetModelStruct exampleDialect exampleProgram 3 (Some Category)
              (emptyStore (Some emptyDB))) as [[p st']|] eqn:Hrun;
    [|by vm_compute in Hrun].
  destruct (@GetModelStruct_column_or_relationship exampleDialect exampleProgram 3
              (Some Category) (emptyStore (Some emptyDB)) p st')
    as (_ & m & Hm & Hfields); [by apply storeInv_empty; [|intros d [= <-]]|done|].
  exists p, st', m. split; [done|]. split; [done|]. split; [|done].
  vm_compute in Hrun. injection Hrun as <- <-.
  vm_compute in Hm. by injection Hm as <-.
Defined.

(** X16: the primary key of a descriptor is one of its fields, and that
    field is flagged as primary key; a descriptor without a primary key
    has no column named [id]. *)
Theorem GetModelStruct_primary_key `{Dialect} `{Program}
    (fuel : nat) (value : option GoType) (st : Store) p st' :
  storeInv primaryKeyOK true st ->
  GetModelStruct fuel value st = Some (p, st') ->
  storeInv primaryKeyOK true st' /\
  exists m, heap st' !! p = Some m /\ primaryKeyOK m.
Proof.
  apply (GetModelStruct_descriptor primaryKeyOK true).
  - split; [by intros i|]. by intros _ f [].
  - apply describe_primaryKeyOK.
Qed.

Lemma GetModelStruct_primary_key_witness :
  exists p st' m,
    @GetModelStruct exampleDialect exampleProgram 3 (Some Category)
      (emptyStore (Some emptyDB)) = Some (p, st') /\
    heap st' !! p = Some m /\
    PrimaryKeyField m = Some 0 /\
    primaryKeyOK m.
Proof.
  destruct (@GetModelStruct exampleDialect exampleProgram 3 (Some Category)
              (emptyStore (Some emptyDB))) as [[p st']|] eqn:Hrun;
    [|by vm_compute in Hrun].
  destruct (@GetModelStruct_primary_key exampleDialect exampleProgram 3
              (Some Category) (emptyStore (Some emptyDB)) p st')
    as (_ & m & Hm & Hpk); [by apply storeInv_empty; [|intros d [= <-]]|done|].
  exists p, st', m. split; [done|]. split; [done|]. split; [|done].
  vm_compute in Hrun. injection Hrun as <- <-.
  vm_compute in Hm. by injection Hm as <-.
Defined.

(** X17: without a database handle no field of the returned descriptor
    has an SQL tag: the column types are generated only for a scope with a
    database handle. *)
Theorem GetModelStruct_untagged_without_db `{Dialect} `{Program}
    (fuel : nat) (value : option GoType) (st : Store) p st' :
  db st = None ->
  GetModelStruct fuel value st = Some (p, st') ->
  exists m, heap st' !! p = Some m /\
            allFields (fun field => SqlTag field = EmptyString) m.
Proof.
  intros Hdb Hrun.
  destruct (PureAlloc_GetModelStruct fuel value) as [[[l m]|] Hpure];
    rewrite Hpure in Hrun by done; [|done].
  injection Hrun as <- <-. exists m. split.
  { cbn [heap]. rewrite (app_assoc (heap st)). by apply list_lookup_middle. }
  specialize (Hpure (emptyStore None) eq_refl). cbn [heap emptyStore app] in Hpure.
  destruct (GetModelStruct_descriptor
              (allFields (fun field => SqlTag field = EmptyString)) false
              ltac:(constructor) describe_untagged fuel value (emptyStore None) _ _
              ltac:(by apply storeInv_empty; [intros []|]) Hpure)
    as (_ & m' & Hm' & Htags).
  cbn [heap] in Hm'. rewrite list_lookup_middle in Hm' by done. by injection Hm' as <-.
Qed.

Lemma GetModelStruct_untagged_without_db_witness :
  exists p st' m,
    @GetModelStruct exampleDialect exampleProgram 3 (Some Category)
      (emptyStore None) = Some (p, st') /\
    heap st' !! p = Some m /\
    map DBName (StructFields m) = ["id"; "deleted_at"; "model"; "name"] /\
    allFields (fun field => SqlTag field = EmptyString) m.
Proof.
  destruct (@GetModelStruct exampleDialect exampleProgram 3 (Some Category)
              (emptyStore None)) as [[p st']|] eqn:Hrun;
    [|by vm_compute in Hrun].
  destruct (@GetModelStruct_untagged_without_db exampleDialect exampleProgram 3
              (Some Category) (emptyStore None) p st' eq_refl Hrun)
    as (m & Hm & Htags).
  exists p, st', m. split; [done|]. split; [done|]. split; [|done].
  vm_compute in Hrun. injection Hrun as <- <-.
  vm_compute in Hm. by injection Hm as <-.
Defined.

(** X18: a descriptor that [GetModelStruct] computes for a struct type
    holds one field of its own for every exported field of the type, in the
    order of declaration and under its name, and none for an unexported
    field; the other fields are those taken over from embedded structs. *)
Theorem GetModelStruct_exported_fields `{Dialect} `{Program}
    (fuel : nat) (value : GoType) pkg name (st : Store) p st' :
  storeInv (allFields namesEndInName) true st ->
  scopeTypeOf value = TStruct pkg name ->
  db st ≫= (fun d => ModelStructs d !! TStruct pkg name) = None ->
  GetModelStruct fuel (Some value) st = Some (p, st') ->
  exists m,
    heap st' !! p = Some m /\
    map Name (filter (fun field => ownField field = true) (StructFields m)) =
    exportedNames (declFields (structDecl (TStruct pkg name))).
Proof.
  intros HI Htype Hcache Hrun. destruct fuel as [|fuel]; [done|].
  rewrite GetModelStruct_unfold, Htype, Hcache in Hrun.
  apply (describe_trace (allFields namesEndInName) true) in Hrun
    as (tableName & fields0 & pk0 & fields & pk & st1 & _ & Hreflected & Hfinish &
        _ & _ & -> & Hheap' & _); [| |done].
  - eexists. split; [rewrite Hheap'; by apply list_lookup_middle|]. cbn.
    apply finishFields_spec in Hfinish as (Hsame & _ & _).
    rewrite (sameField_ownNames _ _ Hsame).
    by rewrite (reflected_ownNames _ _ _ _ _ _ (fieldsOf_allFields _) Hreflected).
  - intros v. apply (GetModelStruct_storeInv (allFields namesEndInName) true).
    + constructor.
    + apply describe_namesEndInName.
Qed.

Lemma GetModelStruct_exported_fields_witness :
  exists p st' m,
    @GetModelStruct exampleDialect exampleProgram 3 (Some Category)
      (emptyStore (Some emptyDB)) = Some (p, st') /\
    heap st' !! p = Some m /\
    map Name (StructFields m) = ["Id"; "DeletedAt"; "Model"; "Name"] /\
    map Name (filter (fun field => ownField field = true) (StructFields m)) =
      ["Model"; "Name"].
Proof.
  destruct (@GetModelStruct exampleDialect exampleProgram 3 (Some Category)
              (emptyStore (Some emptyDB))) as [[p st']|] eqn:Hrun;
    [|by vm_compute in Hrun].
  destruct (@GetModelStruct_exported_fields exampleDialect exampleProgram 3
              Category "main" "Category" (emptyStore (Some emptyDB)) p st')
    as (m & Hm & Hnames); [by apply storeInv_empty; [|intros d [= <-]]|done|done|done|].
  exists p, st', m. split; [done|]. split; [done|]. split; [|done].
  vm_compute in Hrun. injection Hrun as <- <-.
  vm_compute in Hm. by injection Hm as <-.
Defined.

(** X19: with a database handle, the values of one struct type share one
    descriptor whatever their shape: after a call for a value, a pointer
    or a slice of the type, a call for any other of these returns the same
    pointer and leaves the store as it is. *)
Theorem GetModelStruct_shared_descriptor `{Dialect} `{Program}
    (fuel fuel' : nat) (value value' : GoType) pkg name (st : Store) p st' :
  scopeTypeOf value = TStruct pkg name ->
  scopeTypeOf value' = TStruct pkg name ->
  is_Some (db st) ->
  GetModelStruct fuel (Some value) st = Some (p, st') ->
  GetModelStruct (S fuel') (Some value') st' = Some (p, st').
Proof.
  intros Htype Htype' Hdb Hrun. apply GetModelStruct_cached.
  rewrite Htype', <- Htype. by eapply GetModelStruct_remembers.
Qed.

Lemma GetModelStruct_shared_descriptor_witness :
  exists p st',
    @GetModelStruct exampleDialect exampleProgram 3 (Some (TSlice (TPtr Category)))
      (emptyStore (Some emptyDB)) = Some (p, st') /\
    @GetModelStruct exampleDialect exampleProgram 1 (Some Category) st' = Some (p, st').
Proof.
  destruct (@GetModelStruct exampleDialect exampleProgram 3 (Some (TSlice (TPtr Category)))
              (emptyStore (Some emptyDB))) as [[p st']|] eqn:Hrun;
    [|by vm_compute in Hrun].
  exists p, st'. split; [done|].
  apply (@GetModelStruct_shared_descriptor exampleDialect exampleProgram 3 0
           (TSlice (TPtr Category)) Category "main" "Category"
           (emptyStore (Some emptyDB)) p st' eq_refl eq_refl); [by eexists|done].
Defined.

(** X20: the table name of a descriptor computed for a struct type with a
    [TableName] method is what the method returns, in singular mode too, and
    is empty when the method returns no string; when the method takes
    arguments the call panics. Without the method, singular mode leaves the
    snake-cased type name as it is. *)
Theorem GetModelStruct_table_name_method `{Dialect} `{Program}
    (fuel : nat) (value : GoType) pkg name (st : Store) :
  scopeTypeOf value = TStruct pkg name ->
  db st ≫= (fun d => ModelStructs d !! TStruct pkg name) = None ->
  match declTableName (structDecl (TStruct pkg name)) with
  | TableNameWithArgs => GetModelStruct fuel (Some value) st = None
  | method =>
      forall p st', GetModelStruct fuel (Some value) st = Some (p, st') ->
      exists m, heap st' !! p = Some m /\
        TableName m =
        match method with
        | TableNameResult (Some tableName) => tableName
        | NoTableName =>
            if match db st with Some d => singularTable d | None => false end
            then ToDBName name
            else pluralize 0 pluralMapKeys (ToDBName name)
        | _ => EmptyString
        end
  end.
Proof.
  intros Htype Hcache.
  assert (forall p st', GetModelStruct fuel (Some value) st = Some (p, st') ->
            exists m, heap st' !! p = Some m /\
              modelTableName (TStruct pkg name)
                (match db st with Some d => singularTable d | None => false end) =
              Some (TableName m)) as Hname.
  { intros p st' Hrun. destruct fuel as [|fuel]; [done|].
    rewrite GetModelStruct_unfold, Htype, Hcache in Hrun.
    by apply describe_TableName in Hrun. }
  unfold modelTableName in Hname.
  destruct (declTableName (structDecl (TStruct pkg name))) as [| |[tableName|]].
  - intros p st' Hrun. destruct (Hname p st' Hrun) as (m & Hm & [= Heq]).
    exists m. split; [done|]. by rewrite <- Heq.
  - destruct (GetModelStruct fuel (Some value) st) as [[p st']|]; [|done].
    by destruct (Hname p st' eq_refl) as (m & _ & ?).
  - intros p st' Hrun. destruct (Hname p st' Hrun) as (m & Hm & [= Heq]).
    exists m. split; [done|]. by rewrite <- Heq.
  - intros p st' Hrun. destruct (Hname p st' Hrun) as (m & Hm & [= Heq]).
    exists m. split; [done|]. by rewrite <- Heq.
Qed.

Lemma GetModelStruct_table_name_method_witness :
  exists p st' m,
    @GetModelStruct exampleDialect exampleProgram 3 (Some Category)
      (emptyStore (Some {| singularTable := true; ModelStructs := ∅ |})) = Some (p, st') /\
    heap st' !! p = Some m /\ TableName m = "category".
Proof.
  destruct (@GetModelStruct exampleDialect exampleProgram 3 (Some Category)
              (emptyStore (Some {| singularTable := true; ModelStructs := ∅ |})))
    as [[p st']|] eqn:Hrun; [|by vm_compute in Hrun].
  assert (db (emptyStore (Some {| singularTable := true; ModelStructs := ∅ |}))
            ≫= (fun d => ModelStructs d !! Category) = None) as Hcache by done.
  destruct (@GetModelStruct_table_name_method exampleDialect exampleProgram 3
              Category "main" "Category"
              (emptyStore (Some {| singularTable := true; ModelStructs := ∅ |}))
              eq_refl Hcache p st' Hrun) as (m & Hm & Hname).
  exists p, st', m. split; [reflexivity|]. split; [exact Hm|].
  etrans; [exact Hname|]. vm_compute. reflexivity.
Defined.

(** ** SQL tags *)

(** A text that holds the letter D is not blank. *)
Lemma isBlankString_letter n : forall a r,
  String.length a <= n -> isBlankString (a +:+ String "D" r) = false.
Proof.
  induction n as [|n IH]; intros a r Hlen.
  - destruct a; [|cbn in Hlen; lia]. rewrite str_app_nil_l. by destruct r.
  - destruct a as [|c a]; [rewrite str_app_nil_l; by destruct r|].
    cbn [String.length] in Hlen. rewrite str_app_cons.
    assert (isBlankString (a +:+ String "D" r) = false) as Hrest by (apply IH; lia).
    destruct c as [[] [] [] [] [] [] [] []]; try done; cbn [isBlankString isAsciiSpace].
    all: try exact Hrest.
    all: destruct a as [|d a]; [rewrite str_app_nil_l; by destruct r|].
    all: rewrite str_app_cons.
    all: try (rewrite (IH a r) by (cbn in Hlen; lia); apply andb_false_r).
    all: destruct d as [[] [] [] [] [] [] [] []]; try done.
    all: destruct a as [|e a]; [rewrite str_app_nil_l; by destruct r|].
    all: rewrite str_app_cons.
    all: try (rewrite (IH a r) by (cbn in Hlen; lia); apply andb_false_r).
    all: destruct e as [[] [] [] [] [] [] [] []]; try done.
    all: apply IH; cbn in Hlen; lia.
Qed.

(** X21: with a TYPE setting that is not empty in the field's sql tag,
    the tag [generateSqlTag] gives the field starts with that type and does
    not depend on the dialect, which is not asked. *)
Theorem generateSqlTag_explicit_type (dialect1 dialect2 : Dialect) `{Program}
    (fuel : nat) (field : StructField) sqlType :
  parseTagSetting (sqlTag (Struct field)) !! "TYPE" = Some sqlType ->
  sqlType ≠ EmptyString ->
  @generateSqlTag dialect1 _ fuel field = @generateSqlTag dialect2 _ fuel field /\
  forall field', @generateSqlTag dialect1 _ fuel field = Some field' ->
    exists rest, SqlTag field' = sqlType +:+ rest.
Proof.
  intros Htype Hne. unfold generateSqlTag, setting. rewrite Htype. cbn [default from_option id].
  apply String.eqb_neq in Hne. rewrite Hne. split; [done|].
  intros field'. destruct (if IsScanner field then _ else _); [|done].
  cbn. intros [= <-]. cbn. destruct (isBlankString _).
  - exists EmptyString. by rewrite str_app_nil_r.
  - by eexists.
Qed.

Lemma generateSqlTag_explicit_type_witness :
  let program := {| structDecl := exampleDecl; implementsScanner := fun _ => false;
                    hasFieldByName := fun _ _ => false;
                    parseTagSetting := fun tag =>
                      if String.eqb tag "type:jsonb" then {["TYPE" := "jsonb"]} else ∅ |} in
  let field := {| DBName := "meta"; Name := "Meta"; Names := ["Meta"];
                  IsPrimaryKey := false; IsNormal := true; IsIgnored := false;
                  IsScanner := false; HasDefaultValue := false; SqlTag := EmptyString;
                  Struct := {| fieldName := "Meta"; fieldType := TScalar "string";
                               fieldAnonymous := false; fieldExported := true;
                               sqlTag := "type:jsonb"; gormTag := EmptyString |};
                  IsForeignKey := false; Relationship_ := None |} in
  SqlTag <$> @generateSqlTag exampleDialect program 1 field = Some "jsonb".
Proof.
  intros program field.
  assert (@parseTagSetting program (sqlTag (Struct field)) !! "TYPE" = Some "jsonb")
    as Htype by (vm_compute; reflexivity).
  destruct (@generateSqlTag_explicit_type exampleDialect exampleDialect program 1 field
              "jsonb" Htype ltac:(discriminate)) as [_ Htag].
  destruct (@generateSqlTag exampleDialect program 1 field) as [field'|] eqn:Hgen;
    [|vm_compute in Hgen; discriminate].
  vm_compute in Hgen. injection Hgen as <-. reflexivity.
Defined.

(** X22: with a DEFAULT setting in the field's sql tag, the tag of the
    field is the type, a space, the NOT NULL and the UNIQUE setting with a
    space between them, and then DEFAULT and the value: nothing separates
    the UNIQUE setting from the word DEFAULT. *)
Theorem generateSqlTag_default_setting `{Dialect} `{Program}
    (fuel : nat) (field field' : StructField) value :
  let sqlSettings := parseTagSetting (sqlTag (Struct field)) in
  sqlSettings !! "DEFAULT" = Some value ->
  generateSqlTag fuel field = Some field' ->
  exists sqlType,
    SqlTag field' =
    sqlType +:+ " " +:+ setting sqlSettings "NOT NULL" +:+ " " +:+
    setting sqlSettings "UNIQUE" +:+ "DEFAULT " +:+ value.
Proof.
  intros sqlSettings Hdefault. unfold generateSqlTag. fold sqlSettings. rewrite Hdefault.
  destruct (if IsScanner field then _ else _); [|done].
  cbn. intros [= <-]. cbn.
  assert (isBlankString
            ((setting sqlSettings "NOT NULL" +:+ " " +:+ setting sqlSettings "UNIQUE")
             +:+ "DEFAULT " +:+ value) = false) as ->.
  { pose proof (isBlankString_letter _
                  (setting sqlSettings "NOT NULL" +:+ " " +:+ setting sqlSettings "UNIQUE")
                  ("EFAULT " +:+ value) (le_n _)) as Hblank.
    rewrite <- str_app_cons in Hblank. exact Hblank. }
  eexists. rewrite (str_app_assoc (setting sqlSettings "NOT NULL")).
  rewrite (str_app_assoc " " (setting sqlSettings "UNIQUE")). reflexivity.
Qed.

Lemma generateSqlTag_default_setting_witness :
  let program := {| structDecl := exampleDecl; implementsScanner := fun _ => false;
                    hasFieldByName := fun _ _ => false;
                    parseTagSetting := fun tag =>
                      if String.eqb tag "unique;default:0"
                      then {["UNIQUE" := "UNIQUE"; "DEFAULT" := "0"]} else ∅ |} in
  let field := {| DBName := "age"; Name := "Age"; Names := ["Age"];
                  IsPrimaryKey := false; IsNormal := true; IsIgnored := false;
                  IsScanner := false; HasDefaultValue := true; SqlTag := EmptyString;
                  Struct := {| fieldName := "Age"; fieldType := TScalar "int";
                               fieldAnonymous := false; fieldExported := true;
                               sqlTag := "unique;default:0"; gormTag := EmptyString |};
                  IsForeignKey := false; Relationship_ := None |} in
  SqlTag <$> @generateSqlTag exampleDialect program 1 field =
  Some "bigint  UNIQUEDEFAULT 0".
Proof.
  intros program field.
  assert (@parseTagSetting program (sqlTag (Struct field)) !! "DEFAULT" = Some "0")
    as Hdefault by (vm_compute; reflexivity).
  destruct (@generateSqlTag exampleDialect program 1 field) as [field'|] eqn:Hgen;
    [|vm_compute in Hgen; discriminate].
  destruct (@generateSqlTag_default_setting exampleDialect program 1 field field' "0"
              Hdefault Hgen) as [sqlType Htag].
  vm_compute in Hgen. injection Hgen as <-. reflexivity.
Defined.

(** ** Migrations with join tables *)

Section JoinTables.
Context `{Dialect}.

Lemma extends_refl c : extends c c.
Proof. intros table columns Hc. by exists columns. Qed.

Lemma extends_trans c1 c2 c3 : extends c1 c2 -> extends c2 c3 -> extends c1 c3.
Proof.
  intros H12 H23 table columns Hc.
  destruct (H12 _ _ Hc) as (columns2 & Hc2 & Hsub2).
  destruct (H23 _ _ Hc2) as (columns3 & Hc3 & Hsub3).
  exists columns3. split; [done|set_solver].
Qed.

Lemma extends_is_Some c c' table : extends c c' -> is_Some (c !! table) -> is_Some (c' !! table).
Proof. intros Hext [columns Hc]. destruct (Hext _ _ Hc) as (? & ? & _). by eexists. Qed.

Lemma createTableEffect_spec table columns c :
  extends c (createTableEffect table columns c) /\
  is_Some (createTableEffect table columns c !! table) /\
  (forall t, t ≠ table -> createTableEffect table columns c !! t = c !! t).
Proof.
  unfold createTableEffect. destruct (c !! table) as [old|] eqn:Hc.
  - split; [apply extends_refl|]. split; [by rewrite Hc|done].
  - split; [|split].
    + intros t cols Ht. exists cols. split; [|done].
      rewrite lookup_insert_ne; [done|]. by intros ->; rewrite Hc in Ht.
    + by rewrite lookup_insert_eq.
    + intros t Hne. by rewrite lookup_insert_ne.
Qed.

Lemma addColumnEffect_spec table column c :
  extends c (addColumnEffect table column c) /\
  (forall columns, c !! table = Some columns ->
     addColumnEffect table column c !! table = Some (columns ∪ {[column]})) /\
  (forall t, is_Some (addColumnEffect table column c !! t) <-> is_Some (c !! t)).
Proof.
  unfold addColumnEffect. destruct (c !! table) as [old|] eqn:Hc.
  - split; [|split].
    + intros t cols Ht. destruct (decide (t = table)) as [->|Hne].
      * rewrite lookup_insert_eq. eexists. split; [done|].
        rewrite Hc in Ht. injection Ht as <-. set_solver.
      * rewrite lookup_insert_ne by done. by exists cols.
    + intros columns [= <-]. by rewrite lookup_insert_eq.
    + intros t. destruct (decide (t = table)) as [->|Hne].
      * rewrite lookup_insert_eq, Hc. split; by eexists.
      * by rewrite lookup_insert_ne.
  - split; [apply extends_refl|]. split; [done|done].
Qed.

(** [createJoinTable] leaves a database in which the join table of the
    field is there; it creates it only for a scope with a primary key. *)
Lemma createJoinTable_spec scope field d d' :
  createJoinTable scope field d = Some (tt, d') ->
  extends (catalogue d) (catalogue d') /\
  (forall table, joinTableOf field = Some table -> is_Some (catalogue d' !! table)) /\
  (forall t, is_Some (catalogue d' !! t) ->
     is_Some (catalogue d !! t) \/ joinTableOf field = Some t) /\
  (exists joins, executed d' = executed d ++ joins /\ length joins <= 1 /\
     Forall (fun sql => HasPrefix sql "CREATE TABLE " = true) joins) /\
  (scopePrimaryKeyField scope = None -> d' = d).
Proof.
  unfold createJoinTable, joinTableOf.
  assert (forall d0 : Database, exists joins, executed d0 = executed d0 ++ joins /\
            length joins <= 1 /\
            Forall (fun sql => HasPrefix sql "CREATE TABLE " = true) joins) as Hnone.
  { intros d0. exists []. rewrite app_nil_r. repeat split; [cbn; lia|constructor]. }
  destruct (Relationship_ field) as [relationship|].
  2: { rewrite ret_unfold. intros [= <-]. split; [apply extends_refl|].
       split; [done|]. split; [auto|]. split; [apply Hnone|done]. }
  destruct (String.eqb (JoinTable relationship) EmptyString) eqn:Hjoin; cbn [negb].
  { rewrite ret_unfold. intros [= <-]. split; [apply extends_refl|].
    split; [done|]. split; [auto|]. split; [apply Hnone|done]. }
  rewrite bind_unfold. unfold getCatalogue at 1. unfold HasTable.
  case_bool_decide as Htable; cbn [negb].
  { rewrite ret_unfold. intros [= <-]. split; [apply extends_refl|].
    split; [by intros table [= <-]|]. split; [auto|]. split; [apply Hnone|done]. }
  destruct (scopePrimaryKeyField scope) as [primaryKeyField|]; [|done].
  unfold Exec. intros [= <-]. cbn [catalogue executed].
  destruct (createTableEffect_spec (JoinTable relationship)
              [ForeignDBName relationship; AssociationForeignDBName relationship]
              (catalogue d)) as (Hext & Hthere & Hother).
  split; [done|]. split; [by intros table [= <-]|]. split; [|split; [|done]].
  - intros t Ht. destruct (decide (t = JoinTable relationship)) as [->|Hne]; [by right|].
    left. by rewrite <- Hother.
  - eexists [_]. split; [done|]. split; [cbn; lia|]. by repeat constructor.
Qed.

Lemma addMissingColumns_migrates scope fields d d' :
  is_Some (catalogue d !! scopeTableName scope) ->
  addMissingColumns scope fields d = Some (tt, d') ->
  extends (catalogue d) (catalogue d') /\ migrated scope fields (catalogue d').
Proof.
  revert d. induction fields as [|field fields IH]; intros d Htable Hrun.
  - cbn in Hrun. injection Hrun as <-. split; [apply extends_refl|].
    split; [|by intros ? ? []]. destruct Htable as [columns Hc].
    exists columns. split; [done|]. by intros ? [].
  - cbn [addMissingColumns] in Hrun. rewrite bind_unfold in Hrun.
    unfold getCatalogue at 1 in Hrun.
    apply bind_Some in Hrun as ([] & d1 & Halter & Hrun).
    apply bind_Some in Hrun as ([] & d2 & Hjoin & Hrun).
    assert (extends (catalogue d) (catalogue d1) /\
            (IsNormal field = true ->
             exists columns, catalogue d1 !! scopeTableName scope = Some columns /\
                             DBName field ∈ columns)) as [Hext1 Hcolumn].
    { destruct Htable as [columns Hc]. unfold HasColumn in Halter. rewrite Hc in Halter.
      case_bool_decide as Hin; cbn [negb andb] in Halter.
      - rewrite ret_unfold in Halter. injection Halter as <-.
        split; [apply extends_refl|]. intros _. by exists columns.
      - destruct (IsNormal field).
        + unfold Exec in Halter. injection Halter as <-. cbn [catalogue].
          destruct (addColumnEffect_spec (scopeTableName scope) (DBName field)
                      (catalogue d)) as (Hext & Hadd & _).
          split; [done|]. intros _. eexists. split; [by apply Hadd|]. set_solver.
        + rewrite ret_unfold in Halter. injection Halter as <-.
          split; [apply extends_refl|done]. }
    apply createJoinTable_spec in Hjoin as (Hext2 & Hthere & _).
    assert (is_Some (catalogue d2 !! scopeTableName scope)) as Htable2.
    { eapply extends_is_Some; [exact Hext2|]. by eapply extends_is_Some. }
    destruct (IH d2 Htable2 Hrun) as (Hext' & (columns' & Hc' & Hcolumns') & Hjoins').
    split; [eauto using extends_trans|]. split.
    + exists columns'. split; [done|]. intros f [<-|Hin] Hnormal; [|by apply Hcolumns'].
      destruct (Hcolumn Hnormal) as (columns1 & Hc1 & Hin1).
      destruct (Hext2 _ _ Hc1) as (columns2 & Hc2 & Hsub2).
      destruct (Hext' _ _ Hc2) as (columns3 & Hc3 & Hsub3).
      rewrite Hc' in Hc3. injection Hc3 as <-. set_solver.
    + intros f table [<-|Hin] Hjoin; [|by eapply Hjoins'].
      eapply extends_is_Some; [exact Hext'|]. by apply Hthere.
Qed.

Lemma createTableColumns_spec scope fields d sqls d' :
  createTableColumns scope fields d = Some (sqls, d') ->
  sqls = map columnSql (filter (fun field => IsNormal field = true) fields) /\
  extends (catalogue d) (catalogue d') /\
  (forall field table, In field fields -> joinTableOf field = Some table ->
     is_Some (catalogue d' !! table)) /\
  (forall t, is_Some (catalogue d' !! t) ->
     is_Some (catalogue d !! t) \/
     exists field, In field fields /\ joinTableOf field = Some t) /\
  (exists joins, executed d' = executed d ++ joins /\
     length joins <= length fields /\
     Forall (fun sql => HasPrefix sql "CREATE TABLE " = true) joins).
Proof.
  revert d sqls. induction fields as [|field fields IH]; intros d sqls Hrun.
  - cbn in Hrun. injection Hrun as <- <-. split; [done|]. split; [apply extends_refl|].
    split; [by intros ? ? []|]. split; [auto|].
    exists []. rewrite app_nil_r. repeat split; [cbn; lia|constructor].
  - cbn [createTableColumns] in Hrun.
    apply bind_Some in Hrun as ([] & d1 & Hjoin & Hrun).
    apply bind_Some in Hrun as (rest & d2 & Hrest & Hrun).
    rewrite ret_unfold in Hrun. injection Hrun as <- <-.
    apply createJoinTable_spec in Hjoin
      as (Hext1 & Hthere1 & Honly1 & (joins1 & Hexec1 & Hlen1 & Hpre1) & _).
    apply IH in Hrest as (-> & Hext2 & Hthere2 & Honly2 & (joins2 & Hexec2 & Hlen2 & Hpre2)).
    split; [|split; [eauto using extends_trans|split; [|split]]].
    + unfold columnSql. destruct (IsNormal field) eqn:Hnormal.
      * by rewrite filter_cons_True.
      * rewrite filter_cons_False; [done|]. by rewrite Hnormal.
    + intros f table [<-|Hin] Hjoin; [|by eapply Hthere2].
      eapply extends_is_Some; [exact Hext2|]. by apply Hthere1.
    + intros t Ht. destruct (Honly2 t Ht) as [Ht1|(f & Hin & Hf)].
      * destruct (Honly1 t Ht1) as [?|?]; [by left|]. right. exists field. split; [by left|done].
      * right. exists f. split; [by right|done].
    + exists (joins1 ++ joins2). rewrite Hexec2, Hexec1, <- app_assoc.
      split; [done|]. split; [rewrite length_app; cbn; lia|]. by apply Forall_app.
Qed.

Lemma addMissingColumns_noop scope fields d :
  migrated scope fields (catalogue d) ->
  addMissingColumns scope fields d = Some (tt, d).
Proof.
  intros ((columns & Hc & Hcolumns) & Hjoins).
  induction fields as [|field fields IH]; [done|].
  cbn [addMissingColumns]. rewrite bind_unfold. unfold getCatalogue at 1.
  unfold HasColumn. rewrite Hc.
  assert ((negb (bool_decide (DBName field ∈ columns)) && IsNormal field) = false) as ->.
  { destruct (IsNormal field) eqn:Hnormal; [|apply andb_false_r].
    rewrite bool_decide_eq_true_2; [done|]. apply Hcolumns; [by left|done]. }
  rewrite bind_unfold, ret_unfold, bind_unfold.
  assert (createJoinTable scope field d = Some (tt, d)) as ->.
  { unfold createJoinTable. pose proof (Hjoins field) as Hjoin. unfold joinTableOf in Hjoin.
    destruct (Relationship_ field) as [relationship|]; [|done].
    destruct (String.eqb (JoinTable relationship) EmptyString); [done|]. cbn [negb].
    rewrite bind_unfold. unfold getCatalogue at 1. unfold HasTable.
    rewrite bool_decide_eq_true_2; [done|]. apply Hjoin; [by left|done]. }
  apply IH.
  - intros f Hin. apply Hcolumns. by right.
  - intros f table Hin. apply Hjoins. by right.
Qed.

End JoinTables.

(** X23: a second run of [autoMigrate] executes no statement. The first
    run leaves the table with a column for every normal field and the join
    tables of the fields (each statement is taken to succeed, and no join
    table has the name of the scope's table); on such a database the loop
    finds nothing to add. *)
Theorem autoMigrate_idempotent `{Dialect} (scope : Scope) (d d' : Database) :
  (forall field, In field (scopeStructFields scope) ->
     joinTableOf field ≠ Some (scopeTableName scope)) ->
  autoMigrate scope d = Some (tt, d') ->
  migrated scope (scopeStructFields scope) (catalogue d') /\
  autoMigrate scope d' = Some (tt, d').
Proof.
  intros Hnames Hrun.
  assert (migrated scope (scopeStructFields scope) (catalogue d')) as Hmigrated.
  { unfold autoMigrate in Hrun. rewrite bind_unfold in Hrun.
    unfold getCatalogue at 1 in Hrun. unfold HasTable in Hrun.
    case_bool_decide as Htable; cbn [negb] in Hrun.
    - by apply addMissingColumns_migrates in Hrun as [_ ?].
    - unfold createTable in Hrun.
      apply bind_Some in Hrun as (sqls & d1 & Hcolumns & Hrun).
      apply createTableColumns_spec in Hcolumns as (_ & _ & Hjoins & Honly & _).
      unfold Exec in Hrun. injection Hrun as <-. cbn [catalogue].
      assert (catalogue d1 !! scopeTableName scope = None) as Habsent.
      { destruct (catalogue d1 !! scopeTableName scope) as [columns|] eqn:Hc; [|done].
        destruct (Honly (scopeTableName scope)) as [?|(f & Hin & Hf)];
          [by rewrite Hc|done|]. by apply Hnames in Hf. }
      unfold createTableEffect. rewrite Habsent. split.
      + eexists. rewrite lookup_insert_eq. split; [done|]. intros f Hin Hnormal.
        apply elem_of_list_to_set, list_elem_of_fmap. exists f. split; [done|].
        apply list_elem_of_filter. split; [done|]. by apply list_elem_of_In.
      + intros f table Hin Hf. destruct (decide (table = scopeTableName scope)) as [->|Hne].
        * by rewrite lookup_insert_eq.
        * rewrite lookup_insert_ne by done. by eapply Hjoins. }
  split; [done|].
  unfold autoMigrate. rewrite bind_unfold. unfold getCatalogue at 1. unfold HasTable.
  destruct Hmigrated as ((columns & Hc & Hcolumns) & Hjoins).
  rewrite bool_decide_eq_true_2 by (by rewrite Hc). cbn [negb].
  apply addMissingColumns_noop. split; [by exists columns|done].
Qed.

Lemma autoMigrate_idempotent_witness :
  exists d',
    @autoMigrate exampleDialect migrationScope usersDatabase = Some (tt, d') /\
    length (executed d') = 2 /\
    @autoMigrate exampleDialect migrationScope d' = Some (tt, d').
Proof.
  destruct (@autoMigrate exampleDialect migrationScope usersDatabase)
    as [[[] d']|] eqn:Hrun; [|vm_compute in Hrun; discriminate].
  destruct (@autoMigrate_idempotent exampleDialect migrationScope usersDatabase d')
    as [_ Hagain]; [|exact Hrun|].
  - intros field Hin. cbn in Hin.
    destruct Hin as [<-|[<-|[<-|[<-|[]]]]]; discriminate.
  - exists d'. split; [reflexivity|]. split; [|exact Hagain].
    vm_compute in Hrun. injection Hrun as <-. reflexivity.
Defined.

(** X24: [autoMigrate] panics for a scope without a primary-key field when
    one of its fields asks for a join table that is not there:
    [createJoinTable] reads the type of the primary-key field before it
    writes the statement. *)
Theorem autoMigrate_join_table_needs_primary_key `{Dialect}
    (scope : Scope) (d : Database) field table :
  scopePrimaryKeyField scope = None ->
  In field (scopeStructFields scope) ->
  joinTableOf field = Some table ->
  catalogue d !! table = None ->
  autoMigrate scope d = None.
Proof.
  intros Hpk Hin Hjoin Habsent.
  assert (forall d0, catalogue d0 !! table = None ->
            createJoinTable scope field d0 = None) as Hpanic.
  { intros d0 Hd0. unfold createJoinTable. unfold joinTableOf in Hjoin.
    destruct (Relationship_ field) as [relationship|]; [|done].
    destruct (String.eqb (JoinTable relationship) EmptyString); [done|].
    injection Hjoin as Hjoin. cbn [negb]. rewrite bind_unfold. unfold getCatalogue at 1.
    unfold HasTable. rewrite Hjoin, Hd0.
    rewrite bool_decide_eq_false_2 by (by intros []). cbn [negb]. by rewrite Hpk. }
  assert (forall fields d0, In field fields -> catalogue d0 !! table = None ->
            addMissingColumns scope fields d0 = None) as Halter.
  { induction fields as [|f fields IH]; intros d0 Hf Hd0; [done|].
    assert (forall d1, catalogue d1 !! table = None ->
              (createJoinTable scope f ≫= fun _ => addMissingColumns scope fields) d1 = None)
      as Hrest.
    { intros d1 Hd1. rewrite bind_unfold.
      destruct (createJoinTable scope f d1) as [[[] d2]|] eqn:Hjoinf; [|done].
      destruct Hf as [->|Hf]; [by rewrite Hpanic in Hjoinf|].
      apply createJoinTable_spec in Hjoinf as (_ & _ & _ & _ & Hsame).
      rewrite (Hsame Hpk). by apply IH. }
    cbn [addMissingColumns]. rewrite bind_unfold. unfold getCatalogue at 1.
    rewrite bind_unfold.
    destruct (negb (HasColumn (catalogue d0) (scopeTableName scope) (DBName f)) &&
              IsNormal f).
    - unfold Exec at 1. apply Hrest. cbn [catalogue].
      destruct (addColumnEffect_spec (scopeTableName scope) (DBName f) (catalogue d0))
        as (_ & _ & Hsame).
      apply eq_None_not_Some. rewrite Hsame. rewrite Hd0. by intros [].
    - rewrite ret_unfold. by apply Hrest. }
  assert (forall fields d0, In field fields -> catalogue d0 !! table = None ->
            createTableColumns scope fields d0 = None) as Hcreate.
  { induction fields as [|f fields IH]; intros d0 Hf Hd0; [done|].
    cbn [createTableColumns]. rewrite bind_unfold.
    destruct (createJoinTable scope f d0) as [[[] d1]|] eqn:Hjoinf; [|done].
    destruct Hf as [->|Hf]; [by rewrite Hpanic in Hjoinf|].
    apply createJoinTable_spec in Hjoinf as (_ & _ & _ & _ & Hsame).
    rewrite (Hsame Hpk), bind_unfold, IH; done. }
  unfold autoMigrate. rewrite bind_unfold. unfold getCatalogue at 1.
  destruct (negb (HasTable (catalogue d) (scopeTableName scope))).
  - unfold createTable. by rewrite bind_unfold, Hcreate.
  - by apply Halter.
Qed.

Lemma autoMigrate_join_table_needs_primary_key_witness :
  let languages := {| DBName := "languages"; Name := "Languages"; Names := ["Languages"];
                      IsPrimaryKey := false; IsNormal := false; IsIgnored := false;
                      IsScanner := false; HasDefaultValue := false;
                      SqlTag := EmptyString; Struct := plainField "Languages" "[]Language";
                      IsForeignKey := false;
                      Relationship_ := Some {| Kind := "many_to_many";
                                               ForeignType := EmptyString;
                                               ForeignFieldName := "UserId";
                                               ForeignDBName := "user_id";
                                               AssociationForeignFieldName := "LanguageId";
                                               AssociationForeignDBName := "language_id";
                                               JoinTable := "user_languages" |} |} in
  let scope := {| PrimaryKey := "id"; scopeTableName := "users";
                  QuotedTableName := "users"; PrimaryKeyZero := true;
                  PrimaryKeyValue := VInt 0; scopePrimaryKeyField := None;
                  Fields := ∅; scopeStructFields := [exampleColumn "name" "text"; languages];
                  NewFields := fun _ => []; Search := emptySearch |} in
  @autoMigrate exampleDialect scope usersDatabase = None /\
  @autoMigrate exampleDialect scope emptyDatabase = None.
Proof.
  intros languages scope. split.
  - apply (@autoMigrate_join_table_needs_primary_key exampleDialect scope usersDatabase
             languages "user_languages"); [reflexivity|cbn; tauto|reflexivity|].
    vm_compute. reflexivity.
  - apply (@autoMigrate_join_table_needs_primary_key exampleDialect scope emptyDatabase
             languages "user_languages"); [reflexivity|cbn; tauto|reflexivity|].
    vm_compute. reflexivity.
Defined.

(** X25: the statements of [createTable] are at most one CREATE TABLE for
    the join table of each field, and then the CREATE TABLE of the scope's
    table, whose column list holds the quoted column name and the tag of
    the normal fields, in order; a field that is not normal adds no
    column. *)
Theorem createTable_statements `{Dialect} (scope : Scope) (d d' : Database) :
  createTable scope d = Some (tt, d') ->
  exists joins,
    executed d' =
      executed d ++ joins ++
      ["CREATE TABLE " +:+ QuotedTableName scope +:+ " (" +:+
       Join (map columnSql
               (filter (fun field => IsNormal field = true) (scopeStructFields scope)))
            "," +:+ ")"] /\
    length joins <= length (scopeStructFields scope) /\
    Forall (fun sql => HasPrefix sql "CREATE TABLE " = true) joins.
Proof.
  unfold createTable. intros Hrun.
  apply bind_Some in Hrun as (sqls & d1 & Hcolumns & Hrun).
  apply createTableColumns_spec in Hcolumns
    as (-> & _ & _ & _ & (joins & Hexec & Hlen & Hpre)).
  unfold Exec in Hrun. injection Hrun as <-. cbn [executed].
  exists joins. by rewrite Hexec, <- app_assoc.
Qed.

Lemma createTable_statements_witness :
  exists d',
    @createTable exampleDialect migrationScope emptyDatabase = Some (tt, d') /\
    executed d' =
      ["CREATE TABLE " +:+ dquote +:+ "users" +:+ dquote +:+ " (" +:+
       dquote +:+ "id" +:+ dquote +:+ " bigint," +:+
       dquote +:+ "name" +:+ dquote +:+ " text," +:+
       dquote +:+ "email" +:+ dquote +:+ " text," +:+
       dquote +:+ "age" +:+ dquote +:+ " bigint)"].
Proof.
  destruct (@createTable exampleDialect migrationScope emptyDatabase)
    as [[[] d']|] eqn:Hrun; [|vm_compute in Hrun; discriminate].
  destruct (@createTable_statements exampleDialect migrationScope emptyDatabase d' Hrun)
    as (joins & Hexec & _).
  exists d'. split; [reflexivity|].
  vm_compute in Hrun. injection Hrun as <-. reflexivity.
Defined.

(** ** Pluralization *)

Lemma pluralize_rules tableName :
  pluralize 0 pluralMapKeys tableName =
  applyRule NotSOptionalS "${1}s"
    (applyRule (Suffix "x") "xes"
       (applyRule (Suffix "y") "ies"
          (applyRule (Suffix "day") "days"
             (applyRule (Suffix "sh") "shes"
                (applyRule (Suffix "ss") "sses"
                   (applyRule (Suffix "ch") "ches" tableName)))))).
Proof. reflexivity. Qed.

Lemma str_eqb_length s t : String.length s ≠ String.length t -> String.eqb s t = false.
Proof. intros Hlen. apply String.eqb_neq. by intros ->. Qed.

Lemma hasSuffix_app_long x lit suffix :
  String.length suffix <= String.length lit ->
  hasSuffix (x +:+ lit) suffix = hasSuffix lit suffix.
Proof.
  intros Hlen. induction x as [|c x IH]; [by rewrite str_app_nil_l|].
  rewrite str_app_cons. cbn [hasSuffix]. rewrite IH, str_eqb_length; [done|].
  cbn [String.length]. rewrite str_length_app. lia.
Qed.

Lemma applyRule_suffix lit repl tableName :
  expand repl EmptyString = repl ->
  applyRule (Suffix lit) repl tableName = tableName \/
  exists before, applyRule (Suffix lit) repl tableName = before +:+ repl.
Proof.
  intros Hrepl. unfold applyRule, MatchString, ReplaceAllString.
  destruct (hasSuffix tableName lit); [|by left].
  right. exists (trimSuffix tableName lit). by rewrite Hrepl.
Qed.

Lemma applyRule_suffix_nonempty lit repl tableName :
  expand repl EmptyString = repl -> repl ≠ EmptyString ->
  tableName ≠ EmptyString ->
  applyRule (Suffix lit) repl tableName ≠ EmptyString.
Proof.
  intros Hrepl Hne Hname.
  destruct (applyRule_suffix lit repl tableName Hrepl) as [->|[before ->]]; [done|].
  intros [_ ?]%str_app_eq_nil. done.
Qed.

Lemma matchNotS_Some name before group :
  matchNotS name = Some (before, group) ->
  exists c, group = String c EmptyString /\ c ≠ "s"%char.
Proof.
  revert before. induction name as [|c name IH]; intros before; [done|].
  cbn [matchNotS]. destruct (Ascii.eqb c "s") eqn:Hc.
  - destruct (matchNotS name) as [[b g]|]; [|done]. intros [= <- <-]. by eapply IH.
  - destruct (String.eqb name EmptyString || String.eqb name "s").
    + intros [= <- <-]. exists c. split; [done|]. by apply Ascii.eqb_neq.
    + destruct (matchNotS name) as [[b g]|]; [|done]. intros [= <- <-]. by eapply IH.
Qed.

Lemma matchNotS_None name :
  matchNotS name = None -> hasSuffix name "ss" = false ->
  name = EmptyString \/ name = "s".
Proof.
  induction name as [|c name IH]; [by left|].
  cbn [matchNotS hasSuffix]. intros Hnone Hss. right.
  apply orb_false_elim in Hss as [Heq Hss].
  destruct (matchNotS name) as [[b g]|] eqn:Hrest.
  { by destruct (Ascii.eqb c "s"), (String.eqb name EmptyString || String.eqb name "s"). }
  destruct (IH eq_refl Hss) as [->| ->].
  - destruct (Ascii.eqb c "s") eqn:Hc; [|done]. by apply Ascii.eqb_eq in Hc as ->.
  - destruct (Ascii.eqb c "s") eqn:Hc; [|done]. apply Ascii.eqb_eq in Hc as ->. done.
Qed.

Lemma matchNotS_None_suffix name :
  matchNotS name = None -> name ≠ EmptyString -> hasSuffix name "s" = true.
Proof.
  induction name as [|c name IH]; [done|]. intros Hnone _.
  cbn [matchNotS] in Hnone. cbn [hasSuffix].
  destruct (matchNotS name) as [[b g]|] eqn:Hrest.
  { by destruct (Ascii.eqb c "s"), (String.eqb name EmptyString || String.eqb name "s"). }
  destruct name as [|c' name].
  - destruct (Ascii.eqb c "s") eqn:Hc; [|done]. by apply Ascii.eqb_eq in Hc as ->.
  - rewrite IH by done. apply orb_true_r.
Qed.

Lemma matchNotS_endsInOneS before c :
  c ≠ "s"%char ->
  matchNotS (before +:+ String c "s") = Some (before, String c EmptyString).
Proof.
  intros Hc. apply Ascii.eqb_neq in Hc. induction before as [|b before IH].
  - rewrite str_app_nil_l. cbn [matchNotS]. by rewrite Hc.
  - rewrite str_app_cons. cbn [matchNotS]. rewrite IH.
    assert (String.eqb (before +:+ String c "s") EmptyString ||
            String.eqb (before +:+ String c "s") "s" = false) as ->.
    { rewrite !str_eqb_length; [done|..]; rewrite str_length_app; cbn; lia. }
    by destruct (Ascii.eqb b "s").
Qed.

Lemma applyRule_notS name :
  hasSuffix name "ss" = false ->
  let plural := applyRule NotSOptionalS "${1}s" name in
  plural = EmptyString \/ plural = "s" \/ endsInOneS plural.
Proof.
  intros Hss. unfold applyRule, MatchString, ReplaceAllString. cbn zeta.
  destruct (matchNotS name) as [[before group]|] eqn:Hmatch.
  - rewrite bool_decide_eq_true_2 by done. right. right.
    destruct (matchNotS_Some _ _ _ Hmatch) as (c & -> & Hc).
    exists before, c. split; [|done]. reflexivity.
  - rewrite bool_decide_eq_false_2 by (by intros []).
    destruct (matchNotS_None _ Hmatch Hss) as [->| ->]; auto.
Qed.

Lemma applyRule_keeps_no_ss lit repl name :
  expand repl EmptyString = repl ->
  2 <= String.length repl -> hasSuffix repl "ss" = false ->
  hasSuffix name "ss" = false ->
  hasSuffix (applyRule (Suffix lit) repl name) "ss" = false.
Proof.
  intros Hrepl Hlen Hno Hname.
  destruct (applyRule_suffix lit repl name Hrepl) as [->|[before ->]]; [done|].
  rewrite hasSuffix_app_long; [done|cbn; lia].
Qed.

Lemma applyRule_ss name : hasSuffix (applyRule (Suffix "ss") "sses" name) "ss" = false.
Proof.
  unfold applyRule, MatchString, ReplaceAllString.
  destruct (hasSuffix name "ss") eqn:Hss; [|done].
  change (expand "sses" EmptyString) with "sses".
  rewrite hasSuffix_app_long; [reflexivity|cbn; lia].
Qed.

Lemma hasSuffix_endsInOneS before c lit :
  c ≠ "s"%char ->
  In lit ["ch"; "ss"; "sh"; "day"; "y"; "x"] ->
  hasSuffix (before +:+ String c "s") lit = false.
Proof.
  intros Hc Hlit. apply Ascii.eqb_neq in Hc.
  assert (hasSuffix (String c "s") lit = false) as Hlast.
  { cbn [In] in Hlit.
    destruct Hlit as [<-|[<-|[<-|[<-|[<-|[<-|[]]]]]]]; cbn [hasSuffix];
      (rewrite (proj2 (String.eqb_neq (String c "s") _));
       [reflexivity
       |intros Heq; inversion Heq; subst; by rewrite Ascii.eqb_refl in Hc]). }
  induction before as [|b before IH]; [by rewrite str_app_nil_l|].
  rewrite str_app_cons. cbn [hasSuffix]. rewrite IH, orb_false_r.
  destruct before as [|b' before].
  - rewrite str_app_nil_l. apply String.eqb_neq. cbn [In] in Hlit.
    destruct Hlit as [<-|[<-|[<-|[<-|[<-|[<-|[]]]]]]]; intros Heq; inversion Heq.
  - apply str_eqb_length. rewrite str_app_cons. cbn [String.length].
    rewrite str_length_app. cbn [In] in Hlit.
    destruct Hlit as [<-|[<-|[<-|[<-|[<-|[<-|[]]]]]]]; cbn [String.length]; lia.
Qed.

Lemma applyRule_endsInOneS_suffix lit repl name :
  In lit ["ch"; "ss"; "sh"; "day"; "y"; "x"] ->
  endsInOneS name -> applyRule (Suffix lit) repl name = name.
Proof.
  intros Hlit (before & c & -> & Hc). unfold applyRule, MatchString.
  by rewrite hasSuffix_endsInOneS.
Qed.

Lemma applyRule_endsInOneS_notS name :
  endsInOneS name -> applyRule NotSOptionalS "${1}s" name = name.
Proof.
  intros (before & c & -> & Hc). unfold applyRule, MatchString, ReplaceAllString.
  rewrite matchNotS_endsInOneS by done.
  rewrite bool_decide_eq_true_2 by done. reflexivity.
Qed.

Lemma pluralize_shape tableName :
  let plural := pluralize 0 pluralMapKeys tableName in
  plural = EmptyString \/ plural = "s" \/ endsInOneS plural.
Proof.
  rewrite pluralize_rules. apply applyRule_notS.
  do 4 (apply applyRule_keeps_no_ss; [done|cbn; lia|done|]).
  apply applyRule_ss.
Qed.

(** X26: the table name derived from a type name that is not empty ends
    in [s], whichever rules of [pluralMapKeys] match. *)
Theorem pluralize_ends_in_s (tableName : string) :
  tableName ≠ EmptyString ->
  hasSuffix (pluralize 0 pluralMapKeys tableName) "s" = true.
Proof.
  intros Hname. rewrite pluralize_rules.
  set (name := applyRule (Suffix "x") "xes" _).
  assert (name ≠ EmptyString) as Hne.
  { subst name. by repeat (apply applyRule_suffix_nonempty; [done|done|]). }
  unfold applyRule, MatchString, ReplaceAllString.
  destruct (matchNotS name) as [[before group]|] eqn:Hmatch.
  - rewrite bool_decide_eq_true_2 by done.
    change (expand "${1}s" group) with (group +:+ "s").
    rewrite <- str_app_assoc. apply hasSuffix_app.
  - rewrite bool_decide_eq_false_2 by (by intros []).
    by apply matchNotS_None_suffix.
Qed.

Lemma pluralize_ends_in_s_witness :
  pluralize 0 pluralMapKeys "box" = "boxes" /\
  hasSuffix (pluralize 0 pluralMapKeys "box") "s" = true.
Proof.
  split; [reflexivity|]. by apply (pluralize_ends_in_s "box").
Defined.

(** X27: pluralization is idempotent: a name that the rules of
    [pluralMapKeys] have rewritten is left as it is by a second pass, so
    that a type whose name is a plural keeps its name as table name. *)
Theorem pluralize_idempotent (tableName : string) :
  pluralize 0 pluralMapKeys (pluralize 0 pluralMapKeys tableName) =
  pluralize 0 pluralMapKeys tableName.
Proof.
  destruct (pluralize_shape tableName) as [->|[->|Hshape]]; [reflexivity..|].
  rewrite (pluralize_rules (pluralize 0 pluralMapKeys tableName)).
  rewrite (applyRule_endsInOneS_suffix "ch" "ches" _ ltac:(cbn; tauto) Hshape).
  rewrite (applyRule_endsInOneS_suffix "ss" "sses" _ ltac:(cbn; tauto) Hshape).
  rewrite (applyRule_endsInOneS_suffix "sh" "shes" _ ltac:(cbn; tauto) Hshape).
  rewrite (applyRule_endsInOneS_suffix "day" "days" _ ltac:(cbn; tauto) Hshape).
  rewrite (applyRule_endsInOneS_suffix "y" "ies" _ ltac:(cbn; tauto) Hshape).
  rewrite (applyRule_endsInOneS_suffix "x" "xes" _ ltac:(cbn; tauto) Hshape).
  by apply applyRule_endsInOneS_notS.
Qed.

(** ** The "args" entry, on examples *)

Lemma string_clause_without_args_panics_witness :
  @buildWhereCondition exampleDialect (exampleScope emptySearch)
    {["query" := VString "name = ?"]} [] = None /\
  @buildNotCondition exampleDialect (exampleScope emptySearch)
    {["query" := VString "name = ?"]} [] = None.
Proof.
  apply (@string_clause_without_args_panics exampleDialect (exampleScope emptySearch)
           {["query" := VString "name = ?"]} "name = ?" []);
    [reflexivity | reflexivity |].
  intros args Hargs. vm_compute in Hargs. discriminate.
Defined.

Lemma clause_with_args_renders_witness :
  is_Some (@buildWhereCondition exampleDialect (exampleScope emptySearch)
             (clauseOf (VString "name = ?") [VString "bob"]) []) /\
  is_Some (@buildNotCondition exampleDialect (exampleScope emptySearch)
             (clauseOf (VString "name = ?") [VString "bob"]) []).
Proof.
  apply (@clause_with_args_renders exampleDialect (exampleScope emptySearch)
           (clauseOf (VString "name = ?") [VString "bob"]) [VString "bob"] []);
    [reflexivity|]. repeat constructor. discriminate.
Defined.

Lemma early_shapes_need_no_args_witness :
  is_Some (@buildWhereCondition exampleDialect (exampleScope emptySearch)
             {["query" := VMap [("name", VString "bob")]]} []) /\
  is_Some (@buildNotCondition exampleDialect (exampleScope emptySearch)
             {["query" := VMap [("name", VString "bob")]]} []).
Proof.
  apply (@early_shapes_need_no_args exampleDialect (exampleScope emptySearch)
           {["query" := VMap [("name", VString "bob")]]} []).
  vm_compute. exact I.
Defined.

